(** * sidegit: the change-aggregation engine

    A shallow embedding of the status parser ([GetStatus] and
    [parseOrdinaryEntry]), the repository discoverer (scanner.go), the tree
    model (tree.go) and the case of the Bubble Tea update function that
    owns the tree (model.go), with the properties of the design document
    stated and settled against them.  Further sections embed the branch
    lookup, the paths of the file watcher, the fitting of names into a
    row, the window of rows that [Render] draws, the configuration and
    the key handler, with properties read off the code.

    Conventions of the embedding.
    - A Go [string] is a sequence of bytes: Rocq's [string].
    - A Go [int] is a [Z].  Every integer of this program is an index into a
      slice or a length, so the 64-bit wrap-around is never reached and is
      not written out.
    - A run-time panic (index out of range) is the outcome [Panics]; a
      recursion that the model cuts off is [OutOfFuel].
    - A pointer into a slice is the index it points at.
    - The colour theme only feeds the renderer: the tree model leaves it
      out, the configuration carries it.
    - What the styling and widget libraries do is a parameter of the
      functions that call them. *)

From Stdlib Require Import ZArith String Ascii List Lia Permutation OrdersEx.
From stdpp Require Import base numbers list strings gmap sorting.

Open Scope string_scope.
Open Scope Z_scope.
Open Scope list_scope.

(** ** Outcomes of a Go call *)

Inductive outcome (A : Type) : Type :=
| Returns (a : A)
| Panics
| OutOfFuel.
Arguments Returns {A} a.
Arguments Panics {A}.
Arguments OutOfFuel {A}.

Definition bind {A B} (m : outcome A) (k : A -> outcome B) : outcome B :=
  match m with
  | Returns a => k a
  | Panics => Panics
  | OutOfFuel => OutOfFuel
  end.

Notation "'do' x <- m ; k" := (bind m (fun x => k))
  (at level 10, x name, m at level 100, k at level 200).

(** [s[i]] on a slice: panics out of range. *)
Definition index {A} (l : list A) (i : Z) : outcome A :=
  if i <? 0 then Panics
  else match l !! Z.to_nat i with
       | Some a => Returns a
       | None => Panics
       end.

Definition len {A} (l : list A) : Z := Z.of_nat (length l).

(** A [for ... range] loop whose body may panic. *)
Fixpoint forEach {A S} (body : S -> A -> outcome S) (l : list A) (s : S)
  : outcome S :=
  match l with
  | [] => Returns s
  | a :: rest =>
      do s' <- body s a;
      forEach body rest s'
  end.

(** ** The Go standard library, as far as the program uses it *)

Module strings.

(** [s[i]] on a string. *)
Definition at_ (s : string) (i : Z) : outcome ascii :=
  index (list_ascii_of_string s) i.

(** [s[n:]] for [0 <= n <= len(s)]; panics otherwise. *)
Definition from (s : string) (n : nat) : outcome string :=
  if (n <=? String.length s)%nat
  then Returns (String.substring n (String.length s - n) s)
  else Panics.

Definition HasPrefix (s p : string) : bool := String.prefix p s.

Definition Join (elems : list string) (sep : string) : string :=
  String.concat sep elems.

(** [strings.Split(s, sep)] for a one-byte separator: the pieces between
    the separators, never an empty slice. *)
Fixpoint Split (s : string) (sep : ascii) : list string :=
  match s with
  | EmptyString => [EmptyString]
  | String c s' =>
      if Ascii.eqb c sep then EmptyString :: Split s' sep
      else match Split s' sep with
           | h :: t => String c h :: t
           | [] => [String c EmptyString]
           end
  end.

(** [strings.SplitN(s, sep, 2)] for a one-byte separator: the text before
    the first separator and the whole rest, or [s] alone. *)
Fixpoint SplitN2 (s : string) (sep : ascii) : list string :=
  match s with
  | EmptyString => [EmptyString]
  | String c s' =>
      if Ascii.eqb c sep then [EmptyString; s']
      else match SplitN2 s' sep with
           | h :: t => String c h :: t
           | [] => [String c EmptyString]
           end
  end.

(** White space is what [unicode.IsSpace] accepts.  [spaceWidth bs] is the
    number of bytes of the white-space rune that starts [bs], or 0 when
    none does: the six ASCII bytes of the table [asciiSpace], and the
    UTF-8 encodings of U+0085, U+00A0, U+1680, U+2000..U+200A, U+2028,
    U+2029, U+202F, U+205F and U+3000.  No byte of a multi-byte encoding
    other than its first can start a white-space rune, so scanning by
    bytes and by runes find the same white space. *)
Definition asciiSpace (b : N) : bool :=
  match b with
  | 9 | 10 | 11 | 12 | 13 | 32 => true
  | _ => false
  end%N.

Definition isSpace2 (a b : N) : bool :=
  ((a =? 0xC2) && ((b =? 0x85) || (b =? 0xA0)))%N.

Definition isSpace3 (a b c : N) : bool :=
  ((a =? 0xE1) && (b =? 0x9A) && (c =? 0x80)
   || (a =? 0xE2) && (b =? 0x80)
      && ((0x80 <=? c) && (c <=? 0x8A)
          || (c =? 0xA8) || (c =? 0xA9) || (c =? 0xAF))
   || (a =? 0xE2) && (b =? 0x81) && (c =? 0x9F)
   || (a =? 0xE3) && (b =? 0x80) && (c =? 0x80))%N.

Definition spaceWidth (bs : list N) : nat :=
  match bs with
  | a :: rest =>
      if asciiSpace a then 1%nat
      else if match rest with b :: _ => isSpace2 a b | [] => false end
      then 2%nat
      else if match rest with b :: c :: _ => isSpace3 a b c | _ => false end
      then 3%nat
      else 0%nat
  | [] => 0%nat
  end.

(** The same, read backwards from the end of a string: [rs] is the
    reversed byte sequence (what [utf8.DecodeLastRuneInString] sees). *)
Definition spaceWidthRev (rs : list N) : nat :=
  match rs with
  | c :: rest =>
      if asciiSpace c then 1%nat
      else if match rest with b :: _ => isSpace2 b c | [] => false end
      then 2%nat
      else if match rest with b :: a :: _ => isSpace3 a b c | _ => false end
      then 3%nat
      else 0%nat
  | [] => 0%nat
  end.

(** [strings.Fields]: the maximal runs of bytes that are not white space.
    [skip] counts the bytes of a white-space rune still to be passed,
    [cur] is the field being read. *)
Fixpoint fieldsLoop (bs : list ascii) (skip : nat) (cur : option string)
  : list string :=
  match bs with
  | [] => match cur with Some f => [f] | None => [] end
  | c :: bs' =>
      match skip with
      | S k => fieldsLoop bs' k cur
      | O =>
          match spaceWidth (map N_of_ascii bs) with
          | O =>
              fieldsLoop bs' 0
                (Some (default EmptyString cur +:+ String c EmptyString))
          | S k =>
              match cur with
              | Some f => f :: fieldsLoop bs' k None
              | None => fieldsLoop bs' k None
              end
          end
      end
  end.

Definition Fields (s : string) : list string :=
  fieldsLoop (list_ascii_of_string s) 0 None.

(** Drop the white-space runes at the head of a byte sequence
    ([forward = true]) or of a reversed one. *)
Fixpoint dropSpace (forward : bool) (bs : list ascii) (skip : nat)
  : list ascii :=
  match bs with
  | [] => []
  | c :: bs' =>
      match skip with
      | S k => dropSpace forward bs' k
      | O =>
          match (if forward then spaceWidth else spaceWidthRev)
                  (map N_of_ascii bs) with
          | O => bs
          | S k => dropSpace forward bs' k
          end
      end
  end.

(** [strings.TrimSpace]: leading white space is cut first, then trailing. *)
Definition TrimSpace (s : string) : string :=
  string_of_list_ascii
    (rev (dropSpace false (rev (dropSpace true (list_ascii_of_string s) 0)) 0)).

End strings.

(** [path/filepath] on a Unix system (the separator is a slash, there are
    no volume names), in terms of path elements. *)
Module filepath.

Definition slash : ascii := "/"%char.

Definition rooted (p : string) : bool :=
  match p with
  | String c _ => Ascii.eqb c slash
  | EmptyString => false
  end.

(** One element read by [Clean]; [out] holds the elements written so far.
    An empty element and [.] are dropped; [..] removes the last element
    written when there is one that is not itself [..], is dropped at the
    root, and is kept at the head of a relative path. *)
Definition cleanStep (isRooted : bool) (out : list string) (elem : string)
  : list string :=
  if String.eqb elem "" || String.eqb elem "." then out
  else if String.eqb elem ".." then
    match last out with
    | Some e =>
        if String.eqb e ".." then out ++ [".."] else removelast out
    | None => if isRooted then out else out ++ [".."]
    end
  else out ++ [elem].

Definition Clean (path : string) : string :=
  if String.eqb path "" then "."
  else
    let out := foldl (cleanStep (rooted path)) [] (strings.Split path slash) in
    let body := strings.Join out "/" in
    if rooted path then "/" +:+ body
    else if String.eqb body "" then "." else body.

(** [path[:i+1]] where [i] is the index of the last separator of [path]
    (the empty string when there is none). *)
Fixpoint upToLastSep (path : string) : string :=
  match path with
  | EmptyString => EmptyString
  | String c rest =>
      let r := upToLastSep rest in
      if negb (String.eqb r "") || Ascii.eqb c slash then String c r
      else EmptyString
  end.

Definition Dir (path : string) : string := Clean (upToLastSep path).

(** [Join]: the elements from the first non-empty one on, joined by
    slashes and cleaned. *)
Fixpoint Join (elem : list string) : string :=
  match elem with
  | [] => ""
  | e :: rest =>
      if String.eqb e "" then Join rest
      else Clean (strings.Join elem "/")
  end.

(** The elements that the loop of [Rel] compares: a rooted path starts
    with an empty element. *)
Definition elements (p : string) : list string :=
  if String.eqb p "" then []
  else if String.eqb p "/" then [""]
  else strings.Split p slash.

Fixpoint stripCommon (b t : list string) : list string * list string :=
  match b, t with
  | x :: b', y :: t' => if String.eqb x y then stripCommon b' t' else (b, t)
  | _, _ => (b, t)
  end.

(** [Rel]: [None] is the error. *)
Definition Rel (basepath targpath : string) : option string :=
  let base := Clean basepath in
  let targ := Clean targpath in
  if String.eqb targ base then Some "."
  else
    let base := if String.eqb base "." then "" else base in
    if negb (Bool.eqb (rooted base) (rooted targ)) then None
    else
      match stripCommon (elements base) (elements targ) with
      | ([], t') => Some (strings.Join t' "/")
      | (b0 :: b', []) =>
          Some (strings.Join (map (fun _ => "..") (b0 :: b')) "/")
      | (b0 :: b', t') =>
          if String.eqb b0 ".." then None
          else Some (strings.Join (map (fun _ => "..") (b0 :: b') ++ t') "/")
      end.

End filepath.

(** [sort.Slice] and [sort.Strings].  The library does not promise a
    stable sort; up to twelve elements it runs the insertion sort below
    (each element is swapped leftwards while it is less than its left
    neighbour), and for a comparison that is a strict total order of the
    keys present every sorting algorithm has the same result. *)
Module sort.

Section Insertion.
Context {A : Type} (less : A -> A -> bool).

(** [rprefix] is the sorted prefix, last element first. *)
Fixpoint sink (x : A) (rprefix : list A) : list A :=
  match rprefix with
  | [] => [x]
  | y :: rest => if less x y then y :: sink x rest else x :: y :: rest
  end.

Definition Slice (data : list A) : list A :=
  rev (foldl (fun rprefix x => sink x rprefix) [] data).
End Insertion.

Definition Strings (data : list string) : list string :=
  Slice String.ltb data.

End sort.

(** ** The status parser *)

Inductive StatusCode : Type :=
| StatusModified   (* "M" *)
| StatusAdded      (* "A" *)
| StatusDeleted    (* "D" *)
| StatusRenamed    (* "R" *)
| StatusCopied     (* "C" *)
| StatusUntracked. (* "?" *)

Record FileStatus : Type := mkFileStatus {
  Path : string;
  Status : StatusCode;
  IsStaged : bool
}.

Definition mapStatusByte (b : ascii) : StatusCode :=
  match b with
  | "M"%char => StatusModified
  | "A"%char => StatusAdded
  | "D"%char => StatusDeleted
  | "R"%char => StatusRenamed
  | "C"%char => StatusCopied
  | _ => StatusModified
  end.

Definition tab : ascii := ascii_of_nat 9.
Definition newline : ascii := ascii_of_nat 10.

(** [parseOrdinaryEntry]: [None] is the nil pointer. *)
Definition parseOrdinaryEntry (line : string) : outcome (option FileStatus) :=
  let fields := strings.Fields line in
  if len fields <? 9 then Returns None
  else
    do xy <- index fields 1;
    do stagedCode <- strings.at_ xy 0;
    do unstagedCode <- strings.at_ xy 1;
    do kind <- index fields 0;
    do path <-
      (if String.eqb kind "2" then
         do lastField <- index fields (len fields - 1);
         let parts := strings.SplitN2 lastField tab in
         if len parts =? 2 then index parts 1 else Returns lastField
       else index fields (len fields - 1));
    if negb (Ascii.eqb unstagedCode "."%char) then
      Returns (Some (mkFileStatus path (mapStatusByte unstagedCode) false))
    else if negb (Ascii.eqb stagedCode "."%char) then
      Returns (Some (mkFileStatus path (mapStatusByte stagedCode) true))
    else Returns None.

(** One turn of the loop of [GetStatus] over the lines of the output. *)
Definition statusLine (files : list FileStatus) (line : string)
  : outcome (list FileStatus) :=
  let line := strings.TrimSpace line in
  if String.eqb line "" || strings.HasPrefix line "#" then Returns files
  else if strings.HasPrefix line "1 " || strings.HasPrefix line "2 " then
    do fs <- parseOrdinaryEntry line;
    match fs with
    | Some f => Returns (files ++ [f])
    | None => Returns files
    end
  else if strings.HasPrefix line "? " then
    do path <- strings.from line 2;
    Returns (files ++ [mkFileStatus path StatusUntracked false])
  else Returns files.

Fixpoint statusLoop (files : list FileStatus) (lines : list string)
  : outcome (list FileStatus) :=
  match lines with
  | [] => Returns files
  | line :: rest =>
      do files' <- statusLine files line;
      statusLoop files' rest
  end.

(** What [cmd.Output()] gives back for [git status --porcelain=v2]: the
    bytes written, or an error. *)
Inductive cmdOutput : Type :=
| cmdOk (out : string)
| cmdErr (msg : string).

(** [GetStatus]: the slice of files and the error (nil is [None]). *)
Definition GetStatus (cmd : cmdOutput)
  : outcome (list FileStatus * option string) :=
  match cmd with
  | cmdErr msg => Returns ([], Some ("git status failed: " +:+ msg))
  | cmdOk out =>
      do files <- statusLoop [] (strings.Split out newline);
      Returns (files, None)
  end.

(** ** scanner.go: the repository discoverer *)

Record Repo : Type := mkRepo {
  Repo_Path : string;
  RelPath : string;
  Branch : string;
  Files : list FileStatus
}.

Record DirEntry : Type := mkDirEntry {
  Name : string;
  IsDir : bool
}.

(** What the discoverer reads from outside: [os.Stat] ([None] is an error,
    [Some d] tells whether the path is a directory), [os.ReadDir], the
    output of [git status] in a directory, and the branch that
    [FindBranch] resolves there. *)
Record World : Type := mkWorld {
  Stat : string -> option bool;
  ReadDir : string -> option (list DirEntry);
  gitStatus : string -> cmdOutput;
  FindBranch : string -> string
}.

Definition isGitRepo (w : World) (path : string) : bool :=
  match Stat w (filepath.Join [path; ".git"]) with
  | None => false
  | Some isDir => isDir
  end.

Definition buildRepo (w : World) (root repoPath : string) : outcome Repo :=
  let rel :=
    match filepath.Rel root repoPath with
    | None => repoPath
    | Some rel => rel
    end in
  let rel :=
    if String.eqb rel "" || String.eqb rel "." then repoPath else rel in
  let branch := FindBranch w repoPath in
  do res <- GetStatus (gitStatus w repoPath);
  Returns (mkRepo repoPath rel branch (fst res)).

(** [!entry.IsDir() || entry.Name()[0] == '.'] *)
Definition skipped (entry : DirEntry) : outcome bool :=
  if negb (IsDir entry) then Returns true
  else
    do c <- strings.at_ (Name entry) 0;
    Returns (Ascii.eqb c "."%char).

Fixpoint scanDeep (w : World) (root sub : string) (subEntries : list DirEntry)
  (repos : list Repo) : outcome (list Repo) :=
  match subEntries with
  | [] => Returns repos
  | subEntry :: rest =>
      do skip <- skipped subEntry;
      if skip then scanDeep w root sub rest repos
      else
        let deep := filepath.Join [sub; Name subEntry] in
        do repos' <-
          (if isGitRepo w deep then
             do r <- buildRepo w root deep;
             Returns (repos ++ [r])
           else Returns repos);
        scanDeep w root sub rest repos'
  end.

Fixpoint scanEntries (w : World) (root : string) (entries : list DirEntry)
  (repos : list Repo) : outcome (list Repo) :=
  match entries with
  | [] => Returns repos
  | entry :: rest =>
      do skip <- skipped entry;
      if skip then scanEntries w root rest repos
      else
        let sub := filepath.Join [root; Name entry] in
        do repos1 <-
          (if isGitRepo w sub then
             do r <- buildRepo w root sub;
             Returns (repos ++ [r])
           else Returns repos);
        do repos2 <-
          match ReadDir w sub with
          | None => Returns repos1
          | Some subEntries => scanDeep w root sub subEntries repos1
          end;
        scanEntries w root rest repos2
  end.

(** The comparison handed to [sort.Slice]. *)
Definition repoLess (a b : Repo) : bool :=
  if String.eqb (RelPath a) "." then true
  else if String.eqb (RelPath b) "." then false
  else String.ltb (RelPath a) (RelPath b).

(** [ScanRepos]; [root] is the absolute path that [filepath.Abs] gave. *)
Definition ScanRepos (w : World) (root : string) : outcome (list Repo) :=
  do repos <-
    (if isGitRepo w root then
       do r <- buildRepo w root root;
       Returns [r]
     else Returns []);
  match ReadDir w root with
  | None => Returns repos
  | Some entries =>
      do repos' <- scanEntries w root entries repos;
      Returns (sort.Slice repoLess repos')
  end.

(** ** tree.go: the tree model *)

Inductive NodeKind : Type := NodeRepo | NodeDir | NodeFile.

(** [RepoRef] is the pointer [Repo] (always [&repos[i]]), [File] the
    pointer [File] ([&repos[i].Files[j]], or nil). *)
Record TreeNode : Type := mkTreeNode {
  Kind : NodeKind;
  RepoRef : nat;
  File : option nat;
  DirPath : string;
  RepoIndex : Z;
  Depth : Z;
  Collapsed : bool;
  ParentDir : Z
}.

Record TreeModel : Type := mkTreeModel {
  nodes : list TreeNode;
  visible : list Z;
  cursor : Z
}.

(** Go visits the keys of a map in an order that it does not specify and
    that changes from run to run.  [o i b keys] is the order in which the
    loop over [dirFiles] ([b = false]) or over [dirSet] ([b = true]) of
    repository [i] visits [keys]; [fair o] says that it visits each key
    once. *)
Definition MapOrder : Type := nat -> bool -> list string -> list string.

Definition fair (o : MapOrder) : Prop :=
  forall i b keys, Permutation (o i b keys) keys.

Definition fileDir (f : FileStatus) : string :=
  let dir := filepath.Dir (Path f) in
  if String.eqb dir "." then "" else dir.

(** [dirFiles]: directory -> pointers to the files directly in it. *)
Definition groupFiles (files : list FileStatus) : gmap string (list nat) :=
  foldl (fun (dirFiles : gmap string (list nat)) jf =>
           let dir := fileDir (snd jf) in
           <[dir := default [] (dirFiles !! dir) ++ [fst jf]]> dirFiles)
        ∅ (imap pair files).

(** The body of the loop that fills [dirSet]. *)
Definition addPrefixes (dirSet : gset string) (dir : string) : gset string :=
  if String.eqb dir "" then dirSet
  else
    let parts := strings.Split dir filepath.slash in
    foldl (fun (acc : gset string) k => {[ strings.Join (take k parts) "/" ]} ∪ acc)
          dirSet (seq 1 (length parts)).

Definition repoNode (i : nat) : TreeNode :=
  mkTreeNode NodeRepo i None "" (Z.of_nat i) 0 false (-1).

Definition dirNode (i : nat) (segment : string) (depth parentIdx : Z)
  : TreeNode :=
  mkTreeNode NodeDir i None segment (Z.of_nat i) depth false parentIdx.

Definition fileNode (i : nat) (depth parentIdx : Z) (f : nat) : TreeNode :=
  mkTreeNode NodeFile i (Some f) "" (Z.of_nat i) depth false parentIdx.

(** What the closure [addDir] writes to. *)
Record builder : Type := mkBuilder {
  b_nodes : list TreeNode;
  dirNodeIdx : gmap string Z
}.

(** [addDir] calls itself on the parent directory; [fuel] bounds the depth
    of that recursion. *)
Fixpoint addDir (fuel : nat) (i : nat) (repoIdx : Z)
  (dirFiles : gmap string (list nat)) (dir : string) (st : builder)
  : outcome builder :=
  match dirNodeIdx st !! dir with
  | Some _ => Returns st
  | None =>
      let parts := strings.Split dir filepath.slash in
      let depth := len parts in
      do sp <-
        (if 1 <? len parts then
           let parentDir :=
             strings.Join (take (Z.to_nat (len parts - 1)) parts) "/" in
           match fuel with
           | O => OutOfFuel
           | S fuel' =>
               do st' <- addDir fuel' i repoIdx dirFiles parentDir st;
               Returns (st', default 0 (dirNodeIdx st' !! parentDir))
           end
         else Returns (st, repoIdx));
      let st1 := fst sp in
      let parentIdx := snd sp in
      let dirIdx := len (b_nodes st1) in
      do segment <- index parts (len parts - 1);
      let withDir :=
        b_nodes st1 ++ [dirNode i segment depth parentIdx] in
      let files := default [] (dirFiles !! dir) in
      Returns (mkBuilder
                 (withDir ++ map (fileNode i (depth + 1) dirIdx) files)
                 (<[dir := dirIdx]> (dirNodeIdx st1)))
  end.

(** The body of the outer loop of [NewTreeModel], for repository [i]. *)
Definition addRepo (o : MapOrder) (acc : list TreeNode) (ir : nat * Repo)
  : outcome (list TreeNode) :=
  let i := fst ir in
  let repoIdx := len acc in
  let acc1 := acc ++ [repoNode i] in
  let dirFiles := groupFiles (Files (snd ir)) in
  let dirSet :=
    foldl addPrefixes ∅ (o i false (fst <$> map_to_list dirFiles)) in
  let allDirs := sort.Strings (o i true (elements dirSet)) in
  do st <-
    forEach (fun st dir =>
               addDir (String.length dir) i repoIdx dirFiles dir st)
            allDirs (mkBuilder acc1 ∅);
  Returns (b_nodes st
           ++ map (fileNode i 1 repoIdx) (default [] (dirFiles !! ""))).

Fixpoint isAncestorExpanded (fuel : nat) (tm_nodes : list TreeNode)
  (n : TreeNode) : outcome bool :=
  if ParentDir n <? 0 then Returns true
  else
    do parent <- index tm_nodes (ParentDir n);
    if Collapsed parent then Returns false
    else
      match fuel with
      | O => OutOfFuel
      | S fuel' => isAncestorExpanded fuel' tm_nodes parent
      end.

Definition visibleStep (tm_nodes : list TreeNode) (vis : list Z)
  (entry : nat * TreeNode) : outcome (list Z) :=
  let i := Z.of_nat (fst entry) in
  let n := snd entry in
  match Kind n with
  | NodeRepo => Returns (vis ++ [i])
  | NodeDir | NodeFile =>
      do expanded <- isAncestorExpanded (length tm_nodes) tm_nodes n;
      if expanded then Returns (vis ++ [i]) else Returns vis
  end.

Definition rebuildVisible (tm : TreeModel) : outcome TreeModel :=
  do vis <- forEach (visibleStep (nodes tm)) (imap pair (nodes tm)) [];
  let cur :=
    if len vis <=? cursor tm then Z.max 0 (len vis - 1) else cursor tm in
  Returns (mkTreeModel (nodes tm) vis cur).

Definition NewTreeModel (o : MapOrder) (repos : list Repo)
  : outcome TreeModel :=
  do built <- forEach (addRepo o) (imap pair repos) [];
  rebuildVisible (mkTreeModel built [] 0).

Definition MoveUp (tm : TreeModel) : TreeModel :=
  if 0 <? cursor tm
  then mkTreeModel (nodes tm) (visible tm) (cursor tm - 1)
  else tm.

Definition MoveDown (tm : TreeModel) : TreeModel :=
  if cursor tm <? len (visible tm) - 1
  then mkTreeModel (nodes tm) (visible tm) (cursor tm + 1)
  else tm.

(** [SelectedNode] returns a pointer into [tm.nodes]: the index of the
    selected node, or nil. *)
Definition SelectedNode (tm : TreeModel) : outcome (option Z) :=
  if (len (visible tm) =? 0) || (cursor tm <? 0)
     || (len (visible tm) <=? cursor tm)
  then Returns None
  else
    do i <- index (visible tm) (cursor tm);
    do _ <- index (nodes tm) i;
    Returns (Some i).

Definition toggled (n : TreeNode) : TreeNode :=
  mkTreeNode (Kind n) (RepoRef n) (File n) (DirPath n) (RepoIndex n)
             (Depth n) (negb (Collapsed n)) (ParentDir n).

Definition ToggleCollapse (tm : TreeModel) : outcome TreeModel :=
  do sel <- SelectedNode tm;
  match sel with
  | None => Returns tm
  | Some i =>
      do node <- index (nodes tm) i;
      match Kind node with
      | NodeRepo | NodeDir =>
          rebuildVisible
            (mkTreeModel (<[Z.to_nat i := toggled node]> (nodes tm))
                         (visible tm) (cursor tm))
      | NodeFile => Returns tm
      end
  end.

Definition Len (tm : TreeModel) : Z := len (visible tm).

(** ** model.go: the fields and the case of [Update] that own the tree *)

Record model : Type := mkModel {
  repos : list Repo;
  tree : TreeModel
}.

(** [case reposScannedMsg] of [Update]. *)
Definition Update_reposScanned (o : MapOrder) (m : model)
  (msg_repos : list Repo) : outcome model :=
  do t <- NewTreeModel o msg_repos;
  Returns (mkModel msg_repos t).

Definition idOrder : MapOrder := fun _ _ keys => keys.
Definition revOrder : MapOrder := fun _ _ keys => rev keys.

(** * Vocabulary of the properties *)

(** A string without ASCII white space. *)
Definition plain (f : string) : Prop :=
  Forall (fun c => strings.asciiSpace (N_of_ascii c) = false)
         (list_ascii_of_string f).

(** The order of Go's [<] on strings, made reflexive. *)
Definition le (a b : string) : Prop := String.ltb b a = false.

(** A rename entry in the shape the parser expects (original path, tab,
    new path) whose new path holds a space. *)
Definition renameEntry : string :=
  "2 R. N... 100644 100644 100644 1a2b 3c4d R100 draft.txt"
  +:+ String tab "final draft.txt".

(** Status output with one malformed line between two sound ones: the
    second field of the ordinary entry has one byte only. *)
Definition malformedOutput : string :=
  "? a.txt" +:+ String newline
    ("1 M N... 100644 100644 100644 1a2b 3c4d notes.txt"
     +:+ String newline "? b.txt").

(** The world [w] with the output of [git status] in [p] replaced. *)
Definition withStatus (w : World) (p : string) (out : cmdOutput) : World :=
  mkWorld (Stat w) (ReadDir w)
          (fun q => if String.eqb q p then out else gitStatus w q)
          (FindBranch w).

Definition clearFiles (p : string) (r : Repo) : Repo :=
  if String.eqb (Repo_Path r) p
  then mkRepo (Repo_Path r) (RelPath r) (Branch r) []
  else r.

(** A root that holds the repositories [a] and [b], and in [a] the
    repository [c], where [git status] fails. *)
Definition brokenWorld : World :=
  mkWorld
    (fun q => if String.eqb q "/w/a/.git" || String.eqb q "/w/a/c/.git"
                 || String.eqb q "/w/b/.git"
              then Some true else None)
    (fun q => if String.eqb q "/w"
              then Some [mkDirEntry "a" true; mkDirEntry "b" true]
              else if String.eqb q "/w/a"
              then Some [mkDirEntry ".git" true; mkDirEntry "c" true]
              else Some [mkDirEntry ".git" true])
    (fun q => if String.eqb q "/w/a/c" then cmdErr "exit status 128"
              else cmdOk "? x.txt")
    (fun _ => "main").

(** A root [/w] that is a repository and holds the repository [-x]. *)
Definition dashWorld : World :=
  mkWorld
    (fun q => if String.eqb q "/w/.git" || String.eqb q "/w/-x/.git"
              then Some true else None)
    (fun q => if String.eqb q "/w"
              then Some [mkDirEntry "-x" true; mkDirEntry ".git" true]
              else Some [mkDirEntry ".git" true])
    (fun _ => cmdOk "")
    (fun _ => "main").

(** A path element: a string without a slash. *)
Definition element (s : string) : Prop :=
  Forall (fun c => c <> filepath.slash) (list_ascii_of_string s).

(** A node array in which every parent comes before its children and a
    repository node has no parent: what [NewTreeModel] builds and
    [ToggleCollapse] keeps. *)
Definition wf_nodes (ns : list TreeNode) : Prop :=
  forall k n, ns !! k = Some n ->
    ParentDir n < Z.of_nat k /\ (Kind n = NodeRepo -> ParentDir n < 0).

(** Directory and file nodes appended behind [base] nodes: each points
    to a node before it and is expanded. *)
Definition added (base : nat) (ext : list TreeNode) : Prop :=
  forall k n, ext !! k = Some n ->
    0 <= ParentDir n < Z.of_nat (base + k)
    /\ Kind n <> NodeRepo /\ Collapsed n = false.

(** What [addDir] relies on: the repository node exists and every entry
    of [dirNodeIdx] is the index of a node. *)
Definition binv (repoIdx : Z) (st : builder) : Prop :=
  0 <= repoIdx < len (b_nodes st)
  /\ forall d v, dirNodeIdx st !! d = Some v -> 0 <= v < len (b_nodes st).

(** [ancestor ns n a]: the walk up the [ParentDir] chain from [n] passes
    the node of index [a]. *)
Inductive ancestor (ns : list TreeNode) (n : TreeNode) : Z -> Prop :=
| ancestor_parent :
    0 <= ParentDir n -> ancestor ns n (ParentDir n)
| ancestor_above (p : TreeNode) (a : Z) :
    0 <= ParentDir n ->
    ns !! Z.to_nat (ParentDir n) = Some p ->
    ancestor ns p a ->
    ancestor ns n a.

(** No ancestor of [n] is collapsed. *)
Definition expandedAbove (ns : list TreeNode) (n : TreeNode) : Prop :=
  forall a p, ancestor ns n a -> ns !! Z.to_nat a = Some p ->
    Collapsed p = false.

(** The directory path of a directory node: the segments along its
    parent chain, joined by slashes. *)
Fixpoint dirPathOf (fuel : nat) (ns : list TreeNode) (n : TreeNode)
  : string :=
  match Kind n with
  | NodeDir =>
      match fuel, ns !! Z.to_nat (ParentDir n) with
      | S fuel', Some p =>
          match Kind p with
          | NodeDir => dirPathOf fuel' ns p +:+ "/" +:+ DirPath n
          | _ => DirPath n
          end
      | _, _ => DirPath n
      end
  | _ => ""
  end.

(** The semantic identity of a repository or directory node: the display
    path of its repository and its directory path.  A file node has
    none. *)
Definition identity (rs : list Repo) (ns : list TreeNode) (n : TreeNode)
  : option (string * string) :=
  match Kind n, rs !! RepoRef n with
  | NodeFile, _ => None
  | _, None => None
  | _, Some r => Some (RelPath r, dirPathOf (length ns) ns n)
  end.

(** Collapse state carried from the node set [prev] into [next]: a node
    of [next] has the flag of the nodes of [prev] with its identity, and
    is expanded when there is none. *)
Definition carriesCollapse (prevRepos : list Repo) (prev : TreeModel)
  (nextRepos : list Repo) (next : TreeModel) : Prop :=
  forall n id,
    n ∈ nodes next -> identity nextRepos (nodes next) n = Some id ->
    (forall n', n' ∈ nodes prev ->
                identity prevRepos (nodes prev) n' = Some id ->
                Collapsed n = Collapsed n')
    /\ ((forall n', n' ∈ nodes prev ->
                    identity prevRepos (nodes prev) n' <> Some id) ->
        Collapsed n = false).

(** The cursor of [prev] clamped into the visibility list of [next]. *)
Definition cursorClamped (prev next : TreeModel) : Prop :=
  len (visible next) <= cursor prev ->
  0 < len (visible next) ->
  cursor next = len (visible next) - 1.

(** The repository of the scenario of the design document. *)
Definition projRepo : Repo :=
  mkRepo "/w/proj" "proj" "main"
    [mkFileStatus "README.md" StatusModified false;
     mkFileStatus "src/main.go" StatusAdded false].

Definition srcOnly : Repo :=
  mkRepo "/w/proj" "proj" "main"
    [mkFileStatus "src/main.go" StatusAdded false].

(** The tree of [projRepo] with the directory [src] collapsed and
    selected. *)
Definition collapsedSrc : TreeModel :=
  mkTreeModel
    [repoNode 0;
     mkTreeNode NodeDir 0 None "src" 0 1 true 0;
     fileNode 0 2 1 1;
     fileNode 0 1 0 0]
    [0; 1; 3] 1.

(** The same tree, expanded, with the cursor on the last row (a file). *)
Definition onLastFile : TreeModel :=
  mkTreeModel
    [repoNode 0; dirNode 0 "src" 1 0; fileNode 0 2 1 1; fileNode 0 1 0 0]
    [0; 1; 2; 3] 3.

Definition emptyTree : TreeModel := mkTreeModel [] [] 0.

(** The trees that [NewTreeModel] builds from [projRepo] and from
    [srcOnly]. *)
Definition projTree : TreeModel :=
  mkTreeModel
    [repoNode 0; dirNode 0 "src" 1 0; fileNode 0 2 1 1; fileNode 0 1 0 0]
    [0; 1; 2; 3] 0.

Definition srcTree : TreeModel :=
  mkTreeModel [repoNode 0; dirNode 0 "src" 1 0; fileNode 0 2 1 0]
              [0; 1; 2] 0.

(** * More of the program and of its vocabulary *)

(** A status line on which [parseOrdinaryEntry] reads past the end of the
    marker field: an ordinary or rename entry with at least nine fields
    whose second field is a single byte. *)
Definition shortMarker (line : string) : Prop :=
  strings.HasPrefix (strings.TrimSpace line) "1 "
    || strings.HasPrefix (strings.TrimSpace line) "2 " = true
  /\ 9 <= len (strings.Fields (strings.TrimSpace line))
  /\ exists c,
       strings.Fields (strings.TrimSpace line) !! 1%nat
       = Some (String c EmptyString).

(** What every record of the parser satisfies: it names a path, and an
    untracked file is never staged. *)
Definition recordOk (f : FileStatus) : Prop :=
  Path f <> "" /\ (Status f = StatusUntracked -> IsStaged f = false).

(** What is left of a byte sequence once [dropSpace] has run over it:
    nothing, or bytes that do not start with a white-space rune. *)
Definition dropSpace_result_ok (forward : bool) (rest : list ascii) : Prop :=
  rest = []
  \/ (if forward then strings.spaceWidth else strings.spaceWidthRev)
       (map N_of_ascii rest) = 0%nat.

(** A string that ends in an ASCII byte other than white space. *)
Definition endsPlain (p : string) : Prop :=
  exists t c,
    list_ascii_of_string p = t ++ [c]
    /\ (N_of_ascii c < 128)%N
    /\ strings.asciiSpace (N_of_ascii c) = false.

(** [strings.TrimPrefix]. *)
Definition TrimPrefix (s prefix : string) : string :=
  if strings.HasPrefix s prefix
  then String.substring (String.length prefix)
         (String.length s - String.length prefix) s
  else s.

(** [FindBranch], as a function of what it reads: the output of
    [git rev-parse --abbrev-ref HEAD] and the content of [.git/HEAD]
    ([None] when the file cannot be read). *)
Definition FindBranchOf (revParse : cmdOutput) (headFile : option string)
  : string :=
  match revParse with
  | cmdOk out => strings.TrimSpace out
  | cmdErr _ =>
      match headFile with
      | None => "unknown"
      | Some data =>
          let ref := strings.TrimSpace data in
          if strings.HasPrefix ref "ref: refs/heads/"
          then TrimPrefix ref "ref: refs/heads/"
          else ref
      end
  end.

(** A string that starts with an ASCII byte other than white space. *)
Definition startsPlain (p : string) : Prop :=
  exists c t,
    p = String c t
    /\ (N_of_ascii c < 128)%N
    /\ strings.asciiSpace (N_of_ascii c) = false.

(** ASCII white space only. *)
Definition blank (ws : string) : Prop :=
  Forall (fun c => strings.asciiSpace (N_of_ascii c) = true)
         (list_ascii_of_string ws).

(** The trees that the program reaches: [NewTreeModel] builds one, and
    the keys move its cursor or toggle a node. *)
Inductive reachable (o : MapOrder) : TreeModel -> Prop :=
| reach_new (rs : list Repo) (tm : TreeModel) :
    NewTreeModel o rs = Returns tm -> reachable o tm
| reach_up (tm : TreeModel) :
    reachable o tm -> reachable o (MoveUp tm)
| reach_down (tm : TreeModel) :
    reachable o tm -> reachable o (MoveDown tm)
| reach_toggle (tm tm' : TreeModel) :
    reachable o tm -> ToggleCollapse tm = Returns tm' -> reachable o tm'.

(** The visibility list lists, in ascending order, the nodes without a
    collapsed ancestor. *)
Definition visibleOk (ns : list TreeNode) (vis : list Z) : Prop :=
  (forall k n, ns !! k = Some n -> Z.of_nat k ∈ vis <-> expandedAbove ns n)
  /\ (forall z, z ∈ vis -> 0 <= z < len ns)
  /\ StronglySorted Z.lt vis.

(** The cursor is a row of the visibility list, or 0 when the list is
    empty. *)
Definition cursorOk (vis : list Z) (cur : Z) : Prop :=
  0 <= cur /\ (cur < len vis \/ (vis = [] /\ cur = 0)).

Definition consistent (tm : TreeModel) : Prop :=
  wf_nodes (nodes tm)
  /\ visibleOk (nodes tm) (visible tm)
  /\ cursorOk (visible tm) (cursor tm).

(** ** The directories handed to the file watcher *)

(** The inner loop of [addWatchPaths]; [watched] is the list of the paths
    given to [watcher.Add] so far, whose errors the code drops. *)
Fixpoint watchDeep (sub : string) (subEntries : list DirEntry)
  (watched : list string) : outcome (list string) :=
  match subEntries with
  | [] => Returns watched
  | subEntry :: rest =>
      do skip <- skipped subEntry;
      if skip then watchDeep sub rest watched
      else
        watchDeep sub rest (watched ++ [filepath.Join [sub; Name subEntry]])
  end.

Fixpoint watchEntries (w : World) (root : string) (entries : list DirEntry)
  (watched : list string) : outcome (list string) :=
  match entries with
  | [] => Returns watched
  | entry :: rest =>
      do skip <- skipped entry;
      if skip then watchEntries w root rest watched
      else
        let sub := filepath.Join [root; Name entry] in
        let watched1 := watched ++ [sub] in
        do watched2 <-
          match ReadDir w sub with
          | None => Returns watched1
          | Some subEntries => watchDeep sub subEntries watched1
          end;
        watchEntries w root rest watched2
  end.

Definition addWatchPaths (w : World) (root : string)
  : outcome (list string) :=
  match ReadDir w root with
  | None => Returns [root]
  | Some entries => watchEntries w root entries [root]
  end.

(** A directory entry that the scans descend into: a directory whose
    name does not start with a dot. *)
Definition shown (e : DirEntry) : Prop :=
  IsDir e = true
  /\ exists c rest, Name e = String c rest /\ c <> "."%char.

(** The directories within reach of a scan of [root]: [root], its shown
    subdirectories, and the shown subdirectories of those. *)
Definition inScope (w : World) (root q : string) : Prop :=
  q = root
  \/ exists entries e,
       ReadDir w root = Some entries /\ e ∈ entries /\ shown e
       /\ (q = filepath.Join [root; Name e]
           \/ exists subEntries e',
                ReadDir w (filepath.Join [root; Name e]) = Some subEntries
                /\ e' ∈ subEntries /\ shown e'
                /\ q = filepath.Join [filepath.Join [root; Name e]; Name e']).

(** ** tree.go: fitting names into a row of the tree *)

Definition slen (s : string) : Z := Z.of_nat (String.length s).

(** [s[lo:hi]]; panics unless [0 <= lo <= hi <= len(s)]. *)
Definition slice (s : string) (lo hi : Z) : outcome string :=
  if (0 <=? lo) && (lo <=? hi) && (hi <=? slen s)
  then Returns (String.substring (Z.to_nat lo) (Z.to_nat (hi - lo)) s)
  else Panics.

(** The literal that tree.go puts where it cuts a string, with the bytes
    that it has in the source file: E2 80 9A, C3 84, C2 B6.  They are
    seven bytes and three runes of UTF-8; the comments of the code count
    the literal as one column. *)
Definition ellipsis : string :=
  String (ascii_of_nat 226)
    (String (ascii_of_nat 128)
       (String (ascii_of_nat 154)
          (String (ascii_of_nat 195)
             (String (ascii_of_nat 132)
                (String (ascii_of_nat 194)
                   (String (ascii_of_nat 182) EmptyString)))))).

Definition truncateStr (s : string) (maxWidth : Z) : outcome string :=
  if maxWidth <=? 0 then Returns ""
  else if slen s <=? maxWidth then Returns s
  else if maxWidth <=? 1 then Returns ellipsis
  else
    do head <- slice s 0 (maxWidth - 1);
    Returns (head +:+ ellipsis).

Definition truncateBranch (branch : string) (maxWidth : Z)
  : outcome string :=
  if slen branch <=? maxWidth then Returns branch
  else if maxWidth <=? 2 then Returns ""
  else if maxWidth =? 3 then Returns ("[" +:+ ellipsis +:+ "]")
  else
    let innerMax := maxWidth - 3 in
    do inner <- slice branch 1 (1 + innerMax);
    Returns ("[" +:+ inner +:+ ellipsis +:+ "]").

(** The loop of [truncatePath] that adds segments from the right;
    [before] holds [parts[i]], [parts[i-1]], ..., [parts[0]]. *)
Fixpoint extendLeft (maxWidth : Z) (before : list string) (result : string)
  : string :=
  match before with
  | [] => result
  | part :: rest =>
      let candidate := part +:+ "/" +:+ result in
      if maxWidth <? slen candidate + 1 then result
      else extendLeft maxWidth rest candidate
  end.

Definition truncatePath (path : string) (maxWidth : Z) : outcome string :=
  if slen path <=? maxWidth then Returns path
  else if maxWidth <=? 3 then Returns "..."
  else
    let parts := strings.Split path filepath.slash in
    do result <- index parts (len parts - 1);
    if maxWidth <? slen result + 2 then
      do tail <- slice result (slen result - (maxWidth - 1)) (slen result);
      Returns (ellipsis +:+ tail)
    else
      let result :=
        extendLeft maxWidth
          (rev (take (Z.to_nat (len parts - 1)) parts)) result in
      if String.eqb result path then Returns path
      else Returns (ellipsis +:+ "/" +:+ result).

Definition fitNameAndBranch (name branch : string) (avail : Z)
  : outcome (string * string) :=
  let nameLen := slen name in
  let branchLen := slen branch in
  if nameLen + branchLen <=? avail then Returns (name, branch)
  else
    let minName := 3 in
    let minBranch := 4 in
    if avail <? minName + minBranch then
      do n <- truncatePath name (Z.max 1 avail);
      Returns (n, "")
    else
      let nameSpace := Z.quot (avail * 3) 5 in
      let branchSpace := avail - nameSpace in
      let '(nameSpace, branchSpace) :=
        if nameSpace <? minName then (minName, avail - minName)
        else (nameSpace, branchSpace) in
      let '(nameSpace, branchSpace) :=
        if branchSpace <? minBranch then (avail - minBranch, minBranch)
        else (nameSpace, branchSpace) in
      let '(nameSpace, branchSpace) :=
        if (nameLen <=? nameSpace) && (branchSpace <? branchLen)
        then (nameLen, avail - nameLen)
        else if (branchLen <=? branchSpace) && (nameSpace <? nameLen)
        then (avail - branchLen, branchLen)
        else (nameSpace, branchSpace) in
      do n <- truncatePath name nameSpace;
      do b <- truncateBranch branch branchSpace;
      Returns (n, b).

(** A continuation byte of UTF-8. *)
Definition continuation (c : ascii) : bool :=
  (128 <=? N_of_ascii c)%N && (N_of_ascii c <? 192)%N.

(** The number of runes of a UTF-8 string: its bytes that are not
    continuation bytes.  This is the number of columns of a string of
    printable ASCII and ellipsis literals. *)
Fixpoint runes (s : string) : Z :=
  match s with
  | EmptyString => 0
  | String c rest => (if continuation c then 0 else 1) + runes rest
  end.

Fixpoint isASCII (s : string) : bool :=
  match s with
  | EmptyString => true
  | String c rest => (N_of_ascii c <? 128)%N && isASCII rest
  end.

(** ** The paths that the file watcher ignores *)

(** [path] without its trailing slashes. *)
Fixpoint stripSlashes (path : string) : string :=
  match path with
  | EmptyString => EmptyString
  | String c rest =>
      let r := stripSlashes rest in
      if String.eqb r "" && Ascii.eqb c filepath.slash then EmptyString
      else String c r
  end.

(** [filepath.Base]: the last element of the path, after its trailing
    slashes are removed; [.] for the empty path and a slash for a path
    of slashes only. *)
Definition Base (path : string) : string :=
  if String.eqb path "" then "."
  else
    match last (strings.Split (stripSlashes path) filepath.slash) with
    | Some b => if String.eqb b "" then "/" else b
    | None => "/"
    end.

(** The loop of [isGitInternalPath] that walks up the parents of [p].
    [filepath.Dir] removes an element at each turn, so the length of the
    path bounds the number of turns; [fuel] counts them. *)
Fixpoint walkUp (fuel : nat) (p : string) : outcome bool :=
  if String.eqb p "/" || String.eqb p "." then Returns false
  else if String.eqb (Base p) ".git" then Returns true
  else
    match fuel with
    | O => OutOfFuel
    | S fuel' => walkUp fuel' (filepath.Dir p)
    end.

Definition isGitInternalPath (path : string) : outcome bool :=
  let base := Base path in
  let dir := filepath.Dir path in
  if String.eqb (Base dir) ".git" && String.eqb base "HEAD"
  then Returns false
  else walkUp (S (String.length path)) path.

(** The name of a file or directory: not empty, without a slash, and
    neither [.] nor [..]. *)
Definition entryName (e : string) : Prop :=
  element e /\ e <> "" /\ e <> "." /\ e <> "..".

(** The absolute path with the elements [es]. *)
Definition absPath (es : list string) : string :=
  "/" +:+ strings.Join es "/".

(** ** The configuration and its defaults *)

Record Theme : Type := mkTheme {
  Theme_CursorBg : string;
  Theme_BorderFocused : string;
  Theme_BorderNormal : string;
  Theme_Title : string;
  Theme_StatusBar : string;
  Theme_NoRepos : string;
  Theme_RepoName : string;
  Theme_BranchName : string;
  Theme_FileCount : string;
  Theme_FolderIcon : string;
  Theme_DirName : string;
  Theme_StatusStaged : string;
  Theme_StatusAdded : string;
  Theme_StatusDeleted : string;
  Theme_StatusModified : string;
  Theme_StatusUntracked : string;
  Theme_DefaultIcon : string
}.

Definition DefaultTheme : Theme :=
  mkTheme "237" "12" "8" "14" "8" "8" "12" "13" "7" "7" "7" "10" "10" "9"
          "11" "8" "7".

Record Config : Type := mkConfig {
  DiffPosition : string;
  ScanDepth : Z;
  Config_Theme : Theme
}.

Definition DefaultConfig : Config := mkConfig "right" 1 DefaultTheme.

(** [if t.X == "" { t.X = d.X }], for one field. *)
Definition orDefault (v d : string) : string :=
  if String.eqb v "" then d else v.

Definition applyThemeDefaults (t : Theme) : Theme :=
  let d := DefaultTheme in
  mkTheme
    (orDefault (Theme_CursorBg t) (Theme_CursorBg d))
    (orDefault (Theme_BorderFocused t) (Theme_BorderFocused d))
    (orDefault (Theme_BorderNormal t) (Theme_BorderNormal d))
    (orDefault (Theme_Title t) (Theme_Title d))
    (orDefault (Theme_StatusBar t) (Theme_StatusBar d))
    (orDefault (Theme_NoRepos t) (Theme_NoRepos d))
    (orDefault (Theme_RepoName t) (Theme_RepoName d))
    (orDefault (Theme_BranchName t) (Theme_BranchName d))
    (orDefault (Theme_FileCount t) (Theme_FileCount d))
    (orDefault (Theme_FolderIcon t) (Theme_FolderIcon d))
    (orDefault (Theme_DirName t) (Theme_DirName d))
    (orDefault (Theme_StatusStaged t) (Theme_StatusStaged d))
    (orDefault (Theme_StatusAdded t) (Theme_StatusAdded d))
    (orDefault (Theme_StatusDeleted t) (Theme_StatusDeleted d))
    (orDefault (Theme_StatusModified t) (Theme_StatusModified d))
    (orDefault (Theme_StatusUntracked t) (Theme_StatusUntracked d))
    (orDefault (Theme_DefaultIcon t) (Theme_DefaultIcon d)).

(** What [LoadConfig] does to the file system; the code drops the errors
    of both calls. *)
Inductive FsAction : Type :=
| MkdirAll (path : string)
| WriteFile (path data : string).

(** What [LoadConfig] reads from outside: the home directory and the
    files ([None] is an error), and the YAML library.  [Unmarshal data
    cfg] is [cfg] after [yaml.Unmarshal(data, &cfg)], whatever the
    library leaves there, with or without an error. *)
Record ConfigEnv : Type := mkConfigEnv {
  UserHomeDir : option string;
  ReadFile : string -> option string;
  Unmarshal : string -> Config -> Config;
  Marshal : Config -> string
}.

Definition LoadConfig (env : ConfigEnv) : Config * list FsAction :=
  let cfg := DefaultConfig in
  match UserHomeDir env with
  | None => (cfg, [])
  | Some home =>
      let configDir := filepath.Join [home; ".config"; "sidegit"] in
      let configFile := filepath.Join [configDir; "config.yaml"] in
      match ReadFile env configFile with
      | None =>
          (cfg, [MkdirAll configDir; WriteFile configFile (Marshal env cfg)])
      | Some data =>
          let cfg := Unmarshal env data cfg in
          let cfg :=
            mkConfig (DiffPosition cfg) (ScanDepth cfg)
                     (applyThemeDefaults (Config_Theme cfg)) in
          let cfg :=
            if negb (String.eqb (DiffPosition cfg) "right")
               && negb (String.eqb (DiffPosition cfg) "bottom")
            then mkConfig "right" (ScanDepth cfg) (Config_Theme cfg)
            else cfg in
          let cfg :=
            if ScanDepth cfg <? 1
            then mkConfig (DiffPosition cfg) 1 (Config_Theme cfg)
            else cfg in
          (cfg, [])
      end
  end.

(** A theme that names every colour. *)
Definition themeSet (t : Theme) : Prop :=
  Theme_CursorBg t <> "" /\ Theme_BorderFocused t <> ""
  /\ Theme_BorderNormal t <> "" /\ Theme_Title t <> ""
  /\ Theme_StatusBar t <> "" /\ Theme_NoRepos t <> ""
  /\ Theme_RepoName t <> "" /\ Theme_BranchName t <> ""
  /\ Theme_FileCount t <> "" /\ Theme_FolderIcon t <> ""
  /\ Theme_DirName t <> "" /\ Theme_StatusStaged t <> ""
  /\ Theme_StatusAdded t <> "" /\ Theme_StatusDeleted t <> ""
  /\ Theme_StatusModified t <> "" /\ Theme_StatusUntracked t <> ""
  /\ Theme_DefaultIcon t <> "".

(** A configuration that the rest of the program can use: a known panel
    position, a positive scan depth and a theme that names every
    colour. *)
Definition validConfig (c : Config) : Prop :=
  (DiffPosition c = "right" \/ DiffPosition c = "bottom")
  /\ 1 <= ScanDepth c
  /\ themeSet (Config_Theme c).

(** A configuration file that sets the panel position and one colour. *)
Definition bottomEnv : ConfigEnv :=
  mkConfigEnv (Some "/home/u")
    (fun p => if String.eqb p "/home/u/.config/sidegit/config.yaml"
              then Some "diff_position: bottom" else None)
    (fun _ cfg => mkConfig "bottom" (ScanDepth cfg) (Config_Theme cfg))
    (fun _ => "").

(** ** What the tree shows *)

(** The files that the file nodes of a node array show, in the order of
    the array: the number of the repository and the pointer into its
    [Files]. *)
Definition shownFiles (ns : list TreeNode) : list (nat * nat) :=
  omap (fun n =>
          match Kind n, File n with
          | NodeFile, Some f => Some (RepoRef n, f)
          | _, _ => None
          end) ns.

(** The changed files of the repositories, in the same terms. *)
Definition changedFiles (rs : list Repo) : list (nat * nat) :=
  concat (imap (fun i r => pair i <$> seq 0 (length (Files r))) rs).

(** Every changed file of the repository has a relative path, as in the
    output of [git status]. *)
Definition relativePaths (r : Repo) : Prop :=
  Forall (fun f => filepath.rooted (Path f) = false) (Files r).

(** A directory below the root of a repository, by a relative path. *)
Definition relDir (d : string) : Prop :=
  d <> "" /\ filepath.rooted d = false.

(** The pointers that [dirFiles] holds for the directories [dirs]. *)
Definition filesIn (dirFiles : gmap string (list nat)) (dirs : list string)
  : list nat :=
  dirs ≫= (fun d => default [] (dirFiles !! d)).

(** What a call of [addDir] for [dir] leaves behind: nodes [ext] behind
    those of [st], and the directories [newKeys] entered into
    [dirNodeIdx], [dir] among them unless it was there; the file nodes
    of [ext] are the files of the directories entered. *)
Definition entered (i : nat) (repoIdx : Z)
  (dirFiles : gmap string (list nat)) (dir : string) (st st' : builder)
  : Prop :=
  exists ext newKeys,
    b_nodes st' = b_nodes st ++ ext
    /\ binv repoIdx st'
    /\ (map_to_list (dirNodeIdx st')).*1
       ≡ₚ newKeys ++ (map_to_list (dirNodeIdx st)).*1
    /\ shownFiles ext = pair i <$> filesIn dirFiles newKeys
    /\ Forall relDir newKeys
    /\ Forall (fun d => (length (strings.Split d filepath.slash)
                         <= length (strings.Split dir filepath.slash))%nat)
              newKeys
    /\ dir ∈ (map_to_list (dirNodeIdx st')).*1.

(** ** tree.go: the rows on the screen *)

(** [strings.Repeat], which panics on a negative count. *)
Definition Repeat (s : string) (count : Z) : outcome string :=
  if count <? 0 then Panics
  else Returns (String.concat "" (repeat s (Z.to_nat count))).

(** What [Render] leaves to the styling library: the text of a node
    ([renderNode], for the theme of the tree), its padding to the width
    of the panel ([padRight]) and the centred notice shown for an empty
    tree. *)
Record Painter : Type := mkPainter {
  renderNode : TreeNode -> bool -> Z -> string;
  padRight : string -> Z -> bool -> string;
  notice : Z -> Z -> string
}.

(** The loop of [Render] over the visible rows from [i] on; [fuel]
    bounds its turns by the number of rows. *)
Fixpoint renderRows (p : Painter) (fuel : nat) (tm : TreeModel)
  (width height i : Z) (lines : list string) : outcome (list string) :=
  if (i <? len (visible tm)) && (len lines <? height) then
    match fuel with
    | O => OutOfFuel
    | S fuel' =>
        do v <- index (visible tm) i;
        do node <- index (nodes tm) v;
        let selected := i =? cursor tm in
        let line := renderNode p node selected width in
        let line := padRight p line width selected in
        renderRows p fuel' tm width height (i + 1) (lines ++ [line])
    end
  else Returns lines.

(** The loop of [Render] that fills the panel with blank rows; [fuel]
    bounds its turns by the height. *)
Fixpoint padRows (fuel : nat) (width height : Z) (lines : list string)
  : outcome (list string) :=
  if len lines <? height then
    match fuel with
    | O => OutOfFuel
    | S fuel' =>
        do spaces <- Repeat " " width;
        padRows fuel' width height (lines ++ [spaces])
    end
  else Returns lines.

(** The first row that [Render] draws. *)
Definition startIdx (tm : TreeModel) (height : Z) : Z :=
  if height <=? cursor tm then cursor tm - height + 1 else 0.

(** The rows of [Render] for a tree that is not empty, before they are
    joined. *)
Definition renderLines (p : Painter) (tm : TreeModel) (width height : Z)
  : outcome (list string) :=
  do lines <-
    renderRows p (length (visible tm)) tm width height
               (startIdx tm height) [];
  padRows (Z.to_nat height) width height lines.

Definition Render (p : Painter) (tm : TreeModel) (width height : Z)
  : outcome string :=
  if len (visible tm) =? 0 then Returns (notice p width height)
  else
    do lines <- renderLines p tm width height;
    Returns (strings.Join lines (String newline EmptyString)).

(** A painter without colours: the segment of a directory, a mark on
    the selected row, no padding. *)
Definition plainPainter : Painter :=
  mkPainter (fun n selected _ =>
               (if selected then ">" else " ") +:+ DirPath n)
            (fun s _ _ => s)
            (fun _ _ => "No git repositories found.").

(** ** Where the tree puts a file *)

(** The segments of a directory below the root of a repository; the
    root itself has none. *)
Definition segments (d : string) : list string :=
  if String.eqb d "" then [] else strings.Split d filepath.slash.

(** [under ns repoIdx segsRev v]: the node of index [v] stands for the
    directory with the segments [segsRev], innermost first, of the
    repository whose node has the index [repoIdx].  It is that node for
    no segments; otherwise it is a directory node that carries the
    innermost segment, at the depth of the directory, and whose parent
    stands for the directory above. *)
Fixpoint under (ns : list TreeNode) (repoIdx : Z) (segsRev : list string)
  (v : Z) : Prop :=
  match segsRev with
  | [] => v = repoIdx
  | seg :: above =>
      exists n,
        0 <= v /\ ns !! Z.to_nat v = Some n
        /\ Kind n = NodeDir /\ DirPath n = seg
        /\ Depth n = len segsRev
        /\ under ns repoIdx above (ParentDir n)
  end.

(** The file node [n] for the file [f] of the repository [r] hangs under
    the directory of that file, one level deeper. *)
Definition placedFile (ns : list TreeNode) (repoIdx : Z) (r : Repo)
  (n : TreeNode) (f : nat) : Prop :=
  exists file,
    Files r !! f = Some file
    /\ under ns repoIdx (rev (segments (fileDir file))) (ParentDir n)
    /\ Depth n = len (segments (fileDir file)) + 1.

(** What the loop over the directories of one repository keeps: each
    entry of [dirNodeIdx] points to the node of its directory, and each
    file node behind the repository node hangs under the directory that
    [dirFiles] has it in. *)
Definition placed (i : nat) (repoIdx : Z)
  (dirFiles : gmap string (list nat)) (ns : list TreeNode)
  (idx : gmap string Z) : Prop :=
  (forall d v,
     idx !! d = Some v ->
     under ns repoIdx (rev (strings.Split d filepath.slash)) v)
  /\ (forall k n,
        ns !! k = Some n -> repoIdx < Z.of_nat k -> Kind n = NodeFile ->
        RepoRef n = i
        /\ exists f d,
             File n = Some f
             /\ f ∈ default [] (dirFiles !! d)
             /\ under ns repoIdx (rev (segments d)) (ParentDir n)
             /\ Depth n = len (segments d) + 1).

(** ** model.go: the keys *)





















(** Every node names one of the repositories, and every file node one
    of the files of its repository: the pointers [Repo] and [File] that
    the keys follow are not nil. *)
Definition refsOk (rs : list Repo) (ns : list TreeNode) : Prop :=
  Forall (fun n =>
            exists r,
              rs !! RepoRef n = Some r
              /\ (Kind n = NodeFile ->
                  exists f file,
                    File n = Some f /\ Files r !! f = Some file))
         ns.




(** * Properties *)

(** Goals about the lengths of appended slices. *)
Ltac lens :=
  unfold len in *; rewrite ?length_app in *; cbn [length] in *; lia.

(** ** Generic facts *)

Lemma index_lookup {A} (l : list A) (i : nat) (a : A) :
  l !! i = Some a -> index l (Z.of_nat i) = Returns a.
Proof.
  intros H. unfold index.
  destruct (Z.ltb_spec (Z.of_nat i) 0) as [Hneg|_]; [lia|].
  by rewrite Nat2Z.id, H.
Qed.

Lemma index_Returns {A} (l : list A) (i : Z) (a : A) :
  index l i = Returns a <-> 0 <= i /\ l !! Z.to_nat i = Some a.
Proof.
  unfold index. destruct (Z.ltb_spec i 0) as [Hneg|Hpos].
  - split; [discriminate | lia].
  - destruct (l !! Z.to_nat i) as [b|]; split.
    + intros [= ->]. auto.
    + intros [_ [= ->]]. reflexivity.
    + discriminate.
    + intros [_ [=]].
Qed.

Lemma index_last {A} (l : list A) (a : A) :
  last l = Some a -> index l (len l - 1) = Returns a.
Proof.
  intros H. apply index_Returns. unfold len.
  rewrite last_lookup in H.
  destruct l as [|b l]; [discriminate|].
  cbn [length] in *. split; [lia|].
  replace (Z.to_nat (Z.of_nat (S (length l)) - 1)) with (Nat.pred (S (length l))) by lia.
  exact H.
Qed.

(** ** The status parser *)

Module ParserFacts.

Lemma list_ascii_app (a b : string) :
  list_ascii_of_string (a +:+ b)
  = list_ascii_of_string a ++ list_ascii_of_string b.
Proof.
  induction a as [|c a IH]; [reflexivity|].
  change (String c a +:+ b) with (String c (a +:+ b)).
  cbn [list_ascii_of_string]. by rewrite IH.
Qed.

Lemma spaceWidth_0 (c : ascii) (bs : list ascii) :
  strings.spaceWidth (map N_of_ascii (c :: bs)) = 0%nat ->
  strings.asciiSpace (N_of_ascii c) = false.
Proof.
  cbn [map strings.spaceWidth].
  destruct (strings.asciiSpace (N_of_ascii c)); [discriminate | reflexivity].
Qed.

Lemma fieldsLoop_plain (bs : list ascii) :
  forall skip cur,
    (forall f, cur = Some f -> plain f) ->
    Forall plain (strings.fieldsLoop bs skip cur).
Proof.
  induction bs as [|c bs IH]; intros skip cur Hcur.
  - cbn. destruct cur as [f|]; [|constructor].
    constructor; [by apply Hcur | constructor].
  - cbn [strings.fieldsLoop]. destruct skip as [|k].
    + destruct (strings.spaceWidth (map N_of_ascii (c :: bs))) as [|k] eqn:Hw.
      * apply IH. intros f [= <-]. unfold plain.
        rewrite list_ascii_app. apply Forall_app. split.
        -- destruct cur as [g|]; cbn; [by apply Hcur | constructor].
        -- cbn. constructor; [by eapply spaceWidth_0 | constructor].
      * destruct cur as [f|].
        -- constructor; [by apply Hcur|]. apply IH. discriminate.
        -- apply IH. discriminate.
    + by apply IH.
Qed.

Lemma Fields_plain (s : string) : Forall plain (strings.Fields s).
Proof. apply fieldsLoop_plain. discriminate. Qed.

Lemma SplitN2_plain (f : string) : plain f -> strings.SplitN2 f tab = [f].
Proof.
  induction f as [|c f IH]; intros Hp; [reflexivity|].
  unfold plain in Hp. cbn in Hp. apply Forall_cons in Hp as [Hc Hf].
  cbn [strings.SplitN2].
  destruct (Ascii.eqb_spec c tab) as [->|_]; [discriminate Hc|].
  by rewrite (IH Hf).
Qed.

(** Whatever the kind of the entry, the path that [parseOrdinaryEntry]
    reports is the last white-space separated field of the line. *)
Lemma parseOrdinaryEntry_fields (line : string) (x y : ascii) (tl path : string) :
  9 <= len (strings.Fields line) ->
  strings.Fields line !! 1%nat = Some (String x (String y tl)) ->
  last (strings.Fields line) = Some path ->
  parseOrdinaryEntry line =
    Returns
      (if negb (Ascii.eqb y ".") then
         Some (mkFileStatus path (mapStatusByte y) false)
       else if negb (Ascii.eqb x ".") then
         Some (mkFileStatus path (mapStatusByte x) true)
       else None).
Proof.
  intros Hlen Hxy Hlast. unfold parseOrdinaryEntry.
  destruct (Z.ltb_spec (len (strings.Fields line)) 9) as [?|_]; [lia|].
  rewrite (index_lookup _ 1 _ Hxy : index _ 1 = _). cbn [bind].
  unfold strings.at_. cbn [list_ascii_of_string].
  change (index (x :: y :: list_ascii_of_string tl) 0) with (Returns x).
  change (index (x :: y :: list_ascii_of_string tl) 1) with (Returns y).
  cbn [bind].
  destruct (strings.Fields line) as [|kind rest] eqn:Hf; [discriminate|].
  change (index (kind :: rest) 0) with (Returns kind). cbn [bind].
  rewrite (index_last _ _ Hlast). cbn [bind].
  assert (Hp : plain path).
  { pose proof (Fields_plain line) as HF. rewrite Hf in HF.
    rewrite Forall_forall in HF. apply HF.
    apply last_Some in Hlast as [l' ->].
    apply elem_of_app. right. by apply list_elem_of_singleton. }
  rewrite (SplitN2_plain _ Hp).
  change (len [path] =? 2) with false. cbn match.
  destruct (String.eqb kind "2"); cbn [bind];
    destruct (Ascii.eqb y "."), (Ascii.eqb x "."); reflexivity.
Qed.

End ParserFacts.

Lemma short_line_dropped (line : string) :
  len (strings.Fields line) < 9 -> parseOrdinaryEntry line = Returns None.
Proof.
  intros H. unfold parseOrdinaryEntry.
  destruct (Z.ltb_spec (len (strings.Fields line)) 9); [reflexivity | lia].
Qed.



(** C2. On the rename entry [draft.txt -> final draft.txt] the parser
    reports the path [draft.txt]: the last white-space separated field,
    which here is the original path and not the new one. *)
Theorem rename_entry_path_is_last_field :
  GetStatus (cmdOk renameEntry)
  = Returns ([mkFileStatus "draft.txt" StatusRenamed true], None).
Proof. vm_compute. reflexivity. Qed.

(** C6. A line with nine fields whose marker field has a single byte makes
    the parse of the whole output panic: no file of the output is
    reported. *)
Theorem GetStatus_panics_on_short_marker :
  GetStatus (cmdOk malformedOutput) = Panics.
Proof. vm_compute. reflexivity. Qed.

(** ** The discoverer *)

Lemma bind_Returns {A B} (m : outcome A) (k : A -> outcome B) (b : B) :
  bind m k = Returns b <-> exists a, m = Returns a /\ k a = Returns b.
Proof.
  destruct m as [a| |]; cbn; split.
  - eauto.
  - intros (a' & [= <-] & H). exact H.
  - discriminate.
  - intros (a' & [=] & _).
  - discriminate.
  - intros (a' & [=] & _).
Qed.

Module sortFacts.
Section Map.
Context {A : Type} (less : A -> A -> bool) (g : A -> A).
Hypothesis less_g : forall a b, less (g a) (g b) = less a b.

Lemma sink_map (x : A) (rprefix : list A) :
  sort.sink less (g x) (map g rprefix) = map g (sort.sink less x rprefix).
Proof.
  induction rprefix as [|y rest IH]; [reflexivity|].
  cbn. rewrite less_g. destruct (less x y); cbn; [by rewrite IH | reflexivity].
Qed.

Lemma Slice_map (data : list A) :
  sort.Slice less (map g data) = map g (sort.Slice less data).
Proof.
  unfold sort.Slice. rewrite map_rev. f_equal.
  change (@nil A) with (map g []) at 1.
  generalize (@nil A) as acc.
  induction data as [|x data IH]; intros acc; [reflexivity|].
  cbn. rewrite sink_map. apply IH.
Qed.
End Map.
End sortFacts.

Module ScanFacts.
Section Failing.
Variables (w : World) (p : string) (out : cmdOutput) (msg : string).
Hypothesis status_fails : gitStatus w p = cmdErr msg.

Lemma buildRepo_clear (root q : string) (r' : Repo) :
  buildRepo (withStatus w p out) root q = Returns r' ->
  buildRepo w root q = Returns (clearFiles p r').
Proof.
  unfold buildRepo. cbn [withStatus gitStatus FindBranch].
  intros H. apply bind_Returns in H as (res & Hres & [= <-]).
  unfold clearFiles. cbn [Repo_Path RelPath Branch].
  destruct (String.eqb_spec q p) as [->|Hne].
  - rewrite status_fails. reflexivity.
  - rewrite Hres. reflexivity.
Qed.

Lemma found_clear (root q : string) (acc l' : list Repo) :
  (if isGitRepo (withStatus w p out) q
   then do r <- buildRepo (withStatus w p out) root q; Returns (acc ++ [r])
   else Returns acc) = Returns l' ->
  (if isGitRepo w q
   then do r <- buildRepo w root q; Returns (map (clearFiles p) acc ++ [r])
   else Returns (map (clearFiles p) acc)) = Returns (map (clearFiles p) l').
Proof.
  change (isGitRepo (withStatus w p out) q) with (isGitRepo w q).
  destruct (isGitRepo w q).
  - intros H. apply bind_Returns in H as (r' & Hr & [= <-]).
    rewrite (buildRepo_clear _ _ _ Hr). cbn [bind].
    by rewrite map_app.
  - by intros [= <-].
Qed.

Lemma scanDeep_clear (root sub : string) (subEntries : list DirEntry) :
  forall acc l',
    scanDeep (withStatus w p out) root sub subEntries acc = Returns l' ->
    scanDeep w root sub subEntries (map (clearFiles p) acc)
    = Returns (map (clearFiles p) l').
Proof.
  induction subEntries as [|e rest IH]; intros acc l' H.
  - cbn in *. by injection H as <-.
  - cbn [scanDeep] in *.
    destruct (skipped e) as [[|]| |]; cbn [bind] in *; try discriminate.
    + by apply IH.
    + apply bind_Returns in H as (acc' & Hfound & Hrest).
      rewrite (found_clear _ _ _ _ Hfound). cbn [bind]. by apply IH.
Qed.

Lemma scanEntries_clear (root : string) (entries : list DirEntry) :
  forall acc l',
    scanEntries (withStatus w p out) root entries acc = Returns l' ->
    scanEntries w root entries (map (clearFiles p) acc)
    = Returns (map (clearFiles p) l').
Proof.
  induction entries as [|e rest IH]; intros acc l' H.
  - cbn in *. by injection H as <-.
  - cbn [scanEntries] in *.
    destruct (skipped e) as [[|]| |]; cbn [bind] in *; try discriminate.
    + by apply IH.
    + apply bind_Returns in H as (acc1 & Hfound & H).
      apply bind_Returns in H as (acc2 & Hdeep & Hrest).
      rewrite (found_clear _ _ _ _ Hfound). cbn [bind].
      change (ReadDir (withStatus w p out)) with (ReadDir w) in Hdeep.
      destruct (ReadDir w (filepath.Join [root; Name e])) as [subEntries|].
      * rewrite (scanDeep_clear _ _ _ _ _ Hdeep). cbn [bind]. by apply IH.
      * injection Hdeep as <-. cbn [bind]. by apply IH.
Qed.

Lemma repoLess_clear (a b : Repo) :
  repoLess (clearFiles p a) (clearFiles p b) = repoLess a b.
Proof.
  unfold repoLess, clearFiles.
  destruct (String.eqb (Repo_Path a) p), (String.eqb (Repo_Path b) p);
    reflexivity.
Qed.
End Failing.
End ScanFacts.

(** C4. With the scan root [/w] a repository and a repository in its
    subdirectory [-x], the discovery pass returns [-x] first and the root
    second: the root is listed under its absolute path, which the
    comparison orders like any other display path. *)
Theorem ScanRepos_root_not_first :
  ScanRepos dashWorld "/w"
  = Returns [mkRepo "/w/-x" "-x" "main" []; mkRepo "/w" "/w" "main" []].
Proof. vm_compute. reflexivity. Qed.

(** ** The order of strings and [sort.Strings] *)

Module OrderFacts.

Lemma ltb_leb (a b : string) : String.ltb b a = negb (String.leb a b).
Proof.
  unfold String.ltb, String.leb. rewrite (String.compare_antisym a b).
  destruct (String.compare b a); reflexivity.
Qed.

Lemma le_leb (a b : string) : le a b <-> String.leb a b = true.
Proof.
  unfold le. rewrite ltb_leb. destruct (String.leb a b); cbn; intuition congruence.
Qed.

Lemma compare_OT (a : string) :
  forall b, String.compare a b = String_as_OT.compare a b.
Proof.
  induction a as [|c a IH]; intros [|d b]; reflexivity.
Qed.

Lemma compare_Lt_trans (a b c : string) :
  String.compare a b = Lt -> String.compare b c = Lt ->
  String.compare a c = Lt.
Proof.
  rewrite !compare_OT.
  apply (StrictOrder_Transitive (R := String_as_OT.lt)).
Qed.

Lemma not_lt_le (a b : string) : String.ltb a b = false -> le b a.
Proof. auto. Qed.

Lemma lt_le (a b : string) : String.ltb a b = true -> le a b.
Proof.
  intros H. apply le_leb. unfold String.ltb, String.leb in *.
  destruct (String.compare a b); congruence.
Qed.

#[local] Instance le_trans : Transitive le.
Proof.
  intros a b c Hab Hbc. apply le_leb in Hab, Hbc. apply le_leb.
  unfold String.leb in *.
  destruct (String.compare a b) eqn:Eab; try discriminate;
    destruct (String.compare b c) eqn:Ebc; try discriminate.
  - apply String.compare_eq_iff in Eab as ->. by rewrite Ebc.
  - apply String.compare_eq_iff in Eab as ->. by rewrite Ebc.
  - apply String.compare_eq_iff in Ebc as <-. by rewrite Eab.
  - by rewrite (compare_Lt_trans _ _ _ Eab Ebc).
Qed.

#[local] Instance le_antisym : AntiSymm eq le.
Proof.
  intros a b Hab Hba. apply le_leb in Hab, Hba.
  by apply String.leb_antisym.
Qed.

(** The prefix that the insertion sort keeps is in descending order when
    read from its last element. *)
Lemma sink_HdRel (y x : string) (rest : list string) :
  le x y -> HdRel (flip le) y rest ->
  HdRel (flip le) y (sort.sink String.ltb x rest).
Proof.
  intros Hxy Hrest. destruct rest as [|z rest]; cbn.
  - by constructor.
  - destruct (String.ltb x z); constructor; [|done].
    by inversion Hrest.
Qed.

Lemma sink_Sorted (x : string) (rprefix : list string) :
  Sorted (flip le) rprefix ->
  Sorted (flip le) (sort.sink String.ltb x rprefix).
Proof.
  induction rprefix as [|y rest IH]; intros Hs; cbn.
  - by repeat constructor.
  - inversion Hs as [|? ? Hrest Hhd]; subst.
    destruct (String.ltb x y) eqn:Hlt.
    + constructor; [by apply IH|]. apply sink_HdRel; [by apply lt_le | done].
    + constructor; [done|]. constructor. by apply not_lt_le.
Qed.

Lemma sink_Permutation {A} (less : A -> A -> bool) (x : A) (rprefix : list A) :
  Permutation (sort.sink less x rprefix) (x :: rprefix).
Proof.
  induction rprefix as [|y rest IH]; cbn; [done|].
  destruct (less x y); [|done]. rewrite IH. apply perm_swap.
Qed.

Lemma sorting_loop {A} (less : A -> A -> bool) (data : list A) :
  forall acc,
    Permutation (foldl (fun rprefix x => sort.sink less x rprefix) acc data)
                (data ++ acc).
Proof.
  induction data as [|x data IH]; intros acc; cbn; [done|].
  rewrite IH, sink_Permutation. by rewrite Permutation_middle.
Qed.

Lemma Slice_Permutation {A} (less : A -> A -> bool) (data : list A) :
  Permutation (sort.Slice less data) data.
Proof.
  unfold sort.Slice. rewrite <- Permutation_rev, sorting_loop.
  by rewrite app_nil_r.
Qed.

Lemma Strings_Sorted (data : list string) : Sorted le (sort.Strings data).
Proof.
  unfold sort.Strings, sort.Slice. rewrite rev_alt.
  change (rev_append ?l []) with (reverse l).
  apply (Sorted_reverse (flip le)).
  generalize (Sorted_nil (flip le)). generalize (@nil string) as acc.
  induction data as [|x data IH]; intros acc Hacc; cbn; [done|].
  apply IH. by apply sink_Sorted.
Qed.

(** [sort.Strings] does not depend on the order of its input. *)
Lemma Strings_Permutation (l1 l2 : list string) :
  Permutation l1 l2 -> sort.Strings l1 = sort.Strings l2.
Proof.
  intros H. apply (Sorted_unique le); try apply Strings_Sorted.
  unfold sort.Strings. by rewrite !Slice_Permutation.
Qed.

End OrderFacts.

(** ** [strings.Split] and [strings.Join] on paths *)

Module SplitFacts.

Lemma Split_nonempty (s : string) (sep : ascii) : strings.Split s sep <> [].
Proof.
  destruct s as [|c s]; cbn; [discriminate|].
  destruct (Ascii.eqb c sep); [discriminate|].
  destruct (strings.Split s sep); discriminate.
Qed.

Lemma Split_length (s : string) (sep : ascii) :
  (length (strings.Split s sep) <= S (String.length s))%nat.
Proof.
  induction s as [|c s IH]; cbn; [lia|].
  destruct (Ascii.eqb c sep); cbn; [lia|].
  destruct (strings.Split s sep); cbn in *; lia.
Qed.

Lemma Split_elements (s : string) :
  Forall element (strings.Split s filepath.slash).
Proof.
  induction s as [|c s IH]; cbn.
  - repeat constructor.
  - destruct (Ascii.eqb_spec c filepath.slash) as [->|Hne].
    + constructor; [constructor | exact IH].
    + destruct (strings.Split s filepath.slash) as [|h t].
      * repeat constructor. exact Hne.
      * apply Forall_cons in IH as [Hh Ht].
        constructor; [|exact Ht]. constructor; assumption.
Qed.

Lemma Split_element (x : string) :
  element x -> strings.Split x filepath.slash = [x].
Proof.
  induction x as [|c x IH]; intros Hx; [reflexivity|].
  apply Forall_cons in Hx as [Hc Hx]. cbn.
  destruct (Ascii.eqb_spec c filepath.slash) as [->|_]; [done|].
  by rewrite (IH Hx).
Qed.

Lemma Split_app (x rest : string) :
  element x ->
  strings.Split (x +:+ String filepath.slash rest) filepath.slash
  = x :: strings.Split rest filepath.slash.
Proof.
  induction x as [|c x IH]; intros Hx; [reflexivity|].
  apply Forall_cons in Hx as [Hc Hx].
  change (String c x +:+ String filepath.slash rest)
    with (String c (x +:+ String filepath.slash rest)).
  cbn [strings.Split].
  destruct (Ascii.eqb_spec c filepath.slash) as [->|_]; [done|].
  by rewrite (IH Hx).
Qed.

Lemma Join_cons (x y : string) (t : list string) :
  strings.Join (x :: y :: t) "/"
  = x +:+ String filepath.slash (strings.Join (y :: t) "/").
Proof. reflexivity. Qed.

Lemma Split_Join (ps : list string) :
  ps <> [] -> Forall element ps ->
  strings.Split (strings.Join ps "/") filepath.slash = ps.
Proof.
  induction ps as [|x ps IH]; intros Hne Hps; [done|].
  apply Forall_cons in Hps as [Hx Hps].
  destruct ps as [|y t].
  - by apply Split_element.
  - rewrite Join_cons, (Split_app _ _ Hx). f_equal. by apply IH.
Qed.

(** The parent directory that [addDir] computes has one element less. *)
Lemma parent_parts (dir : string) :
  let parts := strings.Split dir filepath.slash in
  1 < len parts ->
  length (strings.Split
            (strings.Join (take (Z.to_nat (len parts - 1)) parts) "/")
            filepath.slash)
  = Nat.pred (length parts).
Proof.
  intros parts Hlen. unfold len in *.
  rewrite Split_Join.
  - rewrite length_take. lia.
  - intros Hnil. apply (f_equal length) in Hnil.
    rewrite length_take in Hnil. cbn in Hnil. lia.
  - apply Forall_take, Split_elements.
Qed.

End SplitFacts.

(** ** Building the tree *)

Module BuildFacts.

Lemma lookup_map {A B} (f : A -> B) (l : list A) (k : nat) :
  map f l !! k = f <$> (l !! k).
Proof. apply list_lookup_fmap. Qed.

Lemma added_nil (base : nat) : added base [].
Proof. intros k n H. by rewrite lookup_nil in H. Qed.

Lemma added_app (base : nat) (e1 e2 : list TreeNode) :
  added base e1 -> added (base + length e1) e2 -> added base (e1 ++ e2).
Proof.
  intros H1 H2 k n Hk. apply lookup_app_Some in Hk as [Hk|[Hge Hk]].
  - by apply H1.
  - apply H2 in Hk. replace (base + k)%nat
      with (base + length e1 + (k - length e1))%nat by lia. exact Hk.
Qed.

Lemma added_dir (base i : nat) (segment : string) (depth parentIdx : Z)
  (files : list nat) :
  0 <= parentIdx < Z.of_nat base ->
  added base (dirNode i segment depth parentIdx
              :: map (fileNode i (depth + 1) (Z.of_nat base)) files).
Proof.
  intros Hp [|k] n Hk.
  - injection Hk as <-. cbn. repeat split; (lia || done).
  - change (map (fileNode i (depth + 1) (Z.of_nat base)) files !! k = Some n)
      in Hk.
    rewrite lookup_map in Hk.
    destruct (files !! k); [|done]. injection Hk as <-.
    cbn. repeat split; (lia || done).
Qed.

Lemma added_files (base i : nat) (depth parentIdx : Z) (files : list nat) :
  0 <= parentIdx < Z.of_nat base ->
  added base (map (fileNode i depth parentIdx) files).
Proof.
  intros Hp k n Hk. rewrite lookup_map in Hk.
  destruct (files !! k); [|done]. injection Hk as <-.
  cbn. repeat split; (lia || done).
Qed.

Lemma wf_nodes_added (ns ext : list TreeNode) :
  wf_nodes ns -> added (length ns) ext -> wf_nodes (ns ++ ext).
Proof.
  intros Hwf Hext k n Hk. apply lookup_app_Some in Hk as [Hk|[Hge Hk]].
  - by apply Hwf.
  - apply Hext in Hk as (Hp & Hkind & _). split; [lia | done].
Qed.

Lemma wf_nodes_repo (ns : list TreeNode) (i : nat) :
  wf_nodes ns -> wf_nodes (ns ++ [repoNode i]).
Proof.
  intros Hwf k n Hk. apply lookup_app_Some in Hk as [Hk|[Hge Hk]].
  - by apply Hwf.
  - apply list_lookup_singleton_Some in Hk as [_ <-]. cbn. lia.
Qed.

Lemma expanded_added (ns ext : list TreeNode) :
  Forall (fun n => Collapsed n = false) ns -> added (length ns) ext ->
  Forall (fun n => Collapsed n = false) (ns ++ ext).
Proof.
  intros Hns Hext. apply Forall_app. split; [done|].
  apply Forall_lookup. intros k n Hk. by apply Hext in Hk as (_ & _ & ?).
Qed.

Section AddDir.
Variables (i : nat) (repoIdx : Z) (dirFiles : gmap string (list nat)).

(** [addDir] returns whenever the fuel covers the elements of [dir]: it
    appends directory and file nodes that point backwards, and keeps
    [dirNodeIdx] within the node array. *)
Lemma addDir_spec (fuel : nat) :
  forall dir st,
    (length (strings.Split dir filepath.slash) <= S fuel)%nat ->
    binv repoIdx st ->
    exists ext idx,
      addDir fuel i repoIdx dirFiles dir st
      = Returns (mkBuilder (b_nodes st ++ ext) idx)
      /\ added (length (b_nodes st)) ext
      /\ binv repoIdx (mkBuilder (b_nodes st ++ ext) idx).
Proof.
  induction fuel as [|fuel IH]; intros dir st Hlen Hinv.
  all: cbn [addDir].
  all: destruct (dirNodeIdx st !! dir) eqn:Hdir;
    [ exists [], (dirNodeIdx st); rewrite app_nil_r;
      destruct st; split; [done | split; [apply added_nil | done]] |].
  all: pose proof (SplitFacts.Split_nonempty dir filepath.slash) as Hne.
  all: destruct (last (strings.Split dir filepath.slash)) as [segment|] eqn:Hlast;
    [| by apply last_None in Hlast].
  all: destruct (Z.ltb_spec 1 (len (strings.Split dir filepath.slash)))
    as [Hdeep|Hflat].
  1: { unfold len in Hdeep. lia. }
  2: {
    destruct (IH (strings.Join
                    (take (Z.to_nat (len (strings.Split dir filepath.slash) - 1))
                          (strings.Split dir filepath.slash)) "/") st)
      as (ext1 & idx1 & Hrun & Hadd1 & Hinv1); [|done|].
    { rewrite (SplitFacts.parent_parts dir Hdeep). lia. }
    rewrite Hrun. cbn [bind fst snd b_nodes dirNodeIdx].
    rewrite (index_last _ _ Hlast). cbn [bind].
    set (parentIdx := default 0 (idx1 !! _)).
    assert (Hparent : 0 <= parentIdx < len (b_nodes st ++ ext1)).
    { subst parentIdx. destruct Hinv1 as [Hrepo Hidx]. cbn in Hrepo, Hidx.
      destruct (idx1 !! _) as [v|] eqn:Hv; cbn; [by eapply Hidx | lia]. }
    eexists (ext1 ++ _ :: _), _. split; [|split].
    - rewrite <- !app_assoc. cbn [app]. reflexivity.
    - apply added_app; [done|]. rewrite <- length_app.
      apply added_dir. exact Hparent.
    - destruct Hinv1 as [Hrepo Hidx]. cbn [b_nodes dirNodeIdx] in Hrepo, Hidx.
      clearbody parentIdx.
      split; cbn [b_nodes dirNodeIdx].
      + lens.
      + intros d v Hd.
        apply lookup_insert_Some in Hd as [[_ <-]|[_ Hd]]; [lens|].
        apply Hidx in Hd. lens. }
  all: cbn [bind fst snd].
  all: rewrite (index_last _ _ Hlast); cbn [bind].
  all: destruct Hinv as [Hrepo Hidx].
  all: eexists (_ :: _), _; split; [|split].
  all: try (rewrite <- !app_assoc; cbn [app]; reflexivity).
  all: try (apply added_dir; exact Hrepo).
  all: split; cbn [b_nodes dirNodeIdx]; [lens|].
  all: intros d v Hd;
    apply lookup_insert_Some in Hd as [[_ <-]|[_ Hd]];
    [ lens | apply Hidx in Hd; lens ].
Qed.
End AddDir.

Lemma forEach_inv {A S} (P : S -> Prop) (body : S -> A -> outcome S)
  (l : list A) :
  (forall s a, P s -> a ∈ l -> exists s', body s a = Returns s' /\ P s') ->
  forall s, P s -> exists s', forEach body l s = Returns s' /\ P s'.
Proof.
  induction l as [|a l IH]; intros Hbody s Hs; cbn; [eauto|].
  destruct (Hbody s a Hs) as (s1 & -> & Hs1); [by left|]. cbn [bind].
  apply IH; [|done]. intros s2 b Hs2 Hb. apply Hbody; [done | by right].
Qed.

Lemma forEach_ext {A S} (f g : S -> A -> outcome S) (l : list A) :
  (forall s a, f s a = g s a) -> forall s, forEach f l s = forEach g l s.
Proof.
  intros Hfg. induction l as [|a l IH]; intros s; cbn; [done|].
  rewrite Hfg. destruct (g s a); cbn; auto.
Qed.

(** One repository: its node, then directory and file nodes that point
    backwards. *)
Lemma addRepo_spec (o : MapOrder) (acc : list TreeNode) (ir : nat * Repo) :
  exists ext,
    addRepo o acc ir = Returns (acc ++ repoNode (fst ir) :: ext)
    /\ added (S (length acc)) ext.
Proof.
  unfold addRepo.
  set (dirFiles := groupFiles (Files (snd ir))).
  set (allDirs := sort.Strings _).
  set (acc1 := acc ++ [repoNode (fst ir)]).
  assert (Hlen1 : length acc1 = S (length acc))
    by (subst acc1; rewrite length_app; cbn; lia).
  destruct (forEach_inv
              (fun st => (exists ext, b_nodes st = acc1 ++ ext
                                      /\ added (length acc1) ext)
                         /\ binv (len acc) st)
              (fun st dir =>
                 addDir (String.length dir) (fst ir) (len acc) dirFiles dir st)
              allDirs) with (s := mkBuilder acc1 ∅)
    as (st & -> & (ext & Hnodes & Hext) & Hinv).
  - intros st dir [(ext & Hnodes & Hext) Hinv] _.
    destruct (addDir_spec (fst ir) (len acc) dirFiles (String.length dir) dir st)
      as (ext' & idx & -> & Hext' & Hinv');
      [apply SplitFacts.Split_length | done |].
    eexists. split; [reflexivity|]. split; [|done].
    exists (ext ++ ext'). cbn [b_nodes]. rewrite Hnodes, <- app_assoc.
    split; [done|]. apply added_app; [done|].
    by rewrite <- length_app, <- Hnodes.
  - split.
    + exists []. cbn. rewrite app_nil_r. split; [done | apply added_nil].
    + split; cbn [b_nodes dirNodeIdx]; [lens|].
      intros d v Hd. by rewrite lookup_empty in Hd.
  - cbn [bind]. rewrite Hnodes. subst acc1.
    eexists (ext ++ _). split.
    + rewrite <- !app_assoc. reflexivity.
    + rewrite Hlen1 in Hext. apply added_app; [done|].
      apply added_files. lens.
Qed.

(** The node array of [NewTreeModel]: the loop over the repositories
    returns, the array is well formed and nothing in it is collapsed. *)
Lemma build_nodes (o : MapOrder) (repos : list Repo) :
  exists ns,
    forEach (addRepo o) (imap pair repos) [] = Returns ns
    /\ wf_nodes ns /\ Forall (fun n => Collapsed n = false) ns.
Proof.
  apply (forEach_inv
           (fun ns => wf_nodes ns /\ Forall (fun n => Collapsed n = false) ns)).
  - intros acc ir [Hwf Hexp] _.
    destruct (addRepo_spec o acc ir) as (ext & -> & Hext).
    eexists. split; [reflexivity|].
    change (acc ++ repoNode (fst ir) :: ext)
      with (acc ++ [repoNode (fst ir)] ++ ext).
    rewrite app_assoc.
    assert (Hlen : length (acc ++ [repoNode (fst ir)]) = S (length acc))
      by (rewrite length_app; cbn; lia).
    split.
    + apply wf_nodes_added; [by apply wf_nodes_repo | by rewrite Hlen].
    + apply expanded_added; [|by rewrite Hlen].
      apply Forall_app. split; [done|]. by repeat constructor.
  - split; [|constructor]. intros k n Hk. by rewrite lookup_nil in Hk.
Qed.

End BuildFacts.

(** ** Visibility *)

Module VisibleFacts.

Lemma expandedAbove_root (ns : list TreeNode) (n : TreeNode) :
  ParentDir n < 0 -> expandedAbove ns n.
Proof. intros Hroot a p Ha. inversion Ha; lia. Qed.

Lemma expandedAbove_step (ns : list TreeNode) (n p : TreeNode) :
  0 <= ParentDir n ->
  ns !! Z.to_nat (ParentDir n) = Some p ->
  expandedAbove ns n <-> Collapsed p = false /\ expandedAbove ns p.
Proof.
  intros Hpos Hp. split.
  - intros Hn. split.
    + apply (Hn (ParentDir n)); [by constructor | done].
    + intros a q Ha Hq. apply (Hn a); [|done]. by eapply ancestor_above.
  - intros [Hc Hup] a q Ha Hq. inversion Ha as [_|p' a' _ Hp' Ha']; subst.
    + congruence.
    + rewrite Hp in Hp'. injection Hp' as <-. by eapply Hup.
Qed.

(** On a well-formed array the walk returns, and it answers whether an
    ancestor is collapsed. *)
Lemma isAncestorExpanded_spec (ns : list TreeNode) :
  wf_nodes ns ->
  forall fuel n,
    ParentDir n < Z.of_nat fuel -> ParentDir n < len ns ->
    exists b, isAncestorExpanded fuel ns n = Returns b
              /\ (b = true <-> expandedAbove ns n).
Proof.
  intros Hwf. induction fuel as [|fuel IH]; intros n Hfuel Hrange.
  all: cbn [isAncestorExpanded].
  all: destruct (Z.ltb_spec (ParentDir n) 0) as [Hroot|Hpos];
    [ exists true; split; [done|]; split; [intros _|done];
      by apply expandedAbove_root |].
  - lia.
  - destruct (ns !! Z.to_nat (ParentDir n)) as [p|] eqn:Hp.
    2: { apply lookup_ge_None in Hp. unfold len in *. lia. }
    rewrite (proj2 (index_Returns ns (ParentDir n) p)) by done. cbn [bind].
    pose proof (expandedAbove_step ns n p Hpos Hp) as Hstep.
    destruct (Collapsed p) eqn:Hc.
    + exists false. split; [done|]. rewrite Hstep. intuition congruence.
    + destruct (Hwf _ _ Hp) as [Hparent _].
      destruct (IH p) as (b & -> & Hb); [lia | lia |].
      exists b. split; [done|]. rewrite Hstep, Hb. intuition.
Qed.

(** The entries of [range tm.nodes]. *)
Lemma entries_lookup (ns : list TreeNode) (e : nat * TreeNode) :
  e ∈ imap pair ns <-> ns !! fst e = Some (snd e).
Proof.
  rewrite elem_of_lookup_imap. split.
  - by intros (k & n & -> & ?).
  - intros H. exists (fst e), (snd e). by destruct e.
Qed.

Lemma entries_ascending {A} (l : list A) :
  forall off,
    StronglySorted (fun a b : nat * A => (fst a < fst b)%nat)
                   (imap (fun k => pair (off + k)%nat) l).
Proof.
  induction l as [|x l IH]; intros off; [constructor|].
  rewrite imap_cons.
  rewrite (imap_ext _ (fun k => pair (S off + k)%nat))
    by (intros; cbn; f_equal; lia).
  constructor; [apply IH|].
  apply Forall_forall. intros e He.
  apply elem_of_lookup_imap in He as (k & y & -> & _). cbn. lia.
Qed.

Section Loop.
Variable ns : list TreeNode.
Hypothesis Hwf : wf_nodes ns.

Lemma visibleStep_spec (vis : list Z) (e : nat * TreeNode) :
  ns !! fst e = Some (snd e) ->
  (visibleStep ns vis e = Returns (vis ++ [Z.of_nat (fst e)])
   /\ expandedAbove ns (snd e))
  \/ (visibleStep ns vis e = Returns vis /\ ~ expandedAbove ns (snd e)).
Proof.
  intros He. unfold visibleStep.
  destruct (Hwf _ _ He) as [Hparent Hrepo].
  pose proof (lookup_lt_Some _ _ _ He) as Hlt.
  destruct (isAncestorExpanded_spec ns Hwf (length ns) (snd e))
    as (b & Hrun & Hb); [lia | unfold len; lia |].
  destruct (Kind (snd e)) eqn:Hkind.
  - left. split; [done|]. apply expandedAbove_root. by apply Hrepo.
  - rewrite Hrun. cbn [bind]. destruct b.
    + left. split; [done|]. by apply Hb.
    + right. split; [done|]. rewrite <- Hb. discriminate.
  - rewrite Hrun. cbn [bind]. destruct b.
    + left. split; [done|]. by apply Hb.
    + right. split; [done|]. rewrite <- Hb. discriminate.
Qed.

Lemma visibleLoop_spec (es : list (nat * TreeNode)) :
  (forall e, e ∈ es -> ns !! fst e = Some (snd e)) ->
  StronglySorted (fun a b : nat * TreeNode => (fst a < fst b)%nat) es ->
  forall acc, exists vis,
    forEach (visibleStep ns) es acc = Returns (acc ++ vis)
    /\ (forall z, z ∈ vis <->
          exists e, e ∈ es /\ z = Z.of_nat (fst e)
                    /\ expandedAbove ns (snd e))
    /\ StronglySorted Z.lt vis.
Proof.
  induction es as [|e es IH]; intros Hes Hsorted acc.
  - exists []. cbn. rewrite app_nil_r. split; [done|]. split; [|constructor].
    intros z. split; [by intros ?%elem_of_nil|].
    by intros (e & ?%elem_of_nil & _).
  - apply StronglySorted_inv in Hsorted as [Hsorted Hhd].
    rewrite Forall_forall in Hhd.
    assert (Hes' : forall e', e' ∈ es -> ns !! fst e' = Some (snd e'))
      by (intros; apply Hes; by right).
    cbn [forEach].
    destruct (visibleStep_spec acc e) as [[-> Hexp]|[-> Hcol]];
      [apply Hes; by left | |]; cbn [bind].
    + destruct (IH Hes' Hsorted (acc ++ [Z.of_nat (fst e)]))
        as (vis & -> & Hmem & Hvis).
      exists (Z.of_nat (fst e) :: vis). split; [by rewrite <- app_assoc|].
      split.
      * intros z. rewrite elem_of_cons, Hmem. split.
        -- intros [->|(e' & He' & -> & Hx)].
           ++ exists e. split; [by left | done].
           ++ exists e'. split; [by right | done].
        -- intros (e' & [->|He']%elem_of_cons & -> & Hx); [by left|].
           right. by exists e'.
      * constructor; [done|]. apply Forall_forall. intros z Hz.
        apply Hmem in Hz as (e' & He' & -> & _).
        apply Hhd in He'. lia.
    + destruct (IH Hes' Hsorted acc) as (vis & -> & Hmem & Hvis).
      exists vis. split; [done|]. split; [|done].
      intros z. rewrite Hmem. split.
      * intros (e' & He' & Hz). exists e'. split; [by right | done].
      * intros (e' & [->|He']%elem_of_cons & -> & Hx); [done|].
        by exists e'.
Qed.

(** [rebuildVisible] on a well-formed array. *)
Lemma rebuildVisible_spec (vis0 : list Z) (cur : Z) :
  exists vis,
    rebuildVisible (mkTreeModel ns vis0 cur)
    = Returns (mkTreeModel ns vis
                 (if len vis <=? cur then Z.max 0 (len vis - 1) else cur))
    /\ (forall k n, ns !! k = Some n ->
          Z.of_nat k ∈ vis <-> expandedAbove ns n)
    /\ (forall z, z ∈ vis -> 0 <= z < len ns)
    /\ StronglySorted Z.lt vis.
Proof.
  unfold rebuildVisible. cbn [nodes cursor].
  destruct (visibleLoop_spec (imap pair ns)) with (acc := @nil Z)
    as (vis & -> & Hmem & Hsorted).
  - intros e. apply entries_lookup.
  - apply (entries_ascending ns 0).
  - cbn [bind app]. exists vis. split; [done|]. split; [|split; [|done]].
    + intros k n Hk. rewrite Hmem. split.
      * intros (e & He & Hz & Hx). apply entries_lookup in He.
        apply Nat2Z.inj in Hz. subst k. rewrite He in Hk.
        by injection Hk as <-.
      * intros Hx. exists (k, n). split; [by apply entries_lookup | done].
    + intros z Hz. apply Hmem in Hz as (e & He & -> & _).
      apply entries_lookup, lookup_lt_Some in He. unfold len. lia.
Qed.
End Loop.

End VisibleFacts.

(** ** The order of map iteration does not show *)

Module OrderIndependence.

Lemma elem_of_prefix_loop (g : nat -> string) (ks : list nat) :
  forall (s : gset string) z,
    z ∈ foldl (fun (acc : gset string) k => {[ g k ]} ∪ acc) s ks
    <-> z ∈ s \/ exists k, k ∈ ks /\ z = g k.
Proof.
  induction ks as [|k ks IH]; intros s z; cbn.
  - split; [by left|]. intros [?|(k & ?%elem_of_nil & _)]; done.
  - rewrite IH, elem_of_union, elem_of_singleton. split.
    + intros [[->|?]|(k' & ? & ->)].
      * right. exists k. split; [by left | done].
      * by left.
      * right. exists k'. split; [by right | done].
    + intros [?|(k' & [->|?]%elem_of_cons & ->)].
      * left. by right.
      * left. by left.
      * right. by exists k'.
Qed.

Lemma elem_of_addPrefixes (s : gset string) (dir z : string) :
  z ∈ addPrefixes s dir <-> z ∈ s \/ z ∈ addPrefixes ∅ dir.
Proof.
  unfold addPrefixes. destruct (String.eqb dir "").
  - split; [by left|]. intros [?|?%elem_of_empty]; done.
  - rewrite !elem_of_prefix_loop. split.
    + intros [?|?]; [by left | right; by right].
    + intros [?|[?%elem_of_empty|?]]; [by left | done | by right].
Qed.

Lemma addPrefixes_comm (s : gset string) (x y : string) :
  addPrefixes (addPrefixes s x) y = addPrefixes (addPrefixes s y) x.
Proof.
  apply set_eq. intros z.
  rewrite (elem_of_addPrefixes (addPrefixes s x) y).
  rewrite (elem_of_addPrefixes (addPrefixes s y) x).
  rewrite (elem_of_addPrefixes s x), (elem_of_addPrefixes s y). tauto.
Qed.

Lemma dirSet_Permutation (l1 l2 : list string) :
  Permutation l1 l2 ->
  forall s : gset string, foldl addPrefixes s l1 = foldl addPrefixes s l2.
Proof.
  induction 1 as [|x l1 l2 _ IH|x y l|l1 l2 l3 _ IH1 _ IH2]; intros s; cbn.
  - done.
  - apply IH.
  - by rewrite addPrefixes_comm.
  - by rewrite IH1.
Qed.

Lemma addRepo_order (o1 o2 : MapOrder) (acc : list TreeNode)
  (ir : nat * Repo) :
  fair o1 -> fair o2 -> addRepo o1 acc ir = addRepo o2 acc ir.
Proof.
  intros H1 H2. unfold addRepo.
  rewrite (dirSet_Permutation (o1 (fst ir) false _) (o2 (fst ir) false _))
    by (etrans; [apply H1 | symmetry; apply H2]).
  rewrite (OrderFacts.Strings_Permutation
             (o1 (fst ir) true _) (o2 (fst ir) true _))
    by (etrans; [apply H1 | symmetry; apply H2]).
  reflexivity.
Qed.

End OrderIndependence.

(** ** The tree model *)

Lemma wf_nodes_toggle (ns : list TreeNode) (k : nat) (n : TreeNode) :
  ns !! k = Some n -> wf_nodes ns -> wf_nodes (<[k := toggled n]> ns).
Proof.
  intros Hn Hwf j x Hj.
  destruct (decide (k = j)) as [->|Hne].
  - rewrite list_lookup_insert_eq in Hj by (by eapply lookup_lt_Some).
    injection Hj as <-. cbn. by apply Hwf.
  - rewrite list_lookup_insert_ne in Hj by done. by apply Hwf.
Qed.

(** [NewTreeModel] returns; its tree is well formed, fully expanded, and
    its cursor is on the first row. *)
Lemma NewTreeModel_returns (o : MapOrder) (rs : list Repo) :
  exists tm,
    NewTreeModel o rs = Returns tm
    /\ wf_nodes (nodes tm)
    /\ Forall (fun n => Collapsed n = false) (nodes tm)
    /\ cursor tm = 0.
Proof.
  unfold NewTreeModel.
  destruct (BuildFacts.build_nodes o rs) as (ns & -> & Hwf & Hexp).
  cbn [bind].
  destruct (VisibleFacts.rebuildVisible_spec ns Hwf [] 0) as (vis & -> & _).
  eexists. split; [reflexivity|]. cbn [nodes cursor].
  split; [done|]. split; [done|].
  destruct (Z.leb_spec (len vis) 0); [unfold len in *; lia | done].
Qed.

(** Every tree that the program reaches is well formed. *)
Lemma ToggleCollapse_wf (tm tm' : TreeModel) :
  wf_nodes (nodes tm) -> ToggleCollapse tm = Returns tm' ->
  wf_nodes (nodes tm').
Proof.
  intros Hwf. unfold ToggleCollapse. intros H.
  apply bind_Returns in H as ([i|] & _ & H); [|by injection H as <-].
  apply bind_Returns in H as (node & Hnode & H).
  apply index_Returns in Hnode as [Hi Hnode].
  assert (Hwf' : wf_nodes (<[Z.to_nat i := toggled node]> (nodes tm)))
    by (by apply wf_nodes_toggle).
  destruct (Kind node); [| |by injection H as <-].
  all: destruct (VisibleFacts.rebuildVisible_spec _ Hwf' (visible tm) (cursor tm))
    as (vis & Hrun & _); rewrite Hrun in H; by injection H as <-.
Qed.

(** C9. On every tree whose parents precede their children (every tree
    the program reaches), [rebuildVisible] returns with the nodes
    unchanged and a visibility list that holds the index of a node if and
    only if no node on its parent chain is collapsed; so every repository
    node is listed, and so is a collapsed node whose ancestors are all
    expanded.  The list holds indices of nodes only, in ascending
    order. *)
Theorem rebuildVisible_visibility (tm : TreeModel) :
  wf_nodes (nodes tm) ->
  exists tm',
    rebuildVisible tm = Returns tm'
    /\ nodes tm' = nodes tm
    /\ (forall k n, nodes tm !! k = Some n ->
           Z.of_nat k ∈ visible tm' <-> expandedAbove (nodes tm) n)
    /\ (forall k n, nodes tm !! k = Some n -> Kind n = NodeRepo ->
           Z.of_nat k ∈ visible tm')
    /\ (forall k n, nodes tm !! k = Some n -> Collapsed n = true ->
           expandedAbove (nodes tm) n -> Z.of_nat k ∈ visible tm')
    /\ (forall z, z ∈ visible tm' -> 0 <= z < len (nodes tm))
    /\ StronglySorted Z.lt (visible tm').
Proof.
  intros Hwf. destruct tm as [ns vis0 cur]. cbn [nodes] in *.
  destruct (VisibleFacts.rebuildVisible_spec ns Hwf vis0 cur)
    as (vis & -> & Hmem & Hrange & Hsorted).
  eexists. split; [reflexivity|]. cbn [nodes visible].
  split; [done|]. split; [done|]. split; [|split; [|done]].
  - intros k n Hk Hrepo. apply (Hmem k n Hk).
    apply VisibleFacts.expandedAbove_root. by apply (Hwf k n Hk).
  - intros k n Hk _ Hexp. by apply (Hmem k n Hk).
Qed.

Lemma collapsedSrc_wf : wf_nodes (nodes collapsedSrc).
Proof.
  intros [|[|[|[|k]]]] n H; cbn in H; try discriminate;
    injection H as <-; cbn; (split; [lia | intros ?; (discriminate || lia)]).
Defined.

Lemma rebuildVisible_visibility_witness :
  exists tm',
    rebuildVisible collapsedSrc = Returns tm'
    /\ nodes tm' = nodes collapsedSrc
    /\ (forall k n, nodes collapsedSrc !! k = Some n ->
           Z.of_nat k ∈ visible tm' <-> expandedAbove (nodes collapsedSrc) n)
    /\ (forall k n, nodes collapsedSrc !! k = Some n -> Kind n = NodeRepo ->
           Z.of_nat k ∈ visible tm')
    /\ (forall k n, nodes collapsedSrc !! k = Some n -> Collapsed n = true ->
           expandedAbove (nodes collapsedSrc) n -> Z.of_nat k ∈ visible tm')
    /\ (forall z, z ∈ visible tm' -> 0 <= z < len (nodes collapsedSrc))
    /\ StronglySorted Z.lt (visible tm').
Proof. exact (rebuildVisible_visibility collapsedSrc collapsedSrc_wf). Defined.

(** C10. [ToggleCollapse] returns the tree as it is (nodes, collapse
    flags, visibility list and cursor) when the visibility list is empty
    and when the selected node is a file. *)
Theorem ToggleCollapse_noop (tm : TreeModel) :
  visible tm = []
  \/ (exists i n, SelectedNode tm = Returns (Some i)
                  /\ nodes tm !! Z.to_nat i = Some n
                  /\ Kind n = NodeFile) ->
  ToggleCollapse tm = Returns tm.
Proof.
  intros [Hempty|(i & n & Hsel & Hn & Hfile)]; unfold ToggleCollapse.
  - unfold SelectedNode. rewrite Hempty. reflexivity.
  - rewrite Hsel. cbn [bind].
    assert (Hi : 0 <= i).
    { unfold SelectedNode in Hsel.
      destruct (_ || _) in Hsel; [discriminate|].
      apply bind_Returns in Hsel as (j & _ & Hsel).
      apply bind_Returns in Hsel as (x & Hx & [= <-]).
      by apply index_Returns in Hx as [? _]. }
    rewrite (proj2 (index_Returns (nodes tm) i n)) by done.
    cbn [bind]. by rewrite Hfile.
Qed.

Lemma ToggleCollapse_noop_witness :
  ToggleCollapse emptyTree = Returns emptyTree
  /\ ToggleCollapse onLastFile = Returns onLastFile.
Proof.
  split.
  - exact (ToggleCollapse_noop emptyTree (or_introl eq_refl)).
  - exact (ToggleCollapse_noop onLastFile
             (or_intror
                (ex_intro _ 3
                   (ex_intro _ (fileNode 0 1 0 0)
                      (conj eq_refl (conj eq_refl eq_refl)))))).
Defined.

(** C8. The tree that [NewTreeModel] builds from a repository list does
    not depend on the order in which Go walks its maps: two builds from
    the same list give the same nodes, visibility list, collapse flags and
    cursor, and delivering the same scan result twice leaves the model as
    it was after the first time. *)
Theorem NewTreeModel_deterministic
  (o1 o2 : MapOrder) (rs : list Repo) (m : model) :
  fair o1 -> fair o2 ->
  NewTreeModel o1 rs = NewTreeModel o2 rs
  /\ exists m1,
       Update_reposScanned o1 m rs = Returns m1
       /\ Update_reposScanned o2 m1 rs = Returns m1.
Proof.
  intros H1 H2.
  assert (Heq : NewTreeModel o1 rs = NewTreeModel o2 rs).
  { unfold NewTreeModel. f_equal.
    apply BuildFacts.forEach_ext. intros acc ir.
    by apply OrderIndependence.addRepo_order. }
  split; [exact Heq|].
  destruct (NewTreeModel_returns o1 rs) as (tm & Htm & _).
  exists (mkModel rs tm). unfold Update_reposScanned.
  rewrite <- Heq, Htm. done.
Qed.

Lemma idOrder_fair : fair idOrder.
Proof. intros i b keys. apply Permutation_refl. Defined.

Lemma revOrder_fair : fair revOrder.
Proof. intros i b keys. apply Permutation_sym, Permutation_rev. Defined.

Lemma NewTreeModel_deterministic_witness :
  NewTreeModel idOrder [projRepo; srcOnly]
  = NewTreeModel revOrder [projRepo; srcOnly]
  /\ exists m1,
       Update_reposScanned idOrder (mkModel [] emptyTree) [projRepo; srcOnly]
       = Returns m1
       /\ Update_reposScanned revOrder m1 [projRepo; srcOnly] = Returns m1.
Proof.
  exact (NewTreeModel_deterministic idOrder revOrder [projRepo; srcOnly]
           (mkModel [] emptyTree) idOrder_fair revOrder_fair).
Defined.

(** The trees used as examples are trees that the program reaches. *)
Example collapsedSrc_reached :
  (do t <- NewTreeModel idOrder [projRepo]; ToggleCollapse (MoveDown t))
  = Returns collapsedSrc.
Proof. vm_compute. reflexivity. Qed.

Example onLastFile_reached :
  (do t <- NewTreeModel idOrder [projRepo];
   Returns (MoveDown (MoveDown (MoveDown t))))
  = Returns onLastFile.
Proof. vm_compute. reflexivity. Qed.

(** The tree is collapsed at [src]; the scan result [projRepo] arrives
    again; the new tree has [src] expanded, against the carrying-forward
    of the collapse state. *)
Lemma rebuild_forgets_collapse :
  Update_reposScanned idOrder (mkModel [projRepo] collapsedSrc) [projRepo]
  = Returns (mkModel [projRepo] projTree)
  /\ Collapsed <$> nodes collapsedSrc !! 1%nat = Some true
  /\ Collapsed <$> nodes projTree !! 1%nat = Some false
  /\ ~ carriesCollapse [projRepo] collapsedSrc [projRepo] projTree.
Proof.
  split; [vm_compute; reflexivity|].
  split; [reflexivity|]. split; [reflexivity|].
  intros H.
  assert (Hnew : dirNode 0 "src" 1 0 ∈ nodes projTree)
    by (apply list_elem_of_lookup; by exists 1%nat).
  assert (Hold : mkTreeNode NodeDir 0 None "src" 0 1 true 0
                 ∈ nodes collapsedSrc)
    by (apply list_elem_of_lookup; by exists 1%nat).
  destruct (H _ ("proj", "src") Hnew eq_refl) as [Hsame _].
  discriminate (Hsame _ Hold eq_refl).
Qed.

(** C1, amended. A rebuild takes the repository list alone: whatever the
    previous model was, [Update] on a scan result returns the same model,
    its tree is well formed and every node in it is expanded. *)
Theorem rebuild_expands_all (o : MapOrder) (m : model) (rs : list Repo) :
  exists m',
    Update_reposScanned o m rs = Returns m'
    /\ (forall m0, Update_reposScanned o m0 rs = Returns m')
    /\ repos m' = rs
    /\ wf_nodes (nodes (tree m'))
    /\ Forall (fun n => Collapsed n = false) (nodes (tree m')).
Proof.
  destruct (NewTreeModel_returns o rs) as (tm & Htm & Hwf & Hexp & _).
  exists (mkModel rs tm). unfold Update_reposScanned. rewrite Htm.
  cbn [bind repos tree]. auto.
Qed.

(** Four rows with the cursor on the last; the next scan leaves three. *)
Lemma rebuild_resets_cursor :
  Update_reposScanned idOrder (mkModel [projRepo] onLastFile) [srcOnly]
  = Returns (mkModel [srcOnly] srcTree)
  /\ len (visible onLastFile) = 4 /\ cursor onLastFile = 3
  /\ len (visible srcTree) = 3 /\ cursor srcTree = 0
  /\ ~ cursorClamped onLastFile srcTree.
Proof.
  split; [vm_compute; reflexivity|].
  repeat (split; [reflexivity|]).
  intros H. unfold cursorClamped in H.
  change (len (visible srcTree)) with 3 in H.
  change (cursor onLastFile) with 3 in H.
  change (cursor srcTree) with 0 in H. lia.
Qed.

(** C5, amended. [rebuildVisible] (run by the initial build and by every
    collapse toggle) keeps a cursor that is inside the new visibility
    list and moves one at or past its length [N] to [N - 1], or to 0 when
    the list is empty, where [SelectedNode] then reports no node.  A
    rebuild on a scan result does not carry the cursor over: it starts a
    new tree, whose cursor is 0. *)
Theorem cursor_after_recomputation
  (o : MapOrder) (m : model) (rs : list Repo) (tm : TreeModel) :
  wf_nodes (nodes tm) ->
  (exists tm',
     rebuildVisible tm = Returns tm'
     /\ cursor tm' =
          (if len (visible tm') <=? cursor tm
           then Z.max 0 (len (visible tm') - 1)
           else cursor tm)
     /\ (visible tm' = [] -> SelectedNode tm' = Returns None))
  /\ (exists m',
        Update_reposScanned o m rs = Returns m' /\ cursor (tree m') = 0).
Proof.
  intros Hwf. split.
  - destruct tm as [ns vis0 cur]. cbn [nodes] in *.
    destruct (VisibleFacts.rebuildVisible_spec ns Hwf vis0 cur)
      as (vis & -> & _).
    eexists. split; [reflexivity|]. cbn [visible cursor]. split; [done|].
    intros ->. reflexivity.
  - destruct (NewTreeModel_returns o rs) as (t & Ht & _ & _ & Hcur).
    exists (mkModel rs t). unfold Update_reposScanned. by rewrite Ht.
Qed.

Lemma cursor_after_recomputation_witness :
  (exists tm',
     rebuildVisible collapsedSrc = Returns tm'
     /\ cursor tm' =
          (if len (visible tm') <=? cursor collapsedSrc
           then Z.max 0 (len (visible tm') - 1)
           else cursor collapsedSrc)
     /\ (visible tm' = [] -> SelectedNode tm' = Returns None))
  /\ (exists m',
        Update_reposScanned idOrder (mkModel [projRepo] onLastFile) [srcOnly]
        = Returns m'
        /\ cursor (tree m') = 0).
Proof.
  exact (cursor_after_recomputation idOrder (mkModel [projRepo] onLastFile)
           [srcOnly] collapsedSrc collapsedSrc_wf).
Defined.

(** * Further properties *)

(** ** The status parser, line by line *)

Module LineFacts.

Lemma append_nonempty (a b : string) (c : ascii) : a +:+ String c b <> "".
Proof. destruct a; discriminate. Qed.

Lemma fieldsLoop_nonempty (bs : list ascii) :
  forall skip cur,
    (forall f, cur = Some f -> f <> "") ->
    Forall (fun f => f <> "") (strings.fieldsLoop bs skip cur).
Proof.
  induction bs as [|c bs IH]; intros skip cur Hcur.
  - cbn. destruct cur as [f|]; [|constructor].
    constructor; [by apply Hcur | constructor].
  - cbn [strings.fieldsLoop]. destruct skip as [|k]; [|by apply IH].
    destruct (strings.spaceWidth (map N_of_ascii (c :: bs))) as [|k].
    + apply IH. intros f [= <-]. apply append_nonempty.
    + destruct cur as [f|].
      * constructor; [by apply Hcur|]. apply IH. discriminate.
      * apply IH. discriminate.
Qed.

Lemma Fields_nonempty (s : string) :
  Forall (fun f => f <> "") (strings.Fields s).
Proof. apply fieldsLoop_nonempty. discriminate. Qed.

Lemma plain_nonspace_last (path : string) (l : list string) :
  Forall plain (l ++ [path]) -> plain path.
Proof. intros H. apply Forall_app in H as [_ H]. by inversion H. Qed.

(** The three ways in which [parseOrdinaryEntry] ends. *)
Lemma parseOrdinaryEntry_cases (line : string) :
  (len (strings.Fields line) < 9 /\ parseOrdinaryEntry line = Returns None)
  \/ (9 <= len (strings.Fields line)
      /\ (exists c, strings.Fields line !! 1%nat = Some (String c ""))
      /\ parseOrdinaryEntry line = Panics)
  \/ (9 <= len (strings.Fields line)
      /\ exists x y tl path,
           strings.Fields line !! 1%nat = Some (String x (String y tl))
           /\ last (strings.Fields line) = Some path
           /\ path <> "" /\ plain path
           /\ parseOrdinaryEntry line =
                Returns
                  (if negb (Ascii.eqb y ".") then
                     Some (mkFileStatus path (mapStatusByte y) false)
                   else if negb (Ascii.eqb x ".") then
                     Some (mkFileStatus path (mapStatusByte x) true)
                   else None)).
Proof.
  destruct (Z.lt_ge_cases (len (strings.Fields line)) 9) as [Hshort|Hlong].
  { left. split; [done|]. by apply short_line_dropped. }
  right.
  assert (Hxy : is_Some (strings.Fields line !! 1%nat))
    by (apply lookup_lt_is_Some; unfold len in Hlong; lia).
  destruct Hxy as [xy Hxy].
  assert (Hne : xy <> "").
  { pose proof (Fields_nonempty line) as HF. rewrite Forall_forall in HF.
    apply HF. by eapply list_elem_of_lookup_2. }
  destruct xy as [|x [|y tl]]; [done| |].
  - left. split; [done|]. split; [by exists x|].
    unfold parseOrdinaryEntry.
    destruct (Z.ltb_spec (len (strings.Fields line)) 9); [lia|].
    rewrite (index_lookup _ 1 _ Hxy : index _ 1 = _). reflexivity.
  - right. split; [done|].
    destruct (last (strings.Fields line)) as [path|] eqn:Hlast.
    2: { apply last_None in Hlast. rewrite Hlast in Hxy. discriminate. }
    exists x, y, tl, path. split; [done|]. split; [done|].
    pose proof Hlast as Hin. apply last_Some in Hin as [l' Hl'].
    split; [|split].
    + pose proof (Fields_nonempty line) as HF. rewrite Hl' in HF.
      apply Forall_app in HF as [_ HF]. by inversion HF.
    + pose proof (ParserFacts.Fields_plain line) as HF. rewrite Hl' in HF.
      by eapply plain_nonspace_last.
    + by apply (ParserFacts.parseOrdinaryEntry_fields line x y tl path).
Qed.

End LineFacts.

Module StatusFacts.

Lemma prefix_cons (d c : ascii) (p l : string) :
  String.prefix (String d p) (String c l) = true ->
  d = c /\ String.prefix p l = true.
Proof. cbn. destruct (ascii_dec d c); [auto | discriminate]. Qed.

Lemma mapStatusByte_tracked (b : ascii) : mapStatusByte b <> StatusUntracked.
Proof.
  unfold mapStatusByte. destruct b as [[] [] [] [] [] [] [] []]; discriminate.
Qed.

Lemma substring_all (s : string) : String.substring 0 (String.length s) s = s.
Proof. induction s as [|c s IH]; cbn; [done | by rewrite IH]. Qed.

Lemma from_2 (a b : ascii) (rest : string) :
  strings.from (String a (String b rest)) 2 = Returns rest.
Proof.
  unfold strings.from. cbn [String.length].
  replace (2 <=? S (S (String.length rest)))%nat with true
    by (symmetry; apply Nat.leb_le; lia).
  replace (S (S (String.length rest)) - 2)%nat with (String.length rest) by lia.
  cbn [String.substring]. by rewrite substring_all.
Qed.

(** What [dropSpace] leaves does not start with white space. *)
Lemma dropSpace_head (forward : bool) (bs : list ascii) :
  forall skip,
    dropSpace_result_ok forward (strings.dropSpace forward bs skip).
Proof.
  unfold dropSpace_result_ok.
  induction bs as [|c bs IH]; intros skip; [by left|].
  cbn [strings.dropSpace]. destruct skip as [|k]; [|apply IH].
  destruct ((if forward then strings.spaceWidth else strings.spaceWidthRev)
              (map N_of_ascii (c :: bs))) as [|k] eqn:Hw; [|apply IH].
  by right.
Qed.

Lemma width_0_head (forward : bool) (c : ascii) (bs : list ascii) :
  (if forward then strings.spaceWidth else strings.spaceWidthRev)
    (map N_of_ascii (c :: bs)) = 0%nat ->
  strings.asciiSpace (N_of_ascii c) = false.
Proof.
  destruct forward; cbn [map strings.spaceWidth strings.spaceWidthRev];
    destruct (strings.asciiSpace (N_of_ascii c)); done.
Qed.

(** [strings.TrimSpace] leaves no ASCII white space at the end. *)
Lemma TrimSpace_last (s : string) (t : list ascii) (c : ascii) :
  list_ascii_of_string (strings.TrimSpace s) = t ++ [c] ->
  strings.asciiSpace (N_of_ascii c) = false.
Proof.
  unfold strings.TrimSpace. rewrite list_ascii_of_string_of_list_ascii.
  set (R := strings.dropSpace false _ 0). intros HR.
  apply (f_equal (@rev ascii)) in HR.
  rewrite rev_involutive, rev_app_distr in HR. cbn in HR.
  pose proof (dropSpace_head false _ 0 : dropSpace_result_ok false R) as HRok.
  clearbody R. subst R. destruct HRok as [Hnil|Hw]; [done|].
  exact (width_0_head false c (rev t) Hw).
Qed.

(** ... and none at the start. *)
Lemma TrimSpace_first (s : string) (c : ascii) (t : string) :
  strings.TrimSpace s = String c t ->
  strings.asciiSpace (N_of_ascii c) = false.
Proof.
  unfold strings.TrimSpace.
  set (L := strings.dropSpace true _ 0).
  set (R := strings.dropSpace false (rev L) 0). intros HR.
  apply (f_equal list_ascii_of_string) in HR.
  rewrite list_ascii_of_string_of_list_ascii in HR. cbn in HR.
  (* [R] is a suffix of [rev L]: the first byte of the result is the first
     byte of [L]. *)
  assert (Hsuffix : forall bs skip, exists pre,
             bs = pre ++ strings.dropSpace false bs skip).
  { induction bs as [|b bs IH]; intros skip; [by exists []|].
    cbn [strings.dropSpace]. destruct skip as [|k].
    - destruct (strings.spaceWidthRev (map N_of_ascii (b :: bs))) as [|k].
      + by exists [].
      + destruct (IH k) as [pre Hpre]. exists (b :: pre). cbn. by f_equal.
    - destruct (IH k) as [pre Hpre]. exists (b :: pre). cbn. by f_equal. }
  destruct (Hsuffix (rev L) 0%nat) as [pre Hpre]. fold R in Hpre.
  apply (f_equal (@rev ascii)) in Hpre.
  rewrite rev_involutive, rev_app_distr, HR in Hpre. cbn in Hpre.
  pose proof (dropSpace_head true _ 0 : dropSpace_result_ok true L) as HL.
  clearbody L. subst L. destruct HL as [Hnil|Hw]; [done|].
  exact (width_0_head true c _ Hw).
Qed.

(** A line of the shape [? path], trimmed, names a path. *)
Lemma untracked_path (line rest : string) :
  strings.TrimSpace line = String "?" (String " " rest) -> rest <> "".
Proof.
  intros Hl ->.
  pose proof (TrimSpace_last line ["?"%char] " "%char) as H.
  rewrite Hl in H. discriminate H. reflexivity.
Qed.

(** One turn of the loop: it panics on a line with a short marker field
    and on no other line; otherwise it appends at most one record, which
    does not depend on the records read before. *)
Ltac none_added :=
  exists []; rewrite app_nil_r; cbn;
  split; [done|]; split; [done|]; split; [lia | constructor].

Lemma statusLine_cases (files : list FileStatus) (line : string) :
  (shortMarker line /\ statusLine files line = Panics)
  \/ (~ shortMarker line
      /\ exists r,
           statusLine files line = Returns (files ++ r)
           /\ statusLine [] line = Returns r
           /\ (length r <= 1)%nat
           /\ Forall recordOk r).
Proof.
  unfold shortMarker, statusLine.
  destruct (strings.TrimSpace line) as [|c l] eqn:Htrim.
  { right. split; [by intros [? _]|]. none_added. }
  change (String.eqb (String c l) "") with false. cbn [orb].
  unfold strings.HasPrefix.
  destruct (String.prefix "#" (String c l)) eqn:Hhash.
  { right. apply prefix_cons in Hhash as [<- _]. split; [by intros [? _]|].
    none_added. }
  destruct (String.prefix "1 " (String c l) || String.prefix "2 " (String c l))
    eqn:Hentry.
  - destruct (LineFacts.parseOrdinaryEntry_cases (String c l))
      as [[Hshort ->]|[(Hlong & Hone & ->)|(Hlong & x & y & tl & path & Hxy
                                              & Hlast & Hne & Hplain & ->)]].
    + right. split; [intros (_ & ? & _); lia|]. none_added.
    + by left.
    + right. split.
      { intros (_ & _ & c' & Hc'). rewrite Hxy in Hc'. discriminate. }
      cbn [bind].
      destruct (negb (Ascii.eqb y ".")); [|destruct (negb (Ascii.eqb x "."))].
      * eexists [_]. split; [done|]. split; [done|]. split; [cbn; lia|].
        constructor; [|constructor]. split; cbn; [done|].
        intros H. by apply mapStatusByte_tracked in H.
      * eexists [_]. split; [done|]. split; [done|]. split; [cbn; lia|].
        constructor; [|constructor]. split; cbn; [done|].
        intros H. by apply mapStatusByte_tracked in H.
      * none_added.
  - right. split; [by intros [? _]|].
    destruct (String.prefix "? " (String c l)) eqn:Hq.
    + apply prefix_cons in Hq as [<- Hq].
      destruct l as [|d rest]; [discriminate|].
      apply prefix_cons in Hq as [<- _].
      rewrite from_2. cbn [bind].
      eexists [_]. split; [done|]. split; [done|]. split; [cbn; lia|].
      constructor; [|constructor]. split; cbn; [|done].
      by eapply untracked_path.
    + none_added.
Qed.

Lemma statusLoop_cases (lines : list string) :
  forall files,
    (Exists shortMarker lines /\ statusLoop files lines = Panics)
    \/ (~ Exists shortMarker lines
        /\ exists r,
             statusLoop files lines = Returns (files ++ r)
             /\ statusLoop [] lines = Returns r
             /\ (length r <= length lines)%nat
             /\ Forall recordOk r).
Proof.
  induction lines as [|line lines IH]; intros files.
  { right. split; [by intros ?%Exists_nil|]. exists [].
    rewrite app_nil_r. by repeat split. }
  cbn [statusLoop].
  destruct (statusLine_cases files line) as [[Hbad ->]|(Hgood & r & -> & Hr & Hlen & Hok)].
  { left. split; [by left | done]. }
  cbn [bind]. rewrite Hr. cbn [bind].
  destruct (IH (files ++ r)) as [[Hbad ->]|(Hrest & r' & -> & Hr' & Hlen' & Hok')].
  { left. split; [by right | done]. }
  right. split; [by intros [?|?]%Exists_cons|].
  exists (r ++ r'). rewrite app_assoc. split; [done|].
  destruct (IH r) as [[Hbad _]|(_ & r'' & -> & Hr'' & _)]; [done|].
  rewrite Hr' in Hr''. injection Hr'' as <-.
  split; [done|]. split; [rewrite length_app; cbn; lia|].
  by apply Forall_app.
Qed.

Lemma statusLoop_acc (files : list FileStatus) (lines : list string) :
  statusLoop files lines
  = do r <- statusLoop [] lines; Returns (files ++ r).
Proof.
  destruct (statusLoop_cases lines files)
    as [[Hbad ->]|(Hgood & r & -> & -> & _)]; [|done].
  by destruct (statusLoop_cases lines []) as [[_ ->]|[Hno _]].
Qed.

Lemma Split_append (a b : string) (sep : ascii) :
  strings.Split (a +:+ String sep b) sep
  = strings.Split a sep ++ strings.Split b sep.
Proof.
  induction a as [|c a IH].
  - change ("" +:+ String sep b) with (String sep b).
    cbn [strings.Split]. by rewrite Ascii.eqb_refl.
  - change (String c a +:+ String sep b) with (String c (a +:+ String sep b)).
    cbn [strings.Split]. rewrite IH.
    destruct (Ascii.eqb c sep); [done|].
    pose proof (SplitFacts.Split_nonempty a sep).
    by destruct (strings.Split a sep).
Qed.

End StatusFacts.

(** X1. [GetStatus] panics on exactly those outputs that hold a line with
    a short marker field (an ordinary or rename entry of nine fields or
    more whose second field is one byte); on every other output it
    returns a list of records and no error. *)
Theorem GetStatus_panics_exactly (out : string) :
  (GetStatus (cmdOk out) = Panics
   <-> Exists shortMarker (strings.Split out newline))
  /\ (~ Exists shortMarker (strings.Split out newline)
      <-> exists files, GetStatus (cmdOk out) = Returns (files, None)).
Proof.
  unfold GetStatus.
  destruct (StatusFacts.statusLoop_cases (strings.Split out newline) [])
    as [[Hbad ->]|(Hgood & r & -> & _)]; cbn [bind app].
  - split; [done|]. split; [done|]. by intros [files ?].
  - split; [done|]. split; [eauto | done].
Qed.

(** X2. The records of two outputs joined by a newline are the records of
    the first followed by the records of the second: the parser keeps the
    order of the lines and reads each line on its own. *)
Theorem GetStatus_concatenation (a b : string) :
  GetStatus (cmdOk (a +:+ String newline b))
  = do ra <- GetStatus (cmdOk a);
    do rb <- GetStatus (cmdOk b);
    Returns (fst ra ++ fst rb, None).
Proof.
  unfold GetStatus. rewrite StatusFacts.Split_append.
  generalize (strings.Split a newline) as la.
  generalize (strings.Split b newline) as lb. intros lb la.
  assert (Happ : forall files,
             statusLoop files (la ++ lb)
             = do f <- statusLoop files la; statusLoop f lb).
  { induction la as [|line la IH]; intros files; cbn; [done|].
    destruct (statusLine files line); cbn; auto. }
  rewrite Happ.
  destruct (statusLoop [] la) as [ra| |]; cbn [bind fst]; [|done|done].
  rewrite (StatusFacts.statusLoop_acc ra lb).
  destruct (statusLoop [] lb); reflexivity.
Qed.

(** X3. Every record that [GetStatus] returns names a non-empty path, and
    a record of an untracked file is never marked staged. *)
Theorem GetStatus_records
  (cmd : cmdOutput) (files : list FileStatus) (err : option string) :
  GetStatus cmd = Returns (files, err) -> Forall recordOk files.
Proof.
  destruct cmd as [out|msg]; cbn.
  - destruct (StatusFacts.statusLoop_cases (strings.Split out newline) [])
      as [[_ ->]|(_ & r & -> & _ & _ & Hok)]; cbn; [done|].
    by intros [= <- _].
  - intros [= <- _]. constructor.
Qed.

Lemma GetStatus_records_witness :
  Forall recordOk
    [mkFileStatus "a b.txt" StatusUntracked false;
     mkFileStatus "c.go" StatusAdded true].
Proof.
  exact (GetStatus_records
           (cmdOk ("? a b.txt" +:+ String newline
                     "1 A. N... 100644 100644 100644 1a2b 3c4d c.go"))
           _ None ltac:(vm_compute; reflexivity)).
Defined.

(** X4. [GetStatus] returns at most one record for each line of the
    output. *)
Theorem GetStatus_one_record_per_line
  (out : string) (files : list FileStatus) (err : option string) :
  GetStatus (cmdOk out) = Returns (files, err) ->
  (length files <= length (strings.Split out newline))%nat.
Proof.
  cbn.
  destruct (StatusFacts.statusLoop_cases (strings.Split out newline) [])
    as [[_ ->]|(_ & r & -> & _ & Hlen & _)]; cbn; [done|].
  by intros [= <- _].
Qed.

Lemma GetStatus_one_record_per_line_witness :
  (length [mkFileStatus "a b.txt" StatusUntracked false] <= 3)%nat.
Proof.
  exact (GetStatus_one_record_per_line
           ("# branch.head main" +:+ String newline
              ("? a b.txt" +:+ String newline ""))
           _ None ltac:(vm_compute; reflexivity)).
Defined.

Module TrimFacts.

Lemma ascii_tail_width (c : ascii) (rest : list N) :
  (N_of_ascii c < 128)%N ->
  strings.asciiSpace (N_of_ascii c) = false ->
  strings.spaceWidthRev (N_of_ascii c :: rest) = 0%nat.
Proof.
  intros Hlt Hns. unfold strings.spaceWidthRev. rewrite Hns.
  assert (H85 : (N_of_ascii c =? 0x85)%N = false) by (apply N.eqb_neq; lia).
  assert (HA0 : (N_of_ascii c =? 0xA0)%N = false) by (apply N.eqb_neq; lia).
  assert (H80 : (N_of_ascii c =? 0x80)%N = false) by (apply N.eqb_neq; lia).
  assert (H9F : (N_of_ascii c =? 0x9F)%N = false) by (apply N.eqb_neq; lia).
  assert (HA8 : (N_of_ascii c =? 0xA8)%N = false) by (apply N.eqb_neq; lia).
  assert (HA9 : (N_of_ascii c =? 0xA9)%N = false) by (apply N.eqb_neq; lia).
  assert (HAF : (N_of_ascii c =? 0xAF)%N = false) by (apply N.eqb_neq; lia).
  assert (Hge : (0x80 <=? N_of_ascii c)%N = false) by (apply N.leb_gt; lia).
  destruct rest as [|b [|a rest]]; unfold strings.isSpace2, strings.isSpace3;
    rewrite ?H85, ?HA0, ?H80, ?H9F, ?HA8, ?HA9, ?HAF, ?Hge;
    cbn [orb andb]; rewrite ?andb_false_r; reflexivity.
Qed.

Lemma ascii_head_width (c : ascii) (rest : list N) :
  (N_of_ascii c < 128)%N ->
  strings.asciiSpace (N_of_ascii c) = false ->
  strings.spaceWidth (N_of_ascii c :: rest) = 0%nat.
Proof.
  intros Hlt Hns. unfold strings.spaceWidth. rewrite Hns.
  assert (HC2 : (N_of_ascii c =? 0xC2)%N = false) by (apply N.eqb_neq; lia).
  assert (HE1 : (N_of_ascii c =? 0xE1)%N = false) by (apply N.eqb_neq; lia).
  assert (HE2 : (N_of_ascii c =? 0xE2)%N = false) by (apply N.eqb_neq; lia).
  assert (HE3 : (N_of_ascii c =? 0xE3)%N = false) by (apply N.eqb_neq; lia).
  destruct rest as [|b [|a rest]]; unfold strings.isSpace2, strings.isSpace3;
    rewrite ?HC2, ?HE1, ?HE2, ?HE3; reflexivity.
Qed.

(** A line that starts with [?] and ends plainly is not changed by
    [strings.TrimSpace]. *)
Lemma TrimSpace_question (p : string) :
  endsPlain p ->
  strings.TrimSpace (String "?" (String " " p)) = String "?" (String " " p).
Proof.
  intros (t & c & Hp & Hlt & Hns). unfold strings.TrimSpace.
  cbn [list_ascii_of_string]. rewrite Hp.
  cbn [strings.dropSpace map].
  rewrite (ascii_head_width "?" _ eq_refl eq_refl).
  set (P := "?"%char :: " "%char :: t).
  change ("?"%char :: " "%char :: t ++ [c]) with (P ++ [c]).
  rewrite (rev_unit P c). cbn [strings.dropSpace map].
  rewrite (ascii_tail_width c _ Hlt Hns). cbn [rev].
  rewrite rev_involutive. subst P. cbn [app string_of_list_ascii].
  by rewrite <- Hp, string_of_list_ascii_of_string.
Qed.

End TrimFacts.

(** X5. An untracked entry [? path] whose path ends in a plain ASCII byte
    yields one unstaged record of kind untracked with the path as it
    stands, inner spaces included. *)
Theorem untracked_path_verbatim (files : list FileStatus) (p : string) :
  endsPlain p ->
  statusLine files (String "?" (String " " p))
  = Returns (files ++ [mkFileStatus p StatusUntracked false]).
Proof.
  intros Hp. unfold statusLine. rewrite (TrimFacts.TrimSpace_question p Hp).
  change (String.eqb (String "?" (String " " p)) "") with false.
  unfold strings.HasPrefix.
  change (String.prefix "#" (String "?" (String " " p))) with false.
  change (String.prefix "1 " (String "?" (String " " p))) with false.
  change (String.prefix "2 " (String "?" (String " " p))) with false.
  replace (String.prefix "? " (String "?" (String " " p))) with true
    by (cbn; by destruct p).
  cbn [orb]. by rewrite StatusFacts.from_2.
Qed.

Lemma untracked_path_verbatim_witness :
  statusLine [] "? my notes.txt"
  = Returns [mkFileStatus "my notes.txt" StatusUntracked false].
Proof.
  exact (untracked_path_verbatim [] "my notes.txt"
           (ex_intro _ (list_ascii_of_string "my notes.tx")
              (ex_intro _ "t"%char
                 (conj eq_refl (conj eq_refl eq_refl))))).
Defined.

(** X6. The path of a record that [parseOrdinaryEntry] returns is never
    empty and never holds white space, and its kind is never
    untracked. *)
Theorem parseOrdinaryEntry_record (line : string) (f : FileStatus) :
  parseOrdinaryEntry line = Returns (Some f) ->
  Path f <> "" /\ plain (Path f) /\ Status f <> StatusUntracked.
Proof.
  destruct (LineFacts.parseOrdinaryEntry_cases line)
    as [[_ ->]|[(_ & _ & ->)|(_ & x & y & tl & path & _ & _ & Hne & Hplain
                               & ->)]]; try discriminate.
  destruct (negb (Ascii.eqb y ".")); [|destruct (negb (Ascii.eqb x "."))];
    intros [= <-]; cbn;
    auto using StatusFacts.mapStatusByte_tracked.
Qed.

Lemma parseOrdinaryEntry_record_witness :
  Path (mkFileStatus "c.go" StatusAdded true) <> ""
  /\ plain (Path (mkFileStatus "c.go" StatusAdded true))
  /\ Status (mkFileStatus "c.go" StatusAdded true) <> StatusUntracked.
Proof.
  exact (parseOrdinaryEntry_record
           "1 A. N... 100644 100644 100644 1a2b 3c4d c.go" _ eq_refl).
Defined.

(** ** Branch names *)

Module BranchFacts.

Lemma dropSpace_blank (forward : bool) (ws rest : list ascii) :
  Forall (fun c => strings.asciiSpace (N_of_ascii c) = true) ws ->
  strings.dropSpace forward (ws ++ rest) 0 = strings.dropSpace forward rest 0.
Proof.
  induction 1 as [|c ws Hc _ IH]; [done|].
  cbn [app strings.dropSpace map].
  replace ((if forward then strings.spaceWidth else strings.spaceWidthRev)
             (N_of_ascii c :: map N_of_ascii (ws ++ rest))) with 1%nat.
  - exact IH.
  - destruct forward; cbn [strings.spaceWidth strings.spaceWidthRev];
      by rewrite Hc.
Qed.

Lemma dropSpace_plain (forward : bool) (c : ascii) (rest : list ascii) :
  (N_of_ascii c < 128)%N ->
  strings.asciiSpace (N_of_ascii c) = false ->
  strings.dropSpace forward (c :: rest) 0 = c :: rest.
Proof.
  intros Hlt Hns. cbn [strings.dropSpace map]. destruct forward.
  - by rewrite TrimFacts.ascii_head_width.
  - by rewrite TrimFacts.ascii_tail_width.
Qed.

(** [strings.TrimSpace] removes the ASCII white space around a text that
    starts and ends with plain ASCII bytes, and nothing else. *)
Lemma TrimSpace_core (ws1 core ws2 : string) :
  blank ws1 -> blank ws2 -> startsPlain core -> endsPlain core ->
  strings.TrimSpace (ws1 +:+ core +:+ ws2) = core.
Proof.
  intros H1 H2 (a & t & -> & Ha & Hna) (t' & c & Hcore & Hc & Hnc).
  unfold strings.TrimSpace.
  rewrite !ParserFacts.list_ascii_app.
  rewrite (dropSpace_blank true _ _ H1).
  cbn [list_ascii_of_string app].
  rewrite (dropSpace_plain true a _ Ha Hna).
  change (a :: list_ascii_of_string t ++ list_ascii_of_string ws2)
    with (list_ascii_of_string (String a t) ++ list_ascii_of_string ws2).
  rewrite Hcore, rev_app_distr, rev_unit.
  rewrite dropSpace_blank.
  2: { apply Forall_forall. intros x Hx. unfold blank in H2.
       rewrite Forall_forall in H2. apply H2.
       apply list_elem_of_In, in_rev. by apply list_elem_of_In. }
  rewrite (dropSpace_plain false c _ Hc Hnc).
  change (c :: rev t') with (rev [c] ++ rev t').
  rewrite <- rev_app_distr, rev_involutive, <- Hcore.
  apply string_of_list_ascii_of_string.
Qed.

Lemma HasPrefix_append (p s : string) : strings.HasPrefix (p +:+ s) p = true.
Proof.
  unfold strings.HasPrefix. induction p as [|c p IH].
  - by destruct s.
  - change (String c p +:+ s) with (String c (p +:+ s)).
    cbn [String.prefix]. destruct (ascii_dec c c); [exact IH | done].
Qed.

Lemma substring_append (p s : string) :
  String.substring (String.length p)
    (String.length (p +:+ s) - String.length p) (p +:+ s) = s.
Proof.
  induction p as [|c p IH].
  - change ("" +:+ s) with s. cbn [String.length].
    rewrite Nat.sub_0_r. apply StatusFacts.substring_all.
  - change (String c p +:+ s) with (String c (p +:+ s)).
    cbn [String.length String.substring]. exact IH.
Qed.

Lemma TrimPrefix_append (p s : string) : TrimPrefix (p +:+ s) p = s.
Proof.
  unfold TrimPrefix. rewrite HasPrefix_append. apply substring_append.
Qed.

End BranchFacts.

(** X7. When [git rev-parse] succeeds, the branch is its output without
    the surrounding white space.  When it fails, a [HEAD] file that holds
    [ref: refs/heads/] and a branch name gives that name, any other
    content is returned trimmed, and an unreadable file gives
    [unknown]. *)
Theorem FindBranch_resolution (b ws ws' msg : string) :
  blank ws -> blank ws' -> startsPlain b -> endsPlain b ->
  FindBranchOf (cmdOk (ws +:+ b +:+ ws')) None = b
  /\ FindBranchOf (cmdErr msg) (Some ("ref: refs/heads/" +:+ b +:+ ws')) = b
  /\ (strings.HasPrefix b "ref: refs/heads/" = false ->
      FindBranchOf (cmdErr msg) (Some (ws +:+ b +:+ ws')) = b)
  /\ FindBranchOf (cmdErr msg) None = "unknown".
Proof.
  intros Hws Hws' Hstart Hend. split; [|split; [|split]].
  - cbn. by apply BranchFacts.TrimSpace_core.
  - unfold FindBranchOf.
    replace ("ref: refs/heads/" +:+ b +:+ ws')
      with ("" +:+ ("ref: refs/heads/" +:+ b) +:+ ws').
    2: { cbn. clear. by induction b. }
    rewrite BranchFacts.TrimSpace_core; try done.
    + by rewrite BranchFacts.HasPrefix_append, BranchFacts.TrimPrefix_append.
    + constructor.
    + exists "r"%char, ("ef: refs/heads/" +:+ b). by repeat split.
    + destruct Hend as (t & c & Hb & Hc). 
      exists (list_ascii_of_string "ref: refs/heads/" ++ t), c.
      split; [|done]. rewrite ParserFacts.list_ascii_app, Hb.
      by rewrite app_assoc.
  - intros Hno. unfold FindBranchOf.
    rewrite BranchFacts.TrimSpace_core by done. by rewrite Hno.
  - reflexivity.
Qed.

Lemma FindBranch_resolution_witness :
  FindBranchOf (cmdOk ("" +:+ "main" +:+ String newline "")) None = "main"
  /\ FindBranchOf (cmdErr "exit status 128")
       (Some ("ref: refs/heads/" +:+ "main" +:+ String newline ""))
     = "main"
  /\ (strings.HasPrefix "main" "ref: refs/heads/" = false ->
      FindBranchOf (cmdErr "exit status 128")
        (Some ("" +:+ "main" +:+ String newline "")) = "main")
  /\ FindBranchOf (cmdErr "exit status 128") None = "unknown".
Proof.
  apply (FindBranch_resolution "main" "" (String newline "")
           "exit status 128").
  - constructor.
  - repeat constructor.
  - exists "m"%char, "ain". by repeat split.
  - exists (list_ascii_of_string "mai"), "n"%char. by repeat split.
Defined.

(** ** What the discoverer reports *)

Module DiscoveryFacts.

Lemma Forall_perm {A} (Q : A -> Prop) (l1 l2 : list A) :
  Permutation l1 l2 -> Forall Q l1 -> Forall Q l2.
Proof.
  intros Hp H1. apply Forall_forall. intros x Hx.
  rewrite Forall_forall in H1. apply H1. by rewrite Hp.
Qed.

Lemma rooted_Clean (p : string) :
  filepath.rooted p = true -> filepath.rooted (filepath.Clean p) = true.
Proof.
  intros Hp. unfold filepath.Clean.
  destruct p as [|c p]; [discriminate|].
  change (String.eqb (String c p) "") with false. cbn match.
  by rewrite Hp.
Qed.

Lemma rooted_Join (a b : string) :
  filepath.rooted a = true -> filepath.rooted (filepath.Join [a; b]) = true.
Proof.
  intros Ha. destruct a as [|c a]; [discriminate|].
  unfold filepath.Join.
  change (String.eqb (String c a) "") with false. cbn match.
  apply rooted_Clean. exact Ha.
Qed.

Lemma rooted_named (p : string) :
  filepath.rooted p = true -> p <> "." /\ p <> "".
Proof.
  destruct p as [|c p]; [discriminate|]. cbn.
  destruct (Ascii.eqb_spec c filepath.slash) as [->|]; [|discriminate].
  intros _. split; discriminate.
Qed.

Lemma buildRepo_fields (w : World) (root q : string) (r : Repo) :
  buildRepo w root q = Returns r ->
  Repo_Path r = q
  /\ (q <> "." -> q <> "" -> RelPath r <> "." /\ RelPath r <> "").
Proof.
  unfold buildRepo. intros H.
  apply bind_Returns in H as (res & _ & [= <-]). cbn.
  split; [done|]. intros Hdot Hempty.
  set (rel := match filepath.Rel root q with None => q | Some rel => rel end).
  destruct (String.eqb_spec rel "") as [->|Hne]; [done|].
  destruct (String.eqb_spec rel ".") as [->|Hnd]; done.
Qed.

Section Scan.
Variables (w : World) (root : string) (P : Repo -> Prop).
Hypothesis Hbuild :
  forall q r,
    isGitRepo w q = true ->
    (filepath.rooted root = true -> filepath.rooted q = true) ->
    buildRepo w root q = Returns r -> P r.

Lemma found_inv (q : string) (acc l : list Repo) :
  (filepath.rooted root = true -> filepath.rooted q = true) ->
  Forall P acc ->
  (if isGitRepo w q
   then do r <- buildRepo w root q; Returns (acc ++ [r])
   else Returns acc) = Returns l ->
  Forall P l /\ exists ext, l = acc ++ ext.
Proof.
  intros Hq Hacc. destruct (isGitRepo w q) eqn:Hgit.
  - intros H. apply bind_Returns in H as (r & Hr & [= <-]). split.
    + apply Forall_app. split; [done|]. constructor; [|constructor].
      by eapply Hbuild.
    + by eexists.
  - intros [= <-]. split; [done|]. exists []. by rewrite app_nil_r.
Qed.

Lemma scanDeep_inv (sub : string) (subEntries : list DirEntry) :
  (filepath.rooted root = true -> filepath.rooted sub = true) ->
  forall acc l,
    Forall P acc ->
    scanDeep w root sub subEntries acc = Returns l ->
    Forall P l /\ exists ext, l = acc ++ ext.
Proof.
  intros Hsub. induction subEntries as [|e rest IH]; intros acc l Hacc H.
  - injection H as <-. split; [done|]. exists []. by rewrite app_nil_r.
  - cbn [scanDeep] in H.
    destruct (skipped e) as [[|]| |]; cbn [bind] in H; try discriminate.
    + by apply IH.
    + apply bind_Returns in H as (acc' & Hfound & H).
      apply found_inv in Hfound as [Hacc' [ext ->]]; [|auto using rooted_Join|done].
      apply IH in H as [Hl [ext' ->]]; [|done].
      split; [done|]. exists (ext ++ ext'). by rewrite app_assoc.
Qed.

Lemma scanEntries_inv (entries : list DirEntry) :
  forall acc l,
    Forall P acc ->
    scanEntries w root entries acc = Returns l ->
    Forall P l /\ exists ext, l = acc ++ ext.
Proof.
  induction entries as [|e rest IH]; intros acc l Hacc H.
  - injection H as <-. split; [done|]. exists []. by rewrite app_nil_r.
  - cbn [scanEntries] in H.
    destruct (skipped e) as [[|]| |]; cbn [bind] in H; try discriminate.
    + by apply IH.
    + apply bind_Returns in H as (acc1 & Hfound & H).
      apply found_inv in Hfound as [Hacc1 [ext1 ->]]; [|auto using rooted_Join|done].
      apply bind_Returns in H as (acc2 & Hdeep & H).
      assert (Hacc2 : Forall P acc2 /\ exists ext, acc2 = (acc ++ ext1) ++ ext).
      { destruct (ReadDir w (filepath.Join [root; Name e])) as [subEntries|].
        - eapply scanDeep_inv; [|done|exact Hdeep]. auto using rooted_Join.
        - injection Hdeep as <-. split; [done|]. exists [].
          by rewrite app_nil_r. }
      destruct Hacc2 as [Hacc2 [ext2 ->]].
      apply IH in H as [Hl [ext' ->]]; [|done].
      split; [done|]. exists (ext1 ++ ext2 ++ ext'). by rewrite !app_assoc.
Qed.

(** Everything that [ScanRepos] returns went through [buildRepo], and the
    root repository, when there is one, is in the list. *)
Lemma ScanRepos_inv (l : list Repo) :
  ScanRepos w root = Returns l ->
  Forall P l
  /\ (isGitRepo w root = true ->
      exists r, buildRepo w root root = Returns r /\ r ∈ l).
Proof.
  unfold ScanRepos. intros H.
  apply bind_Returns in H as (first & Hfirst & H).
  assert (Hfirst' : Forall P first
                    /\ (isGitRepo w root = true ->
                        exists r, buildRepo w root root = Returns r
                                  /\ r ∈ first)).
  { destruct (isGitRepo w root) eqn:Hgit.
    - apply bind_Returns in Hfirst as (r & Hr & [= <-]). split.
      + constructor; [|constructor]. by eapply Hbuild.
      + intros _. exists r. split; [done | by left].
    - injection Hfirst as <-. split; [constructor | done]. }
  destruct Hfirst' as [HP Hroot].
  destruct (ReadDir w root) as [entries|].
  - apply bind_Returns in H as (found & Hfound & [= <-]).
    apply scanEntries_inv in Hfound as [Hall [ext ->]]; [|done].
    split.
    + eapply Forall_perm; [|exact Hall].
      symmetry. apply OrderFacts.Slice_Permutation.
    + intros Hgit. destruct (Hroot Hgit) as (r & Hr & Hin).
      exists r. split; [done|].
      rewrite (OrderFacts.Slice_Permutation repoLess (first ++ ext)).
      apply elem_of_app. by left.
  - injection H as <-. by split.
Qed.
End Scan.

(** Sorting by a key that [repoLess] reads like [<]. *)
Lemma sink_key (x : Repo) (rprefix : list Repo) :
  RelPath x <> "." -> Forall (fun r => RelPath r <> ".") rprefix ->
  map RelPath (sort.sink repoLess x rprefix)
  = sort.sink String.ltb (RelPath x) (map RelPath rprefix).
Proof.
  intros Hx. induction 1 as [|y rest Hy _ IH]; [done|]. cbn.
  unfold repoLess at 1.
  destruct (String.eqb_spec (RelPath x) ".") as [?|_]; [done|].
  destruct (String.eqb_spec (RelPath y) ".") as [?|_]; [done|].
  destruct (String.ltb (RelPath x) (RelPath y)); cbn; [by rewrite IH | done].
Qed.

Lemma Slice_key (l : list Repo) :
  Forall (fun r => RelPath r <> ".") l ->
  map RelPath (sort.Slice repoLess l) = sort.Strings (map RelPath l).
Proof.
  intros Hl. unfold sort.Strings, sort.Slice. rewrite map_rev. f_equal.
  assert (Hgen : forall acc,
             Forall (fun r => RelPath r <> ".") acc ->
             map RelPath (foldl (fun rp x => sort.sink repoLess x rp) acc l)
             = foldl (fun rp x => sort.sink String.ltb x rp)
                     (map RelPath acc) (map RelPath l)).
  { induction Hl as [|x l Hx _ IH]; intros acc Hacc; [done|]. cbn.
    rewrite IH.
    - by rewrite sink_key.
    - eapply Forall_perm; [symmetry; apply OrderFacts.sink_Permutation|].
      by constructor. }
  by apply (Hgen []).
Qed.

End DiscoveryFacts.

(** X8. For an absolute scan root, no repository is listed under the
    display path [.] or under an empty one, and the list that
    [ScanRepos] returns is in ascending byte order of the display
    paths. *)
Theorem ScanRepos_sorted (w : World) (root : string) (l : list Repo) :
  filepath.rooted root = true ->
  ScanRepos w root = Returns l ->
  Sorted le (map RelPath l)
  /\ Forall (fun r => RelPath r <> "." /\ RelPath r <> "") l.
Proof.
  intros Hroot H.
  assert (Hall : Forall (fun r => RelPath r <> "." /\ RelPath r <> "") l).
  { eapply (DiscoveryFacts.ScanRepos_inv w root); [|exact H].
    intros q r _ Hq Hr.
    apply DiscoveryFacts.buildRepo_fields in Hr as [_ Hr].
    by apply Hr; apply (DiscoveryFacts.rooted_named q); auto. }
  split; [|exact Hall].
  unfold ScanRepos in H. apply bind_Returns in H as (first & Hfirst & H).
  destruct (ReadDir w root) as [entries|].
  - apply bind_Returns in H as (found & _ & [= <-]).
    rewrite DiscoveryFacts.Slice_key; [apply OrderFacts.Strings_Sorted|].
    eapply DiscoveryFacts.Forall_perm;
      [apply OrderFacts.Slice_Permutation|].
    eapply Forall_impl; [exact Hall|]. by intros r [? _].
  - injection H as <-. destruct (isGitRepo w root).
    + apply bind_Returns in Hfirst as (r & _ & [= <-]). by repeat constructor.
    + injection Hfirst as <-. constructor.
Qed.

Lemma ScanRepos_sorted_witness :
  Sorted le (map RelPath [mkRepo "/w/-x" "-x" "main" [];
                           mkRepo "/w" "/w" "main" []])
  /\ Forall (fun r => RelPath r <> "." /\ RelPath r <> "")
       [mkRepo "/w/-x" "-x" "main" []; mkRepo "/w" "/w" "main" []].
Proof.
  exact (ScanRepos_sorted dashWorld "/w" _ eq_refl
           ltac:(vm_compute; reflexivity)).
Defined.

(** X9. When the scan root is itself a repository, the list that
    [ScanRepos] returns holds it, with the root path as its display
    path. *)
Theorem ScanRepos_lists_root (w : World) (root : string) (l : list Repo) :
  isGitRepo w root = true ->
  ScanRepos w root = Returns l ->
  exists r, r ∈ l /\ Repo_Path r = root /\ RelPath r = root.
Proof.
  intros Hgit H.
  destruct (DiscoveryFacts.ScanRepos_inv w root (fun _ => True)
              ltac:(done) l H) as [_ Hr].
  destruct (Hr Hgit) as (r & Hbuild & Hin).
  exists r. split; [done|].
  unfold buildRepo in Hbuild.
  apply bind_Returns in Hbuild as (res & _ & [= <-]). cbn.
  split; [done|]. unfold filepath.Rel. by rewrite String.eqb_refl.
Qed.

Lemma ScanRepos_lists_root_witness :
  exists r,
    r ∈ [mkRepo "/w/-x" "-x" "main" []; mkRepo "/w" "/w" "main" []]
    /\ Repo_Path r = "/w" /\ RelPath r = "/w".
Proof.
  exact (ScanRepos_lists_root dashWorld "/w" _ eq_refl
           ltac:(vm_compute; reflexivity)).
Defined.

(** ** Navigation *)

Module NavFacts.

Lemma clamp_cursorOk (vis : list Z) (cur : Z) :
  0 <= cur ->
  cursorOk vis (if len vis <=? cur then Z.max 0 (len vis - 1) else cur).
Proof.
  intros Hcur. unfold cursorOk, len.
  destruct (Z.leb_spec (Z.of_nat (length vis)) cur).
  - destruct vis as [|z vis]; cbn [length].
    + split; [lia|]. right. by split.
    + split; [lia|]. left. lia.
  - split; [lia|]. left. lia.
Qed.

(** [rebuildVisible] establishes the consistency of the tree. *)
Lemma rebuildVisible_consistent (ns : list TreeNode) (vis0 : list Z) (cur : Z) :
  wf_nodes ns -> 0 <= cur ->
  exists vis,
    rebuildVisible (mkTreeModel ns vis0 cur)
    = Returns (mkTreeModel ns vis
                 (if len vis <=? cur then Z.max 0 (len vis - 1) else cur))
    /\ visibleOk ns vis
    /\ consistent (mkTreeModel ns vis
                     (if len vis <=? cur then Z.max 0 (len vis - 1) else cur)).
Proof.
  intros Hwf Hcur.
  destruct (VisibleFacts.rebuildVisible_spec ns Hwf vis0 cur)
    as (vis & Hrun & Hmem & Hrange & Hsorted).
  exists vis. split; [done|].
  assert (Hvis : visibleOk ns vis) by done.
  split; [done|]. split; [done|]. split; [done|].
  by apply clamp_cursorOk.
Qed.

Lemma NewTreeModel_consistent (o : MapOrder) (rs : list Repo) (tm : TreeModel) :
  NewTreeModel o rs = Returns tm -> consistent tm.
Proof.
  unfold NewTreeModel.
  destruct (BuildFacts.build_nodes o rs) as (ns & -> & Hwf & _). cbn [bind].
  destruct (rebuildVisible_consistent ns [] 0 Hwf) as (vis & -> & _ & Hc);
    [lia|].
  by intros [= <-].
Qed.

Lemma selected_in_range (tm : TreeModel) :
  consistent tm -> visible tm <> [] ->
  exists i n,
    visible tm !! Z.to_nat (cursor tm) = Some i
    /\ 0 <= i
    /\ nodes tm !! Z.to_nat i = Some n
    /\ SelectedNode tm = Returns (Some i).
Proof.
  intros (Hwf & (Hmem & Hrange & Hsorted) & Hcur & Hrow) Hne.
  destruct Hrow as [Hrow|[? _]]; [|done].
  destruct (visible tm !! Z.to_nat (cursor tm)) as [i|] eqn:Hi.
  2: { apply lookup_ge_None in Hi. unfold len in Hrow. lia. }
  assert (Hin : 0 <= i < len (nodes tm))
    by (apply Hrange; by eapply list_elem_of_lookup_2).
  destruct (nodes tm !! Z.to_nat i) as [n|] eqn:Hn.
  2: { apply lookup_ge_None in Hn. unfold len in Hin. lia. }
  exists i, n. split; [done|]. split; [lia|]. split; [done|].
  unfold SelectedNode.
  replace (len (visible tm) =? 0) with false
    by (symmetry; apply Z.eqb_neq; lia).
  replace (cursor tm <? 0) with false by (symmetry; apply Z.ltb_ge; lia).
  replace (len (visible tm) <=? cursor tm) with false
    by (symmetry; apply Z.leb_gt; lia).
  cbn [orb].
  rewrite (proj2 (index_Returns (visible tm) (cursor tm) i)) by done.
  cbn [bind].
  rewrite (proj2 (index_Returns (nodes tm) i n)) by (split; [lia | done]).
  reflexivity.
Qed.

Lemma ToggleCollapse_consistent (tm : TreeModel) :
  consistent tm ->
  exists tm', ToggleCollapse tm = Returns tm' /\ consistent tm'.
Proof.
  intros Hc. unfold ToggleCollapse.
  destruct (decide (visible tm = [])) as [Hvis|Hvis].
  { exists tm. split; [|done]. unfold SelectedNode. by rewrite Hvis. }
  destruct (selected_in_range tm Hc Hvis) as (i & n & _ & Hi & Hn & ->).
  cbn [bind].
  rewrite (proj2 (index_Returns (nodes tm) i n)) by done. cbn [bind].
  destruct Hc as (Hwf & Hvisible & Hcur & Hrow).
  destruct (Kind n); [| |by exists tm].
  all: destruct (rebuildVisible_consistent
                   (<[Z.to_nat i := toggled n]> (nodes tm)) (visible tm)
                   (cursor tm)) as (vis' & -> & _ & Hc');
    [by apply wf_nodes_toggle | done | eauto].
Qed.

Lemma reachable_inv (o : MapOrder) (tm : TreeModel) :
  reachable o tm -> consistent tm.
Proof.
  induction 1 as [rs tm Hnew|tm _ IH|tm _ IH|tm tm' _ IH Htoggle].
  - by eapply NewTreeModel_consistent.
  - destruct IH as (Hwf & Hvis & Hcur & Hrow). unfold MoveUp.
    destruct (Z.ltb_spec 0 (cursor tm)); [|done].
    split; [done|]. split; [done|]. cbn. split; [lia|].
    destruct Hrow as [?|[_ ?]]; [left|]; lia.
  - destruct IH as (Hwf & Hvis & Hcur & Hrow). unfold MoveDown.
    destruct (Z.ltb_spec (cursor tm) (len (visible tm) - 1)); [|done].
    split; [done|]. split; [done|]. cbn. split; [lia|]. left. lia.
  - destruct (ToggleCollapse_consistent tm IH) as (tm'' & Hrun & Hc).
    rewrite Hrun in Htoggle. by injection Htoggle as <-.
Qed.

End NavFacts.

(** X10. In every tree that the program reaches, parents precede their
    children, the visibility list holds exactly the nodes without a
    collapsed ancestor, in ascending order, and the cursor is a row of
    that list (0 when the list is empty). *)
Theorem reachable_consistent (o : MapOrder) (tm : TreeModel) :
  reachable o tm -> consistent tm.
Proof. apply NavFacts.reachable_inv. Qed.

Lemma collapsedSrc_reachable : reachable idOrder collapsedSrc.
Proof.
  apply (reach_toggle idOrder (MoveDown projTree)); [|reflexivity].
  apply reach_down. apply (reach_new idOrder [projRepo]).
  vm_compute. reflexivity.
Defined.

Lemma reachable_consistent_witness : consistent collapsedSrc.
Proof. exact (reachable_consistent idOrder collapsedSrc collapsedSrc_reachable). Defined.

(** X11. No sequence of key presses makes the tree panic: on a reached
    tree [ToggleCollapse] returns, and [SelectedNode] returns the node of
    the cursor row, or no node exactly when nothing is visible. *)
Theorem navigation_never_panics (o : MapOrder) (tm : TreeModel) :
  reachable o tm ->
  (exists tm', ToggleCollapse tm = Returns tm' /\ reachable o tm')
  /\ (visible tm = [] -> SelectedNode tm = Returns None)
  /\ (visible tm <> [] ->
      exists i n,
        SelectedNode tm = Returns (Some i)
        /\ visible tm !! Z.to_nat (cursor tm) = Some i
        /\ nodes tm !! Z.to_nat i = Some n).
Proof.
  intros Hreach. pose proof (NavFacts.reachable_inv o tm Hreach) as Hc.
  split; [|split].
  - destruct (NavFacts.ToggleCollapse_consistent tm Hc) as (tm' & Hrun & _).
    exists tm'. split; [done|]. by eapply reach_toggle.
  - intros Hempty. unfold SelectedNode. by rewrite Hempty.
  - intros Hne.
    destruct (NavFacts.selected_in_range tm Hc Hne) as (i & n & ? & ? & ? & ?).
    by exists i, n.
Qed.

Lemma navigation_never_panics_witness :
  (exists tm', ToggleCollapse collapsedSrc = Returns tm'
               /\ reachable idOrder tm')
  /\ (visible collapsedSrc = [] -> SelectedNode collapsedSrc = Returns None)
  /\ (visible collapsedSrc <> [] ->
      exists i n,
        SelectedNode collapsedSrc = Returns (Some i)
        /\ visible collapsedSrc !! Z.to_nat (cursor collapsedSrc) = Some i
        /\ nodes collapsedSrc !! Z.to_nat i = Some n).
Proof.
  exact (navigation_never_panics idOrder collapsedSrc collapsedSrc_reachable).
Defined.

Module SelectionFacts.

#[local] Instance lt_antisym : AntiSymm eq Z.lt.
Proof. intros x y ? ?. lia. Qed.

Lemma sorted_NoDup (l : list Z) : StronglySorted Z.lt l -> NoDup l.
Proof.
  induction 1 as [|x l _ IH Hx]; constructor; [|done].
  intros Hin. rewrite Forall_forall in Hx. apply Hx in Hin. lia.
Qed.

(** A strictly ascending list is determined by its members. *)
Lemma sorted_members (l1 l2 : list Z) :
  StronglySorted Z.lt l1 -> StronglySorted Z.lt l2 ->
  (forall z, z ∈ l1 <-> z ∈ l2) -> l1 = l2.
Proof.
  intros H1 H2 Hmem. apply (StronglySorted_unique Z.lt); [done..|].
  apply NoDup_Permutation; auto using sorted_NoDup.
Qed.

Lemma visibleOk_unique (ns : list TreeNode) (v1 v2 : list Z) :
  visibleOk ns v1 -> visibleOk ns v2 -> v1 = v2.
Proof.
  intros (Hm1 & Hr1 & Hs1) (Hm2 & Hr2 & Hs2).
  apply sorted_members; [done..|].
  assert (Hone : forall va vb : list Z,
             (forall k n, ns !! k = Some n ->
                          Z.of_nat k ∈ va <-> expandedAbove ns n) ->
             (forall z, z ∈ va -> 0 <= z < len ns) ->
             (forall k n, ns !! k = Some n ->
                          Z.of_nat k ∈ vb <-> expandedAbove ns n) ->
             forall z, z ∈ va -> z ∈ vb).
  { intros va vb Hma Hra Hmb z Hz. pose proof (Hra z Hz) as Hrange.
    destruct (ns !! Z.to_nat z) as [n|] eqn:Hn.
    2: { apply lookup_ge_None in Hn. unfold len in Hrange. lia. }
    replace z with (Z.of_nat (Z.to_nat z)) in * by lia.
    rewrite Nat2Z.id in Hn.
    apply (Hmb _ n Hn). by apply (Hma _ n Hn). }
  intros z. split; eauto.
Qed.

Lemma seq_sorted (len start : nat) :
  StronglySorted Z.lt (map Z.of_nat (seq start len)).
Proof.
  revert start. induction len as [|len IH]; intros start; cbn;
    constructor; [apply IH|].
  apply Forall_forall. intros z Hz.
  apply list_elem_of_In, in_map_iff in Hz as (k & <- & Hk).
  apply in_seq in Hk. lia.
Qed.

(** On a node array without a collapsed node everything is visible. *)
Lemma expanded_visibleOk (ns : list TreeNode) :
  Forall (fun n => Collapsed n = false) ns ->
  visibleOk ns (map Z.of_nat (seq 0 (length ns))).
Proof.
  intros Hexp. split; [|split; [|apply seq_sorted]].
  - intros k n Hk. split.
    + intros _ a p _ Hp. rewrite Forall_lookup in Hexp. by eapply Hexp.
    + intros _. apply list_elem_of_In, in_map, in_seq.
      apply lookup_lt_Some in Hk. lia.
  - intros z Hz. apply list_elem_of_In, in_map_iff in Hz as (k & <- & Hk).
    apply in_seq in Hk. unfold len. lia.
Qed.

Lemma toggled_toggled (n : TreeNode) : toggled (toggled n) = n.
Proof. by destruct n as [? ? ? ? ? ? [] ?]. Qed.

(** Whether a node has a collapsed ancestor is read off its parent
    index. *)
Lemma expandedAbove_parent (ns : list TreeNode) (m n : TreeNode) :
  ParentDir m = ParentDir n -> expandedAbove ns m -> expandedAbove ns n.
Proof.
  intros Hp Hm a p Ha Hlook. apply (Hm a p); [|done].
  inversion Ha as [Hpos|q a' Hpos Hq Hup]; subst.
  - rewrite <- Hp. constructor. lia.
  - eapply ancestor_above; [lia | by rewrite Hp | done].
Qed.

Section Toggle.
Variables (ns : list TreeNode) (k : nat) (n : TreeNode).
Hypothesis Hwf : wf_nodes ns.
Hypothesis Hn : ns !! k = Some n.

(** Toggling node [k] changes nothing for the nodes up to [k]. *)
Lemma toggle_above (j : nat) :
  forall x,
    (j <= k)%nat -> ns !! j = Some x ->
    expandedAbove (<[k := toggled n]> ns) x <-> expandedAbove ns x.
Proof.
  induction j as [j IH] using lt_wf_ind. intros x Hj Hx.
  destruct (Hwf j x Hx) as [Hparent _].
  destruct (Z.lt_ge_cases (ParentDir x) 0) as [Hroot|Hpos].
  { split; intros _; by apply VisibleFacts.expandedAbove_root. }
  destruct (ns !! Z.to_nat (ParentDir x)) as [p|] eqn:Hp.
  2: { apply lookup_ge_None in Hp. apply lookup_lt_Some in Hx. lia. }
  assert (Hp' : <[k := toggled n]> ns !! Z.to_nat (ParentDir x) = Some p)
    by (rewrite list_lookup_insert_ne by lia; done).
  rewrite (VisibleFacts.expandedAbove_step _ x p Hpos Hp').
  rewrite (VisibleFacts.expandedAbove_step _ x p Hpos Hp).
  rewrite (IH (Z.to_nat (ParentDir x))); [done|lia|lia|done].
Qed.

Lemma toggle_visible_prefix (vis vis' : list Z) (z : Z) :
  visibleOk ns vis -> visibleOk (<[k := toggled n]> ns) vis' ->
  z <= Z.of_nat k -> z ∈ vis <-> z ∈ vis'.
Proof.
  intros (Hm & Hr & _) (Hm' & Hr' & _) Hz.
  assert (Hlen : len (<[k := toggled n]> ns) = len ns)
    by (unfold len; by rewrite length_insert).
  assert (Hnode : forall j x, (j <= k)%nat -> ns !! j = Some x ->
             Z.of_nat j ∈ vis <-> Z.of_nat j ∈ vis').
  { intros j x Hj Hx. rewrite (Hm j x Hx).
    destruct (decide (j = k)) as [->|Hne].
    - rewrite (Hm' k (toggled n))
        by (apply list_lookup_insert_eq; by eapply lookup_lt_Some).
      rewrite Hn in Hx. injection Hx as <-.
      rewrite <- (toggle_above k n (Nat.le_refl k) Hn).
      split; by apply expandedAbove_parent.
    - rewrite (Hm' j x) by (rewrite list_lookup_insert_ne; done).
      by rewrite (toggle_above j x Hj Hx). }
  assert (Hin : forall v : list Z,
             z ∈ v -> (forall y, y ∈ v -> 0 <= y < len ns) ->
             exists j x, z = Z.of_nat j /\ (j <= k)%nat /\ ns !! j = Some x).
  { intros v Hv Hrange. pose proof (Hrange z Hv) as Hzr.
    destruct (ns !! Z.to_nat z) as [x|] eqn:Hx.
    2: { apply lookup_ge_None in Hx. unfold len in Hzr. lia. }
    exists (Z.to_nat z), x. split; [lia|]. split; [lia | done]. }
  split; intros Hv.
  - destruct (Hin vis Hv Hr) as (j & x & -> & Hj & Hx).
    by apply (Hnode j x).
  - destruct (Hin vis' Hv) as (j & x & -> & Hj & Hx);
      [by rewrite <- Hlen|].
    by apply (Hnode j x).
Qed.

(** The toggled node keeps its row. *)
Lemma toggle_row (vis vis' : list Z) (c : nat) :
  visibleOk ns vis -> visibleOk (<[k := toggled n]> ns) vis' ->
  vis !! c = Some (Z.of_nat k) -> vis' !! c = Some (Z.of_nat k).
Proof.
  intros Hv Hv' Hc.
  pose proof (fun z => toggle_visible_prefix vis vis' z Hv Hv') as Hpre.
  pose proof Hv as (_ & _ & Hs). pose proof Hv' as (_ & _ & Hs').
  assert (Hin' : Z.of_nat k ∈ vis').
  { apply (Hpre (Z.of_nat k)); [lia|]. by eapply list_elem_of_lookup_2. }
  clear Hv Hv'.
  apply list_elem_of_split in Hin' as (a' & b' & ->).
  pose proof (take_drop_middle vis c _ Hc) as Hsplit.
  assert (Hlen : length (take c vis) = c).
  { rewrite length_take. apply lookup_lt_Some in Hc. lia. }
  revert Hsplit Hlen.
  generalize (take c vis) as a. generalize (drop (S c) vis) as b.
  intros b a <- Hlen.
  apply StronglySorted_app in Hs as (Hab & Hsa & Hsb).
  apply StronglySorted_app in Hs' as (Hab' & Hsa' & Hsb').
  assert (Ha : a = a').
  { apply sorted_members; [done..|]. intros z.
    apply StronglySorted_inv in Hsb as [_ Hb].
    apply StronglySorted_inv in Hsb' as [_ Hb'].
    rewrite Forall_forall in Hb, Hb'.
    split; intros Hz.
    - assert (Hlt : z < Z.of_nat k) by (apply Hab; [done | by left]).
      assert (Hz' : z ∈ a' ++ Z.of_nat k :: b').
      { apply (Hpre z); [lia|]. apply elem_of_app. by left. }
      apply elem_of_app in Hz' as [?|[->|Hzb]%elem_of_cons]; [done|lia|].
      apply Hb' in Hzb. lia.
    - assert (Hlt : z < Z.of_nat k) by (apply Hab'; [done | by left]).
      assert (Hz' : z ∈ a ++ Z.of_nat k :: b).
      { apply (Hpre z); [lia|]. apply elem_of_app. by left. }
      apply elem_of_app in Hz' as [?|[->|Hzb]%elem_of_cons]; [done|lia|].
      apply Hb in Hzb. lia. }
  subst a'. rewrite lookup_app_r by lia.
  by replace (c - length a)%nat with 0%nat by lia.
Qed.
End Toggle.

End SelectionFacts.

Module ToggleFacts.

(** What [ToggleCollapse] does on a consistent tree with a selection. *)
Lemma ToggleCollapse_shape (tm : TreeModel) :
  consistent tm -> visible tm <> [] ->
  exists i n,
    SelectedNode tm = Returns (Some i)
    /\ 0 <= i
    /\ nodes tm !! Z.to_nat i = Some n
    /\ visible tm !! Z.to_nat (cursor tm) = Some i
    /\ ((Kind n = NodeFile /\ ToggleCollapse tm = Returns tm)
        \/ (Kind n <> NodeFile
            /\ exists vis',
                 ToggleCollapse tm
                 = Returns (mkTreeModel
                              (<[Z.to_nat i := toggled n]> (nodes tm))
                              vis' (cursor tm))
                 /\ visibleOk (<[Z.to_nat i := toggled n]> (nodes tm)) vis'
                 /\ vis' !! Z.to_nat (cursor tm) = Some i)).
Proof.
  intros Hc Hne.
  destruct (NavFacts.selected_in_range tm Hc Hne)
    as (i & n & Hrow & Hi & Hn & Hsel).
  exists i, n. do 4 (split; [done|]).
  unfold ToggleCollapse. rewrite Hsel. cbn [bind].
  rewrite (proj2 (index_Returns (nodes tm) i n)) by done. cbn [bind].
  destruct Hc as (Hwf & Hvis & Hcur & _).
  assert (Htoggle :
    exists vis',
      rebuildVisible (mkTreeModel (<[Z.to_nat i := toggled n]> (nodes tm))
                                  (visible tm) (cursor tm))
      = Returns (mkTreeModel (<[Z.to_nat i := toggled n]> (nodes tm))
                             vis' (cursor tm))
      /\ visibleOk (<[Z.to_nat i := toggled n]> (nodes tm)) vis'
      /\ vis' !! Z.to_nat (cursor tm) = Some i).
  { destruct (NavFacts.rebuildVisible_consistent
                (<[Z.to_nat i := toggled n]> (nodes tm)) (visible tm)
                (cursor tm)) as (vis' & Hrun & Hvis' & _);
      [by apply wf_nodes_toggle | done |].
    exists vis'.
    assert (Hrow' : vis' !! Z.to_nat (cursor tm) = Some i).
    { replace i with (Z.of_nat (Z.to_nat i)) in Hrow |- * by lia.
      eapply SelectionFacts.toggle_row; try done. }
    split; [|done]. rewrite Hrun. do 2 f_equal.
    apply lookup_lt_Some in Hrow'. unfold len.
    destruct (Z.leb_spec (Z.of_nat (length vis')) (cursor tm)); lia. }
  destruct (Kind n) eqn:Hkind.
  - right. split; [done | exact Htoggle].
  - right. split; [done | exact Htoggle].
  - left. by split.
Qed.

End ToggleFacts.

(** X12. A tree fresh from [NewTreeModel] shows every node, in the order
    of the node array, with the cursor on the first row. *)
Theorem NewTreeModel_all_visible (o : MapOrder) (rs : list Repo) :
  exists tm,
    NewTreeModel o rs = Returns tm
    /\ visible tm = map Z.of_nat (seq 0 (length (nodes tm)))
    /\ cursor tm = 0.
Proof.
  destruct (NewTreeModel_returns o rs) as (tm & Hrun & _ & Hexp & Hcur).
  exists tm. split; [done|]. split; [|done].
  destruct (NavFacts.NewTreeModel_consistent o rs tm Hrun) as (_ & Hvis & _).
  apply (SelectionFacts.visibleOk_unique (nodes tm)); [done|].
  by apply SelectionFacts.expanded_visibleOk.
Qed.

(** X13. Toggling keeps the cursor on the node it toggled: after
    [ToggleCollapse] the cursor offset is the same and [SelectedNode]
    returns the same node index. *)
Theorem ToggleCollapse_keeps_selection
  (o : MapOrder) (tm : TreeModel) (i : Z) :
  reachable o tm ->
  SelectedNode tm = Returns (Some i) ->
  exists tm',
    ToggleCollapse tm = Returns tm'
    /\ cursor tm' = cursor tm
    /\ SelectedNode tm' = Returns (Some i).
Proof.
  intros Hreach Hsel.
  pose proof (NavFacts.reachable_inv o tm Hreach) as Hc.
  assert (Hne : visible tm <> []).
  { intros Hempty. unfold SelectedNode in Hsel. by rewrite Hempty in Hsel. }
  destruct (ToggleFacts.ToggleCollapse_shape tm Hc Hne)
    as (i' & n & Hsel' & Hi & Hn & Hrow & Hcases).
  rewrite Hsel in Hsel'. injection Hsel' as <-.
  destruct Hcases as [[_ ->]|(_ & vis' & Hrun & Hvis' & Hrow')].
  { by exists tm. }
  eexists. split; [exact Hrun|]. split; [done|].
  destruct (NavFacts.ToggleCollapse_consistent tm Hc) as (tm' & Hrun' & Hc').
  rewrite Hrun in Hrun'. injection Hrun' as <-.
  destruct (NavFacts.selected_in_range _ Hc') as (j & x & Hj & _ & _ & ->).
  { cbn. intros Hempty. by rewrite Hempty in Hrow'. }
  cbn in Hj. rewrite Hrow' in Hj. by injection Hj as <-.
Qed.

Lemma projTree_reachable : reachable idOrder (MoveDown projTree).
Proof.
  apply reach_down. apply (reach_new idOrder [projRepo]).
  vm_compute. reflexivity.
Defined.

Lemma ToggleCollapse_keeps_selection_witness :
  exists tm',
    ToggleCollapse (MoveDown projTree) = Returns tm'
    /\ cursor tm' = cursor (MoveDown projTree)
    /\ SelectedNode tm' = Returns (Some 1).
Proof.
  exact (ToggleCollapse_keeps_selection idOrder (MoveDown projTree) 1
           projTree_reachable eq_refl).
Defined.

(** X14. Toggling twice gives the tree back: nodes, collapse flags,
    visibility list and cursor. *)
Theorem ToggleCollapse_involution (o : MapOrder) (tm tm' : TreeModel) :
  reachable o tm ->
  ToggleCollapse tm = Returns tm' ->
  ToggleCollapse tm' = Returns tm.
Proof.
  intros Hreach Hrun.
  pose proof (NavFacts.reachable_inv o tm Hreach) as Hc.
  destruct (decide (visible tm = [])) as [Hempty|Hne].
  { assert (Hsame : ToggleCollapse tm = Returns tm)
      by (unfold ToggleCollapse, SelectedNode; by rewrite Hempty).
    rewrite Hsame in Hrun. by injection Hrun as <-. }
  destruct (ToggleFacts.ToggleCollapse_shape tm Hc Hne)
    as (i & n & Hsel & Hi & Hn & Hrow & [[_ Hsame]|(Hkind & vis' & Hrun' & Hvis' & Hrow')]).
  { rewrite Hsame in Hrun. by injection Hrun as <-. }
  rewrite Hrun' in Hrun. injection Hrun as <-.
  destruct (NavFacts.ToggleCollapse_consistent tm Hc) as (tm'' & Hrun'' & Hc').
  rewrite Hrun' in Hrun''. injection Hrun'' as <-.
  destruct (ToggleFacts.ToggleCollapse_shape _ Hc')
    as (j & x & _ & _ & Hx & Hj & Hcases).
  { cbn. intros Hempty. by rewrite Hempty in Hrow'. }
  cbn [nodes visible cursor] in *.
  rewrite Hrow' in Hj. injection Hj as <-.
  rewrite list_lookup_insert_eq in Hx by (by eapply lookup_lt_Some).
  injection Hx as <-.
  destruct Hcases as [[Hfile _]|(_ & vis'' & -> & Hvis'' & _)].
  { by destruct n as [[] ? ? ? ? ? ? ?]. }
  rewrite list_insert_insert_eq, SelectionFacts.toggled_toggled in *.
  rewrite list_insert_id in * by done.
  destruct Hc as (_ & Hvis & _).
  rewrite (SelectionFacts.visibleOk_unique _ _ _ Hvis'' Hvis).
  by destruct tm.
Qed.

Lemma ToggleCollapse_involution_witness :
  ToggleCollapse collapsedSrc = Returns (MoveDown projTree).
Proof.
  exact (ToggleCollapse_involution idOrder (MoveDown projTree) collapsedSrc
           projTree_reachable eq_refl).
Defined.

(** ** The reach of the scans *)

Module ScopeFacts.

Lemma skipped_false (e : DirEntry) :
  skipped e = Returns false <-> shown e.
Proof.
  unfold shown.
  destruct e as [name [|]]; [|split; [done | by intros [? _]]].
  destruct name as [|c rest].
  - split; [done | by intros [_ (? & ? & ? & _)]].
  - change (skipped (mkDirEntry (String c rest) true))
      with (Returns (A := bool) (Ascii.eqb c ".")).
    cbn [IsDir Name].
    destruct (Ascii.eqb_spec c ".") as [->|Hc]; split; try done.
    + by intros [_ (? & ? & [= <- _] & ?)].
    + intros _. split; [done|]. by exists c, rest.
Qed.

Lemma skipped_true (e : DirEntry) :
  skipped e = Returns true -> ~ shown e.
Proof. intros H Hs. apply skipped_false in Hs. congruence. Qed.

Section Paths.
Variables (w : World) (root : string).

Lemma found_paths (q : string) (acc l : list Repo) :
  (if isGitRepo w q
   then do r <- buildRepo w root q; Returns (acc ++ [r])
   else Returns acc) = Returns l ->
  forall p,
    p ∈ Repo_Path <$> l
    <-> p ∈ Repo_Path <$> acc \/ (p = q /\ isGitRepo w q = true).
Proof.
  destruct (isGitRepo w q) eqn:Hgit.
  - intros H p. apply bind_Returns in H as (r & Hr & [= <-]).
    apply DiscoveryFacts.buildRepo_fields in Hr as [Hr _].
    rewrite fmap_app, elem_of_app. cbn. rewrite Hr, list_elem_of_singleton.
    split; (intros [?|?]; [by left|right]); [done|tauto].
  - intros [= <-] p. split; [by left|]. by intros [?|[_ ?]].
Qed.

Lemma scanDeep_paths (sub : string) (subEntries : list DirEntry) :
  forall acc l,
    scanDeep w root sub subEntries acc = Returns l ->
    forall p,
      p ∈ Repo_Path <$> l
      <-> p ∈ Repo_Path <$> acc
          \/ exists e', e' ∈ subEntries /\ shown e'
                        /\ p = filepath.Join [sub; Name e']
                        /\ isGitRepo w p = true.
Proof.
  induction subEntries as [|e rest IH]; intros acc l H p.
  - injection H as <-. split; [by left|].
    intros [?|(? & Hin & _)]; [done|]. by apply elem_of_nil in Hin.
  - cbn [scanDeep] in H.
    destruct (skipped e) as [[|]| |] eqn:Hskip; cbn [bind] in H;
      try discriminate.
    + rewrite (IH _ _ H p). apply skipped_true in Hskip.
      split; (intros [?|(e' & Hin & Hs & Hrest)]; [by left|right]).
      * exists e'. split; [by right | done].
      * exists e'. apply elem_of_cons in Hin as [->|Hin]; done.
    + apply skipped_false in Hskip.
      apply bind_Returns in H as (acc' & Hfound & H).
      rewrite (IH _ _ H p), (found_paths _ _ _ Hfound p).
      split.
      * intros [[?|[-> Hgit]]|(e' & Hin & Hs & Hrest)]; [by left|right..].
        -- exists e. split; [by left | done].
        -- exists e'. split; [by right | done].
      * intros [?|(e' & Hin & Hs & -> & Hgit)]; [by left; left|].
        apply elem_of_cons in Hin as [->|Hin]; [by left; right|].
        right. by exists e'.
Qed.

Lemma scanEntries_paths (entries : list DirEntry) :
  forall acc l,
    scanEntries w root entries acc = Returns l ->
    forall p,
      p ∈ Repo_Path <$> l
      <-> p ∈ Repo_Path <$> acc
          \/ exists e, e ∈ entries /\ shown e
               /\ ((p = filepath.Join [root; Name e]
                    /\ isGitRepo w p = true)
                   \/ exists subEntries e',
                        ReadDir w (filepath.Join [root; Name e])
                        = Some subEntries
                        /\ e' ∈ subEntries /\ shown e'
                        /\ p = filepath.Join
                                 [filepath.Join [root; Name e]; Name e']
                        /\ isGitRepo w p = true).
Proof.
  induction entries as [|e rest IH]; intros acc l H p.
  - injection H as <-. split; [by left|].
    intros [?|(? & Hin & _)]; [done|]. by apply elem_of_nil in Hin.
  - cbn [scanEntries] in H.
    destruct (skipped e) as [[|]| |] eqn:Hskip; cbn [bind] in H;
      try discriminate.
    + rewrite (IH _ _ H p). apply skipped_true in Hskip.
      split; (intros [?|(e0 & Hin & Hs & Hrest)]; [by left|right]).
      * exists e0. split; [by right | done].
      * exists e0. apply elem_of_cons in Hin as [->|Hin]; done.
    + apply skipped_false in Hskip.
      apply bind_Returns in H as (acc1 & Hfound & H).
      apply bind_Returns in H as (acc2 & Hdeep & H).
      rewrite (IH _ _ H p).
      assert (Hacc2 :
        p ∈ Repo_Path <$> acc2
        <-> p ∈ Repo_Path <$> acc1
            \/ exists subEntries e',
                 ReadDir w (filepath.Join [root; Name e]) = Some subEntries
                 /\ e' ∈ subEntries /\ shown e'
                 /\ p = filepath.Join
                          [filepath.Join [root; Name e]; Name e']
                 /\ isGitRepo w p = true).
      { destruct (ReadDir w (filepath.Join [root; Name e]))
          as [subEntries|].
        - rewrite (scanDeep_paths _ _ _ _ Hdeep p). split.
          + intros [?|(e' & ? & ? & ? & ?)]; [by left|right].
            by exists subEntries, e'.
          + intros [?|(? & e' & [= <-] & ? & ? & ? & ?)]; [by left|right].
            by exists e'.
        - injection Hdeep as <-. split; [by left|].
          by intros [?|(? & ? & ? & _)]. }
      rewrite Hacc2, (found_paths _ _ _ Hfound p). split.
      * intros [[[?|[-> Hgit]]|Hdeeper]|(e0 & Hin & Hs & Hrest)];
          [by left|right..].
        -- exists e. split; [by left|]. split; [done|]. by left.
        -- exists e. split; [by left|]. split; [done|]. by right.
        -- exists e0. split; [by right | done].
      * intros [?|(e0 & Hin & Hs & Hrest)]; [by left; left; left|].
        apply elem_of_cons in Hin as [->|Hin].
        -- destruct Hrest as [[-> Hgit]|Hdeeper].
           ++ by left; left; right.
           ++ by left; right.
        -- right. by exists e0.
Qed.

(** The paths of the repositories that [ScanRepos] returns. *)
Lemma ScanRepos_paths (l : list Repo) :
  ScanRepos w root = Returns l ->
  forall p,
    p ∈ Repo_Path <$> l <-> inScope w root p /\ isGitRepo w p = true.
Proof.
  unfold ScanRepos. intros H p.
  apply bind_Returns in H as (first & Hfirst & H).
  assert (Hroot : p ∈ Repo_Path <$> first
                  <-> p = root /\ isGitRepo w root = true).
  { pose proof (found_paths root [] first) as Hf. cbn in Hf.
    rewrite (Hf Hfirst p). split; [|by right].
    intros [Hnil|?]; [|done]. by apply elem_of_nil in Hnil. }
  unfold inScope.
  destruct (ReadDir w root) as [entries|].
  - apply bind_Returns in H as (found & Hfound & [= <-]).
    rewrite (OrderFacts.Slice_Permutation repoLess found).
    rewrite (scanEntries_paths _ _ _ Hfound p), Hroot. split.
    + intros [[-> Hgit]|(e & Hin & Hs & Hrest)]; [by split; [left|]|].
      destruct Hrest as [[-> Hgit]|(subEntries & e' & Hsub & Hin' & Hs' & -> & Hgit)].
      * split; [|done]. right. exists entries, e.
        do 3 (split; [done|]). by left.
      * split; [|done]. right. exists entries, e.
        do 3 (split; [done|]). right. by exists subEntries, e'.
    + intros [[->|(? & e & [= <-] & Hin & Hs & Hrest)] Hgit]; [by left|].
      right. exists e. do 2 (split; [done|]).
      destruct Hrest as [->|(subEntries & e' & ? & ? & ? & ->)];
        [by left|right].
      by exists subEntries, e'.
  - injection H as <-. rewrite Hroot. split.
    + intros [-> Hgit]. by split; [left|].
    + by intros [[->|(? & ? & ? & _)] Hgit].
Qed.

Lemma watchDeep_paths (sub : string) (subEntries : list DirEntry) :
  forall acc l,
    watchDeep sub subEntries acc = Returns l ->
    forall p,
      p ∈ l
      <-> p ∈ acc
          \/ exists e', e' ∈ subEntries /\ shown e'
                        /\ p = filepath.Join [sub; Name e'].
Proof.
  induction subEntries as [|e rest IH]; intros acc l H p.
  - injection H as <-. split; [by left|].
    intros [?|(? & Hin & _)]; [done|]. by apply elem_of_nil in Hin.
  - cbn [watchDeep] in H.
    destruct (skipped e) as [[|]| |] eqn:Hskip; cbn [bind] in H;
      try discriminate.
    + rewrite (IH _ _ H p). apply skipped_true in Hskip.
      split; (intros [?|(e' & Hin & Hs & Hrest)]; [by left|right]).
      * exists e'. split; [by right | done].
      * exists e'. apply elem_of_cons in Hin as [->|Hin]; done.
    + apply skipped_false in Hskip.
      rewrite (IH _ _ H p), elem_of_app, list_elem_of_singleton. split.
      * intros [[? | ->]|(e' & Hin & Hs & Hrest)]; [by left|right..].
        -- exists e. split; [by left | done].
        -- exists e'. split; [by right | done].
      * intros [?|(e' & Hin & Hs & ->)]; [by left; left|].
        apply elem_of_cons in Hin as [->|Hin]; [by left; right|].
        right. by exists e'.
Qed.

Lemma watchEntries_paths (entries : list DirEntry) :
  forall acc l,
    watchEntries w root entries acc = Returns l ->
    forall p,
      p ∈ l
      <-> p ∈ acc
          \/ exists e, e ∈ entries /\ shown e
               /\ (p = filepath.Join [root; Name e]
                   \/ exists subEntries e',
                        ReadDir w (filepath.Join [root; Name e])
                        = Some subEntries
                        /\ e' ∈ subEntries /\ shown e'
                        /\ p = filepath.Join
                                 [filepath.Join [root; Name e]; Name e']).
Proof.
  induction entries as [|e rest IH]; intros acc l H p.
  - injection H as <-. split; [by left|].
    intros [?|(? & Hin & _)]; [done|]. by apply elem_of_nil in Hin.
  - cbn [watchEntries] in H.
    destruct (skipped e) as [[|]| |] eqn:Hskip; cbn [bind] in H;
      try discriminate.
    + rewrite (IH _ _ H p). apply skipped_true in Hskip.
      split; (intros [?|(e0 & Hin & Hs & Hrest)]; [by left|right]).
      * exists e0. split; [by right | done].
      * exists e0. apply elem_of_cons in Hin as [->|Hin]; done.
    + apply skipped_false in Hskip.
      apply bind_Returns in H as (acc2 & Hdeep & H).
      rewrite (IH _ _ H p).
      assert (Hacc2 :
        p ∈ acc2
        <-> (p ∈ acc \/ p = filepath.Join [root; Name e])
            \/ exists subEntries e',
                 ReadDir w (filepath.Join [root; Name e]) = Some subEntries
                 /\ e' ∈ subEntries /\ shown e'
                 /\ p = filepath.Join
                          [filepath.Join [root; Name e]; Name e']).
      { rewrite <- (list_elem_of_singleton p), <- elem_of_app.
        destruct (ReadDir w (filepath.Join [root; Name e]))
          as [subEntries|].
        - rewrite (watchDeep_paths _ _ _ _ Hdeep p). split.
          + intros [?|(e' & ? & ? & ?)]; [by left|right].
            by exists subEntries, e'.
          + intros [?|(? & e' & [= <-] & ? & ? & ?)]; [by left|right].
            by exists e'.
        - injection Hdeep as <-. split; [by left|].
          by intros [?|(? & ? & ? & _)]. }
      rewrite Hacc2. split.
      * intros [[[? | ->]|Hdeeper]|(e0 & Hin & Hs & Hrest)];
          [by left|right..].
        -- exists e. split; [by left|]. split; [done|]. by left.
        -- exists e. split; [by left|]. split; [done|]. by right.
        -- exists e0. split; [by right | done].
      * intros [?|(e0 & Hin & Hs & Hrest)]; [by left; left; left|].
        apply elem_of_cons in Hin as [->|Hin].
        -- destruct Hrest as [->|Hdeeper].
           ++ by left; left; right.
           ++ by left; right.
        -- right. by exists e0.
Qed.

(** The paths that [addWatchPaths] hands to the watcher. *)
Lemma addWatchPaths_paths (ws : list string) :
  addWatchPaths w root = Returns ws ->
  forall p, p ∈ ws <-> inScope w root p.
Proof.
  unfold addWatchPaths, inScope. intros H p.
  destruct (ReadDir w root) as [entries|].
  - rewrite (watchEntries_paths _ _ _ H p), list_elem_of_singleton. split.
    + intros [->|(e & Hin & Hs & Hrest)]; [by left|right].
      by exists entries, e.
    + intros [->|(? & e & [= <-] & Hin & Hs & Hrest)]; [by left|right].
      by exists e.
  - injection H as <-. rewrite list_elem_of_singleton. split; [by left|].
    by intros [->|(? & ? & ? & _)].
Qed.

End Paths.
End ScopeFacts.

(** C7. When [git status] fails in a repository [p] within reach of the
    scan, the discovery pass is not aborted by it: it returns a list
    whenever it does so in a world where only the status output of [p]
    differs, and the list is that one but for the files of [p], so that
    every other repository is reported as it is.  The repository [p] is
    in the list, and what the list holds for [p] is what [buildRepo]
    returns for it, with no files. *)
Theorem ScanRepos_status_failure
  (w : World) (root p msg : string) (out : cmdOutput) (others : list Repo) :
  gitStatus w p = cmdErr msg ->
  inScope w root p ->
  isGitRepo w p = true ->
  ScanRepos (withStatus w p out) root = Returns others ->
  exists l,
    ScanRepos w root = Returns l
    /\ l = map (clearFiles p) others
    /\ (exists r, r ∈ l /\ Repo_Path r = p)
    /\ (forall r, r ∈ l -> Repo_Path r = p ->
        buildRepo w root p = Returns r /\ Files r = []).
Proof.
  intros Hfail Hscope Hgit Hscan.
  assert (Hl : ScanRepos w root = Returns (map (clearFiles p) others)).
  { unfold ScanRepos in *.
    apply bind_Returns in Hscan as (first & Hfirst & Hscan).
    pose proof (ScanFacts.found_clear w p out msg Hfail root root [] first)
      as Hf.
    cbn [map app] in Hf. rewrite (Hf Hfirst). cbn [bind].
    change (ReadDir (withStatus w p out)) with (ReadDir w) in Hscan.
    destruct (ReadDir w root) as [entries|].
    + apply bind_Returns in Hscan as (found & Hfound & [= <-]).
      rewrite (ScanFacts.scanEntries_clear w p out msg Hfail _ _ _ _ Hfound).
      cbn [bind]. f_equal.
      apply sortFacts.Slice_map, ScanFacts.repoLess_clear.
    + by injection Hscan as <-. }
  exists (map (clearFiles p) others). split; [done|]. split; [done|]. split.
  - pose proof (proj2 (ScopeFacts.ScanRepos_paths w root _ Hl p)
                      (conj Hscope Hgit)) as Hin.
    apply list_elem_of_fmap in Hin as (r & Hp & Hr). by exists r.
  - intros r Hr Hp.
    assert (Hbuilt : forall q r0,
               isGitRepo w q = true ->
               (filepath.rooted root = true -> filepath.rooted q = true) ->
               buildRepo w root q = Returns r0 ->
               exists q', buildRepo w root q' = Returns r0)
      by (intros q r0 _ _ Hq; by exists q).
    destruct (DiscoveryFacts.ScanRepos_inv w root _ Hbuilt _ Hl) as [Hall _].
    rewrite Forall_forall in Hall. destruct (Hall r Hr) as (q & Hq).
    destruct (DiscoveryFacts.buildRepo_fields _ _ _ _ Hq) as [Hpath _].
    assert (q = p) as -> by congruence. split; [done|].
    unfold buildRepo in Hq. rewrite Hfail in Hq. cbn in Hq.
    by injection Hq as <-.
Qed.

Lemma ScanRepos_status_failure_witness :
  exists l,
    ScanRepos brokenWorld "/w" = Returns l
    /\ l = map (clearFiles "/w/a/c")
             [mkRepo "/w/a" "a" "main"
                [mkFileStatus "x.txt" StatusUntracked false];
              mkRepo "/w/a/c" "a/c" "main"
                [mkFileStatus "y.txt" StatusModified false];
              mkRepo "/w/b" "b" "main"
                [mkFileStatus "x.txt" StatusUntracked false]]
    /\ (exists r, r ∈ l /\ Repo_Path r = "/w/a/c")
    /\ (forall r, r ∈ l -> Repo_Path r = "/w/a/c" ->
        buildRepo brokenWorld "/w" "/w/a/c" = Returns r /\ Files r = []).
Proof.
  apply (ScanRepos_status_failure
           brokenWorld "/w" "/w/a/c" "exit status 128"
           (cmdOk "1 .M N... 100644 100644 100644 1a2b 3c4d y.txt")).
  - reflexivity.
  - right.
    exists [mkDirEntry "a" true; mkDirEntry "b" true], (mkDirEntry "a" true).
    split; [reflexivity|]. split; [by left|].
    split; [split; [reflexivity | by exists "a"%char, ""]|].
    right.
    exists [mkDirEntry ".git" true; mkDirEntry "c" true], (mkDirEntry "c" true).
    split; [reflexivity|]. split; [by right; left|].
    split; [split; [reflexivity | by exists "c"%char, ""]|].
    reflexivity.
  - reflexivity.
  - vm_compute. reflexivity.
Defined.

(** X15. [ScanRepos] lists exactly the repositories within reach: a
    directory is the path of a listed repository if and only if it is
    the scan root, a shown subdirectory of it or a shown subdirectory of
    one of those, and [isGitRepo] accepts it.  Nothing deeper and
    nothing under a hidden directory is ever listed. *)
Theorem ScanRepos_scope
  (w : World) (root : string) (l : list Repo) (q : string) :
  ScanRepos w root = Returns l ->
  (exists r, r ∈ l /\ Repo_Path r = q)
  <-> inScope w root q /\ isGitRepo w q = true.
Proof.
  intros H. rewrite <- (ScopeFacts.ScanRepos_paths w root l H q).
  rewrite list_elem_of_fmap. split; intros (r & ? & ?); by exists r.
Qed.

Lemma ScanRepos_scope_witness :
  (exists r,
     r ∈ [mkRepo "/w/-x" "-x" "main" []; mkRepo "/w" "/w" "main" []]
     /\ Repo_Path r = "/w/-x")
  <-> inScope dashWorld "/w" "/w/-x" /\ isGitRepo dashWorld "/w/-x" = true.
Proof.
  exact (ScanRepos_scope dashWorld "/w" _ "/w/-x"
           ltac:(vm_compute; reflexivity)).
Defined.

(** X16. [addWatchPaths] hands to the watcher exactly the directories
    within reach of the scan, whether or not they are repositories. *)
Theorem addWatchPaths_scope
  (w : World) (root : string) (ws : list string) (q : string) :
  addWatchPaths w root = Returns ws ->
  q ∈ ws <-> inScope w root q.
Proof. intros H. exact (ScopeFacts.addWatchPaths_paths w root ws H q). Qed.

Lemma addWatchPaths_scope_witness :
  "/w/-x" ∈ ["/w"; "/w/-x"] <-> inScope dashWorld "/w" "/w/-x".
Proof.
  exact (addWatchPaths_scope dashWorld "/w" _ "/w/-x"
           ltac:(vm_compute; reflexivity)).
Defined.

(** X17. The watcher covers the scan: the directory of every repository
    that [ScanRepos] lists is among the paths that [addWatchPaths] hands
    to the watcher for the same root. *)
Theorem listed_repositories_are_watched
  (w : World) (root : string) (l : list Repo) (ws : list string) :
  ScanRepos w root = Returns l ->
  addWatchPaths w root = Returns ws ->
  Forall (fun r => Repo_Path r ∈ ws) l.
Proof.
  intros Hscan Hwatch. apply Forall_forall. intros r Hr.
  apply (ScopeFacts.addWatchPaths_paths w root ws Hwatch).
  apply (ScopeFacts.ScanRepos_paths w root l Hscan).
  apply list_elem_of_fmap. by exists r.
Qed.

Lemma listed_repositories_are_watched_witness :
  Forall (fun r => Repo_Path r ∈ ["/w"; "/w/-x"])
    [mkRepo "/w/-x" "-x" "main" []; mkRepo "/w" "/w" "main" []].
Proof.
  exact (listed_repositories_are_watched dashWorld "/w" _ _
           ltac:(vm_compute; reflexivity) ltac:(vm_compute; reflexivity)).
Defined.

(** ** Fitting names into a row *)

Module WidthFacts.

Lemma slen_append (a b : string) : slen (a +:+ b) = slen a + slen b.
Proof.
  unfold slen. induction a as [|c a IH]; [reflexivity|].
  change (String c a +:+ b) with (String c (a +:+ b)).
  cbn [String.length]. lia.
Qed.

Lemma runes_append (a b : string) : runes (a +:+ b) = runes a + runes b.
Proof.
  induction a as [|c a IH]; [reflexivity|].
  change (String c a +:+ b) with (String c (a +:+ b)).
  cbn [runes]. lia.
Qed.

Lemma runes_ascii (s : string) : isASCII s = true -> runes s = slen s.
Proof.
  unfold slen. induction s as [|c s IH]; [reflexivity|].
  cbn [isASCII runes String.length].
  intros [Hc Hs]%andb_prop. rewrite (IH Hs). unfold continuation.
  apply N.ltb_lt in Hc.
  destruct (N.leb_spec 128 (N_of_ascii c)); cbn [andb]; lia.
Qed.

Lemma isASCII_append (a b : string) :
  isASCII (a +:+ b) = isASCII a && isASCII b.
Proof.
  induction a as [|c a IH]; [reflexivity|].
  change (String c a +:+ b) with (String c (a +:+ b)).
  cbn [isASCII]. by rewrite IH, andb_assoc.
Qed.

Lemma isASCII_substring (s : string) :
  isASCII s = true ->
  forall n m, isASCII (String.substring n m s) = true.
Proof.
  induction s as [|c s IH]; intros Hs n m.
  - by destruct n, m.
  - cbn [isASCII] in Hs. apply andb_prop in Hs as [Hc Hs].
    destruct n as [|n]; [destruct m as [|m]|]; cbn [String.substring];
      [done| |by apply IH].
    cbn [isASCII]. by rewrite Hc, IH.
Qed.

Lemma length_substring (s : string) :
  forall n m,
    (n + m <= String.length s)%nat ->
    String.length (String.substring n m s) = m.
Proof.
  induction s as [|c s IH]; intros n m H; cbn [String.length] in H.
  - by destruct n, m; [ | lia | lia | lia].
  - destruct n as [|n]; [destruct m as [|m]|]; cbn [String.substring];
      [done| |apply IH; lia].
    cbn [String.length]. rewrite IH; lia.
Qed.

(** A slice within the string is taken, and has the length asked for. *)
Lemma slice_Returns (s : string) (lo hi : Z) :
  0 <= lo <= hi -> hi <= slen s ->
  exists r,
    slice s lo hi = Returns r
    /\ slen r = hi - lo
    /\ (isASCII s = true -> isASCII r = true).
Proof.
  intros Hlo Hhi. unfold slice.
  destruct (Z.leb_spec 0 lo); [|lia].
  destruct (Z.leb_spec lo hi); [|lia].
  destruct (Z.leb_spec hi (slen s)); [|lia]. cbn [andb].
  eexists. split; [done|]. split.
  - unfold slen in *. rewrite length_substring; lia.
  - intros Hs. by apply isASCII_substring.
Qed.

Lemma Split_ascii (s : string) (sep : ascii) :
  isASCII s = true ->
  Forall (fun p => isASCII p = true) (strings.Split s sep).
Proof.
  induction s as [|c s IH]; intros Hs; cbn [strings.Split].
  - by repeat constructor.
  - cbn [isASCII] in Hs. apply andb_prop in Hs as [Hc Hs].
    specialize (IH Hs).
    destruct (Ascii.eqb c sep); [by constructor|].
    destruct (strings.Split s sep) as [|h t].
    + repeat constructor. cbn [isASCII]. by rewrite Hc.
    + inversion IH as [|? ? Hh Ht]; subst. constructor; [|done].
      cbn [isASCII]. by rewrite Hc, Hh.
Qed.

(** The loop of [truncatePath] returns the segment it started from, or
    a longer tail that leaves room for one more column. *)
Lemma extendLeft_bound (maxWidth : Z) (before : list string) :
  Forall (fun p => isASCII p = true) before ->
  forall result,
    isASCII result = true ->
    isASCII (extendLeft maxWidth before result) = true
    /\ slen (extendLeft maxWidth before result)
       <= Z.max (slen result) (maxWidth - 1).
Proof.
  induction 1 as [|part rest Hpart _ IH]; intros result Hres;
    cbn [extendLeft].
  - split; [done | lia].
  - destruct (Z.ltb_spec maxWidth (slen (part +:+ "/" +:+ result) + 1))
      as [|Hfits].
    + split; [done | lia].
    + destruct (IH (part +:+ "/" +:+ result)) as [Hascii Hlen].
      { by rewrite !isASCII_append, Hpart, Hres. }
      split; [done | lia].
Qed.

Lemma truncatePath_spec (path : string) (maxWidth : Z) :
  exists r,
    truncatePath path maxWidth = Returns r
    /\ (slen path <= maxWidth -> r = path)
    /\ (isASCII path = true ->
        runes r <= Z.max 3 (maxWidth + runes ellipsis)).
Proof.
  change (runes ellipsis) with 3.
  unfold truncatePath.
  destruct (Z.leb_spec (slen path) maxWidth) as [Hfits|Hlong].
  { exists path. split; [done|]. split; [done|]. intros Hp.
    rewrite (runes_ascii _ Hp). lia. }
  destruct (Z.leb_spec maxWidth 3) as [Hsmall|Hroom].
  { exists "...". split; [done|]. split; [lia|]. intros _.
    change (runes "...") with 3. lia. }
  destruct (last (strings.Split path filepath.slash)) as [seg|] eqn:Hlast.
  2: { apply last_None in Hlast. by apply SplitFacts.Split_nonempty in Hlast. }
  rewrite (index_last _ _ Hlast). cbn [bind].
  assert (Hparts : isASCII path = true ->
                   Forall (fun p => isASCII p = true)
                          (strings.Split path filepath.slash))
    by apply Split_ascii.
  assert (Hseg : isASCII path = true -> isASCII seg = true).
  { intros Hp. specialize (Hparts Hp). rewrite Forall_forall in Hparts.
    apply Hparts. rewrite last_lookup in Hlast.
    by eapply list_elem_of_lookup_2. }
  destruct (Z.ltb_spec maxWidth (slen seg + 2)) as [Hwide|Hnarrow].
  - destruct (slice_Returns seg (slen seg - (maxWidth - 1)) (slen seg))
      as (tail & -> & Hlen & Hascii); [lia|lia|]. cbn [bind].
    eexists. split; [done|]. split; [lia|]. intros Hp.
    rewrite runes_append, (runes_ascii tail) by auto.
    change (runes ellipsis) with 3. lia.
  - set (before := rev (take (Z.to_nat (len (strings.Split path filepath.slash) - 1))
                         (strings.Split path filepath.slash))).
    assert (Hbound : isASCII path = true ->
              isASCII (extendLeft maxWidth before seg) = true
              /\ slen (extendLeft maxWidth before seg) <= maxWidth - 1).
    { intros Hp.
      destruct (extendLeft_bound maxWidth before) with (result := seg)
        as [Ha Hl]; [|by auto|split; [done | lia]].
      apply Forall_forall. intros p Hin.
      specialize (Hparts Hp). rewrite Forall_forall in Hparts.
      apply Hparts. unfold before in Hin.
      apply list_elem_of_In, in_rev, list_elem_of_In in Hin.
      by apply (subseteq_take _ _ _ Hin). }
    destruct (String.eqb_spec (extendLeft maxWidth before seg) path)
      as [Heq|_].
    + exists path. split; [done|]. split; [done|]. intros Hp.
      destruct (Hbound Hp) as [_ Hl]. rewrite Heq in Hl. lia.
    + eexists. split; [done|]. split; [lia|]. intros Hp.
      destruct (Hbound Hp) as [Ha Hl].
      rewrite !runes_append, (runes_ascii _ Ha).
      change (runes ellipsis) with 3. change (runes "/") with 1.
      unfold slen in *. lia.
Qed.

Lemma truncateBranch_spec (branch : string) (maxWidth : Z) :
  exists r,
    truncateBranch branch maxWidth = Returns r
    /\ (slen branch <= maxWidth -> r = branch)
    /\ (isASCII branch = true -> 0 <= maxWidth ->
        runes r <= maxWidth - 1 + runes ellipsis).
Proof.
  change (runes ellipsis) with 3.
  unfold truncateBranch.
  destruct (Z.leb_spec (slen branch) maxWidth) as [Hfits|Hlong].
  { exists branch. split; [done|]. split; [done|]. intros Hb _.
    rewrite (runes_ascii _ Hb). lia. }
  destruct (Z.leb_spec maxWidth 2) as [Hsmall|Hroom].
  { exists "". split; [done|]. split; [lia|]. intros _ ?.
    change (runes "") with 0. lia. }
  destruct (Z.eqb_spec maxWidth 3) as [->|Hmore].
  { eexists. split; [done|]. split; [lia|]. intros _ _. by vm_compute. }
  destruct (slice_Returns branch 1 (1 + (maxWidth - 3)))
    as (inner & -> & Hlen & Hascii); [lia|lia|]. cbn [bind].
  eexists. split; [done|]. split; [lia|]. intros Hb _.
  rewrite !runes_append, (runes_ascii inner) by auto.
  change (runes ellipsis) with 3. change (runes "[") with 1.
  change (runes "]") with 1. lia.
Qed.

End WidthFacts.

(** X18. [truncateStr] never reads outside the string.  A string that
    fits is returned as it is; otherwise the result is the ellipsis
    literal behind the first [maxWidth - 1] bytes.  For an ASCII string
    the result has at most [maxWidth - 1] runes and those of the
    literal (none for a width below one), and a string that is cut has
    exactly that many: with the three runes that the literal has in the
    source file, two more than the width asked for. *)
Theorem truncateStr_fits (s : string) (maxWidth : Z) :
  exists r,
    truncateStr s maxWidth = Returns r
    /\ (slen s <= maxWidth -> r = s)
    /\ (0 < maxWidth < slen s ->
        r = String.substring 0 (Z.to_nat (maxWidth - 1)) s +:+ ellipsis)
    /\ (isASCII s = true ->
        runes r <= Z.max 0 (maxWidth - 1 + runes ellipsis)
        /\ (0 < maxWidth < slen s ->
            runes r = maxWidth - 1 + runes ellipsis)).
Proof.
  change (runes ellipsis) with 3.
  unfold truncateStr.
  destruct (Z.leb_spec maxWidth 0) as [Hnone|Hpos].
  { exists "". split; [done|]. split; [|split; [lia|]].
    - intros Hs. unfold slen in Hs. destruct s; [done|].
      cbn [String.length] in Hs. lia.
    - intros _. change (runes "") with 0. split; lia. }
  destruct (Z.leb_spec (slen s) maxWidth) as [Hfits|Hlong].
  { exists s. split; [done|]. split; [done|]. split; [lia|]. intros Hs.
    rewrite (WidthFacts.runes_ascii _ Hs). split; lia. }
  destruct (Z.leb_spec maxWidth 1) as [Hone|Hroom].
  { exists ellipsis. split; [done|]. split; [lia|].
    assert (maxWidth = 1) as -> by lia. split.
    - intros _. by destruct s.
    - intros _. change (runes ellipsis) with 3. split; lia. }
  destruct (WidthFacts.slice_Returns s 0 (maxWidth - 1))
    as (head & Hrun & Hlen & Hascii); [lia|lia|].
  rewrite Hrun. cbn [bind].
  eexists. split; [done|]. split; [lia|]. split.
  - intros _. unfold slice in Hrun.
    destruct ((0 <=? 0) && (0 <=? maxWidth - 1)
              && (maxWidth - 1 <=? slen s)); [|done].
    injection Hrun as <-. by rewrite Z.sub_0_r.
  - intros Hs.
    rewrite WidthFacts.runes_append, (WidthFacts.runes_ascii head) by auto.
    change (runes ellipsis) with 3. split; lia.
Qed.

(** X19. [truncateBranch] never reads outside the string.  A bracketed
    branch name that fits is returned as it is, and for an ASCII name
    and a width that is not negative the result has at most
    [maxWidth - 1] runes and those of the ellipsis literal: with the
    three runes that the literal has in the source file, up to two more
    than the width asked for. *)
Theorem truncateBranch_fits (branch : string) (maxWidth : Z) :
  exists r,
    truncateBranch branch maxWidth = Returns r
    /\ (slen branch <= maxWidth -> r = branch)
    /\ (isASCII branch = true -> 0 <= maxWidth ->
        runes r <= maxWidth - 1 + runes ellipsis).
Proof. apply WidthFacts.truncateBranch_spec. Qed.

(** X20. [truncatePath] never reads outside the path.  A path that fits
    is returned as it is; for an ASCII path the result has at most
    [maxWidth] runes and those of the ellipsis literal, or three when
    that is more.  The loop leaves one column for the literal and none
    for the slash behind it, so that even a literal of one rune takes
    the result one column past the width asked for; with the three
    runes that the literal has in the source file it is three past. *)
Theorem truncatePath_width (path : string) (maxWidth : Z) :
  exists r,
    truncatePath path maxWidth = Returns r
    /\ (slen path <= maxWidth -> r = path)
    /\ (isASCII path = true ->
        runes r <= Z.max 3 (maxWidth + runes ellipsis)).
Proof.
  apply WidthFacts.truncatePath_spec.
Qed.

(** The literal as the source file has it, and a path on which the bound
    of X20 is reached. *)
Example ellipsis_runes : runes ellipsis = 3 /\ slen ellipsis = 7.
Proof. by vm_compute. Qed.

Example truncatePath_bound_reached :
  truncatePath "a/bb/cc" 6 = Returns (ellipsis +:+ "/bb/cc")
  /\ runes (ellipsis +:+ "/bb/cc") = 6 + runes ellipsis.
Proof. by vm_compute. Qed.

(** X21. [fitNameAndBranch] never reads outside its strings.  When name
    and branch fit into [avail] together both are returned as they are;
    otherwise, for ASCII strings, the two results have together at most
    [avail - 1] runes and those of two ellipsis literals, and never more
    than that or one rune and a literal, or three: with the three runes
    that the literal has in the source file, at most [avail + 5] runes,
    or four when that is more. *)
Theorem fitNameAndBranch_width (name branch : string) (avail : Z) :
  exists n b,
    fitNameAndBranch name branch avail = Returns (n, b)
    /\ (slen name + slen branch <= avail -> n = name /\ b = branch)
    /\ (isASCII name = true -> isASCII branch = true ->
        runes n + runes b
        <= Z.max 3 (Z.max (1 + runes ellipsis)
                          (avail + 2 * runes ellipsis - 1))).
Proof.
  change (runes ellipsis) with 3.
  unfold fitNameAndBranch.
  destruct (Z.leb_spec (slen name + slen branch) avail) as [Hfits|Hlong].
  { exists name, branch. split; [done|]. split; [done|]. intros Hn Hb.
    rewrite (WidthFacts.runes_ascii _ Hn), (WidthFacts.runes_ascii _ Hb).
    lia. }
  destruct (Z.ltb_spec avail (3 + 4)) as [Hsmall|Hroom].
  { destruct (WidthFacts.truncatePath_spec name (Z.max 1 avail))
      as (n & -> & _ & Hwidth). cbn [bind].
    exists n, "". split; [done|]. split; [lia|]. intros Hn _.
    specialize (Hwidth Hn). change (runes ellipsis) with 3 in Hwidth.
    change (runes "") with 0. lia. }
  assert (Hq : (avail * 3) ÷ 5 = avail * 3 / 5)
    by (apply Z.quot_div_nonneg; lia).
  rewrite Hq.
  assert (Hq1 : 4 <= avail * 3 / 5 <= avail).
  { split; [apply Z.div_le_lower_bound; lia|].
    apply Z.div_le_upper_bound; lia. }
  set (q := avail * 3 / 5) in *. clearbody q.
  destruct (Z.ltb_spec q 3) as [?|_]; [lia|].
  set (spaces := if avail - q <? 4 then (avail - 4, 4) else (q, avail - q)).
  assert (Hspaces : 3 <= fst spaces <= avail /\ 4 <= snd spaces
                    /\ fst spaces + snd spaces = avail).
  { unfold spaces. destruct (Z.ltb_spec (avail - q) 4); cbn; lia. }
  destruct spaces as [nameSpace branchSpace]. cbn [fst snd] in Hspaces.
  set (final :=
         if (slen name <=? nameSpace) && (branchSpace <? slen branch)
         then (slen name, avail - slen name)
         else if (slen branch <=? branchSpace) && (nameSpace <? slen name)
              then (avail - slen branch, slen branch)
              else (nameSpace, branchSpace)).
  assert (Hfinal :
            fst final + snd final = avail /\ 0 <= snd final
            /\ (3 <= fst final \/ slen name <= fst final)).
  { unfold final.
    destruct (Z.leb_spec (slen name) nameSpace),
             (Z.ltb_spec branchSpace (slen branch)); cbn [andb fst snd];
      try lia.
    all: destruct (Z.leb_spec (slen branch) branchSpace),
                  (Z.ltb_spec nameSpace (slen name)); cbn [andb fst snd];
      unfold slen in *; lia. }
  destruct final as [nameSpace' branchSpace']. cbn [fst snd] in Hfinal.
  destruct (WidthFacts.truncatePath_spec name nameSpace')
    as (n & -> & Hnfits & Hnwidth). cbn [bind].
  destruct (WidthFacts.truncateBranch_spec branch branchSpace')
    as (b & -> & _ & Hbwidth). cbn [bind].
  exists n, b. split; [done|]. split; [lia|]. intros Hn Hb.
  specialize (Hnwidth Hn).
  specialize (Hbwidth Hb ltac:(lia)).
  change (runes ellipsis) with 3 in Hnwidth, Hbwidth.
  destruct (Z.le_gt_cases (slen name) nameSpace') as [Hle|Hgt].
  - rewrite (Hnfits Hle), (WidthFacts.runes_ascii _ Hn). lia.
  - lia.
Qed.

(** ** The paths that the watcher ignores *)

Module PathFacts.

Lemma append_assoc (a b c : string) : (a +:+ b) +:+ c = a +:+ (b +:+ c).
Proof.
  induction a as [|x a IH]; [reflexivity|].
  change (String x ((a +:+ b) +:+ c) = String x (a +:+ (b +:+ c))).
  by f_equal.
Qed.

Lemma append_empty (a : string) : a +:+ "" = a.
Proof.
  induction a as [|x a IH]; [reflexivity|].
  change (String x a +:+ "") with (String x (a +:+ "")). by rewrite IH.
Qed.

Lemma Join_snoc (es : list string) (e : string) :
  es <> [] ->
  strings.Join (es ++ [e]) "/" = strings.Join es "/" +:+ "/" +:+ e.
Proof.
  induction es as [|x es IH]; intros Hne; [done|].
  destruct es as [|y t]; [reflexivity|].
  change ((x :: y :: t) ++ [e]) with (x :: (y :: t) ++ [e]).
  change ((y :: t) ++ [e]) with (y :: t ++ [e]) at 1.
  rewrite !SplitFacts.Join_cons.
  change (y :: t ++ [e]) with ((y :: t) ++ [e]). rewrite IH by done.
  change (String filepath.slash ?s) with ("/" +:+ s).
  by rewrite !append_assoc.
Qed.

(** An absolute path with one more element. *)
Lemma absPath_snoc (es : list string) (e : string) :
  absPath (es ++ [e])
  = (if decide (es = []) then "" else absPath es) +:+ "/" +:+ e.
Proof.
  unfold absPath. destruct (decide (es = [])) as [->|Hne]; [reflexivity|].
  rewrite (Join_snoc es e Hne). by rewrite !append_assoc.
Qed.

Lemma absPath_Split (es : list string) :
  es <> [] -> Forall element es ->
  strings.Split (absPath es) filepath.slash = "" :: es.
Proof.
  intros Hne Hes. unfold absPath.
  change ("/" +:+ ?s) with ("" +:+ String filepath.slash s).
  rewrite SplitFacts.Split_app by constructor.
  by rewrite SplitFacts.Split_Join.
Qed.

Lemma stripSlashes_element (e : string) :
  element e -> stripSlashes e = e.
Proof.
  induction e as [|c e IH]; intros He; [reflexivity|].
  apply Forall_cons in He as [Hc He]. cbn [stripSlashes].
  rewrite (IH He).
  destruct (Ascii.eqb_spec c filepath.slash) as [?|_]; [done|].
  by rewrite andb_false_r.
Qed.

Lemma stripSlashes_append (x e : string) :
  element e -> e <> "" -> stripSlashes (x +:+ e) = x +:+ e.
Proof.
  intros He Hne. induction x as [|c x IH].
  - by apply stripSlashes_element.
  - change (String c x +:+ e) with (String c (x +:+ e)).
    cbn [stripSlashes]. rewrite IH.
    destruct (String.eqb_spec (x +:+ e) "") as [Hempty|_]; [|done].
    destruct x; [done | discriminate].
Qed.

Lemma upToLastSep_element (e : string) :
  element e -> filepath.upToLastSep e = "".
Proof.
  induction e as [|c e IH]; intros He; [reflexivity|].
  apply Forall_cons in He as [Hc He]. cbn [filepath.upToLastSep].
  rewrite (IH He).
  by destruct (Ascii.eqb_spec c filepath.slash).
Qed.

Lemma upToLastSep_append (x e : string) :
  element e -> filepath.upToLastSep (x +:+ "/" +:+ e) = x +:+ "/".
Proof.
  intros He. induction x as [|c x IH].
  - change ("" +:+ "/" +:+ e) with (String filepath.slash e).
    cbn [filepath.upToLastSep]. rewrite (upToLastSep_element e He).
    by rewrite Ascii.eqb_refl.
  - change (String c x +:+ "/" +:+ e) with (String c (x +:+ "/" +:+ e)).
    cbn [filepath.upToLastSep]. rewrite IH.
    destruct (String.eqb_spec (x +:+ "/") "") as [Hempty|_]; [|done].
    destruct x; discriminate.
Qed.

Lemma cleanStep_entryName (b : bool) (out : list string) (e : string) :
  entryName e -> filepath.cleanStep b out e = out ++ [e].
Proof.
  intros (_ & H1 & H2 & H3). unfold filepath.cleanStep.
  destruct (String.eqb_spec e "") as [?|_]; [done|].
  destruct (String.eqb_spec e ".") as [?|_]; [done|].
  by destruct (String.eqb_spec e "..") as [?|_].
Qed.

Lemma clean_names (b : bool) (es : list string) :
  Forall entryName es ->
  forall out, foldl (filepath.cleanStep b) out es = out ++ es.
Proof.
  induction 1 as [|e es He _ IH]; intros out; cbn [foldl].
  - by rewrite app_nil_r.
  - rewrite (cleanStep_entryName _ _ _ He), IH. by rewrite <- app_assoc.
Qed.

Lemma names_elements (es : list string) :
  Forall entryName es -> Forall element es.
Proof. intros H. eapply Forall_impl; [exact H|]. by intros e [? _]. Qed.

(** [Clean] removes the trailing slash of a clean absolute path. *)
Lemma Clean_trailing (es : list string) :
  es <> [] -> Forall entryName es ->
  filepath.Clean (absPath es +:+ "/") = absPath es.
Proof.
  intros Hne Hes.
  assert (Hpath : absPath es +:+ "/" = absPath (es ++ [""])).
  { rewrite absPath_snoc. destruct (decide (es = [])); [done|].
    by rewrite append_empty. }
  rewrite Hpath. unfold filepath.Clean.
  assert (Hsplit : strings.Split (absPath (es ++ [""])) filepath.slash
                   = "" :: es ++ [""]).
  { apply absPath_Split; [by destruct es|].
    apply Forall_app. split; [by apply names_elements|].
    repeat constructor. }
  rewrite Hsplit.
  change (String.eqb (absPath (es ++ [""])) "") with false.
  change (filepath.rooted (absPath (es ++ [""]))) with true.
  cbn match. cbn [foldl].
  change (filepath.cleanStep true [] "") with (@nil string).
  rewrite foldl_app, (clean_names true es Hes). cbn [foldl].
  change (filepath.cleanStep true ([] ++ es) "") with ([] ++ es).
  reflexivity.
Qed.

(** The parent and the last element of a clean absolute path. *)
Lemma Dir_absPath (es : list string) (e : string) :
  Forall entryName es -> entryName e ->
  filepath.Dir (absPath (es ++ [e])) = absPath es.
Proof.
  intros Hes He. unfold filepath.Dir.
  rewrite absPath_snoc, upToLastSep_append by apply He.
  destruct (decide (es = [])) as [->|Hne]; [reflexivity|].
  by apply Clean_trailing.
Qed.

Lemma Base_absPath (es : list string) (e : string) :
  Forall entryName es -> entryName e ->
  Base (absPath (es ++ [e])) = e.
Proof.
  intros Hes He. unfold Base.
  change (String.eqb (absPath (es ++ [e])) "") with false. cbn match.
  assert (Hstrip : stripSlashes (absPath (es ++ [e])) = absPath (es ++ [e])).
  { rewrite absPath_snoc.
    rewrite <- (append_assoc _ "/" e).
    apply stripSlashes_append; apply He. }
  rewrite Hstrip, absPath_Split.
  - change ("" :: es ++ [e]) with (("" :: es) ++ [e]).
    rewrite last_snoc.
    destruct He as (_ & Hne & _).
    by destruct (String.eqb_spec e "").
  - by destruct es.
  - apply Forall_app. split; [by apply names_elements|].
    repeat constructor. apply He.
Qed.

Lemma absPath_inner (es : list string) (e : string) :
  entryName e -> absPath (es ++ [e]) <> "/" /\ absPath (es ++ [e]) <> ".".
Proof.
  intros (_ & Hne & _). split; [|done].
  rewrite absPath_snoc. destruct (decide (es = [])) as [->|_].
  - destruct e; [done | discriminate].
  - unfold absPath. intros H. injection H as H.
    destruct (strings.Join es "/"); discriminate.
Qed.

Lemma walkUp_absPath (es : list string) :
  Forall entryName es ->
  forall fuel,
    (length es <= fuel)%nat ->
    walkUp fuel (absPath es)
    = Returns (existsb (String.eqb ".git") es).
Proof.
  induction es as [|e es IH] using rev_ind; intros Hes fuel Hfuel.
  - by destruct fuel.
  - apply Forall_app in Hes as [Hes He].
    apply Forall_cons in He as [He _].
    destruct (absPath_inner es e He) as [Hroot Hdot].
    rewrite existsb_app. cbn [existsb]. rewrite orb_false_r.
    rewrite length_app in Hfuel. cbn [length] in Hfuel.
    destruct fuel as [|fuel]; [lia|]. cbn [walkUp].
    destruct (String.eqb_spec (absPath (es ++ [e])) "/") as [?|_]; [done|].
    destruct (String.eqb_spec (absPath (es ++ [e])) ".") as [?|_]; [done|].
    cbn [orb]. rewrite (Base_absPath es e Hes He).
    rewrite (String.eqb_sym e ".git").
    destruct (String.eqb ".git" e); [by rewrite orb_true_r|].
    rewrite (Dir_absPath es e Hes He), IH by (done || lia).
    by rewrite orb_false_r.
Qed.

Lemma length_absPath (es : list string) :
  Forall entryName es -> (length es <= String.length (absPath es))%nat.
Proof.
  intros Hes. destruct (decide (es = [])) as [->|Hne]; [cbn; lia|].
  pose proof (SplitFacts.Split_length (absPath es) filepath.slash) as H.
  rewrite absPath_Split in H by (done || by apply names_elements).
  cbn [length] in H. lia.
Qed.

End PathFacts.

(** X22. On a clean absolute path, [isGitInternalPath] returns, and
    answers yes exactly when some element of the path is [.git], with
    one exception: a path that ends in [.git/HEAD] is never internal. *)
Theorem isGitInternalPath_elements (es : list string) :
  Forall entryName es ->
  exists b,
    isGitInternalPath (absPath es) = Returns b
    /\ (b = true
        <-> ".git" ∈ es /\ ~ exists pre, es = pre ++ [".git"; "HEAD"]).
Proof.
  intros Hes.
  assert (Hwalk : walkUp (S (String.length (absPath es))) (absPath es)
                  = Returns (existsb (String.eqb ".git") es)).
  { apply PathFacts.walkUp_absPath; [done|].
    pose proof (PathFacts.length_absPath es Hes). lia. }
  assert (Hmem : existsb (String.eqb ".git") es = true <-> ".git" ∈ es).
  { rewrite existsb_exists, list_elem_of_In. split.
    - by intros (x & Hin & ->%String.eqb_eq).
    - intros Hin. exists ".git". by split. }
  unfold isGitInternalPath.
  destruct es as [|e es _] using rev_ind.
  { exists false. split; [done|]. split; [done|].
    intros [Hin _]. by apply elem_of_nil in Hin. }
  apply Forall_app in Hes as [Hes He].
  apply Forall_cons in He as [He _].
  rewrite (PathFacts.Base_absPath es e Hes He),
          (PathFacts.Dir_absPath es e Hes He).
  destruct es as [|d es _] using rev_ind.
  { change (String.eqb (Base (absPath [])) ".git") with false.
    cbn [andb]. rewrite Hwalk. eexists. split; [done|].
    rewrite Hmem. split; [|by intros [? _]].
    intros Hin. split; [done|]. intros (pre & Hpre).
    by destruct pre as [|? [|? ?]]. }
  apply Forall_app in Hes as [Hes Hd].
  apply Forall_cons in Hd as [Hd _].
  rewrite (PathFacts.Base_absPath es d Hes Hd).
  destruct (String.eqb_spec d ".git") as [->|Hnd];
    [destruct (String.eqb_spec e "HEAD") as [->|Hne]|]; cbn [andb].
  - exists false. split; [done|]. split; [done|].
    intros [_ Hno]. destruct Hno. exists es. by rewrite <- app_assoc.
  - rewrite Hwalk. eexists. split; [done|]. rewrite Hmem.
    split; [|by intros [? _]].
    intros Hin. split; [done|]. intros (pre & Hpre).
    change [".git"; "HEAD"] with ([".git"] ++ ["HEAD"]) in Hpre.
    rewrite app_assoc in Hpre. by apply app_inj_tail in Hpre as [_ ?].
  - rewrite Hwalk. eexists. split; [done|]. rewrite Hmem.
    split; [|by intros [? _]].
    intros Hin. split; [done|]. intros (pre & Hpre).
    change [".git"; "HEAD"] with ([".git"] ++ ["HEAD"]) in Hpre.
    rewrite app_assoc in Hpre. apply app_inj_tail in Hpre as [Hpre _].
    by apply app_inj_tail in Hpre as [_ ?].
Qed.

Lemma isGitInternalPath_elements_witness :
  exists b,
    isGitInternalPath "/w/.git/refs/HEAD" = Returns b
    /\ (b = true
        <-> ".git" ∈ ["w"; ".git"; "refs"; "HEAD"]
            /\ ~ exists pre,
                   ["w"; ".git"; "refs"; "HEAD"] = pre ++ [".git"; "HEAD"]).
Proof.
  apply (isGitInternalPath_elements ["w"; ".git"; "refs"; "HEAD"]).
  repeat constructor; discriminate.
Defined.

(** ** The configuration *)

Module ConfigFacts.

Lemma orDefault_set (v d : string) : d <> "" -> orDefault v d <> "".
Proof. intros Hd. unfold orDefault. by destruct (String.eqb_spec v ""). Qed.

Lemma orDefault_keep (v d : string) : v <> "" -> orDefault v d = v.
Proof. intros Hv. unfold orDefault. by destruct (String.eqb_spec v ""). Qed.

Lemma applyThemeDefaults_set (t : Theme) : themeSet (applyThemeDefaults t).
Proof.
  unfold themeSet, applyThemeDefaults. cbn.
  repeat split; by apply orDefault_set.
Qed.

Lemma applyThemeDefaults_keep (t : Theme) :
  themeSet t -> applyThemeDefaults t = t.
Proof.
  destruct t. unfold themeSet, applyThemeDefaults. cbn.
  intros (? & ? & ? & ? & ? & ? & ? & ? & ? & ? & ? & ? & ? & ? & ? & ? & ?).
  by rewrite !orDefault_keep.
Qed.

Lemma DefaultConfig_valid : validConfig DefaultConfig.
Proof. split; [by left|]. split; [done|]. by repeat split. Qed.

End ConfigFacts.

(** X23. Whatever the home directory, the configuration file and the
    YAML library give, [LoadConfig] returns a configuration with the
    panel position [right] or [bottom], a scan depth of at least one,
    and a theme without an empty colour. *)
Theorem LoadConfig_valid (env : ConfigEnv) : validConfig (fst (LoadConfig env)).
Proof.
  unfold LoadConfig.
  destruct (UserHomeDir env) as [home|];
    [|apply ConfigFacts.DefaultConfig_valid].
  destruct (ReadFile env _) as [data|];
    [|apply ConfigFacts.DefaultConfig_valid].
  set (c := Unmarshal env data DefaultConfig). cbn [fst].
  cbn [DiffPosition ScanDepth Config_Theme].
  pose proof (ConfigFacts.applyThemeDefaults_set (Config_Theme c)) as Ht.
  destruct (String.eqb_spec (DiffPosition c) "right") as [Hr|Hr];
    destruct (String.eqb_spec (DiffPosition c) "bottom") as [Hb|Hb];
    cbn [negb andb DiffPosition ScanDepth Config_Theme];
    destruct (Z.ltb_spec (ScanDepth c) 1);
    unfold validConfig; cbn [DiffPosition ScanDepth Config_Theme];
    (split; [tauto|]); (split; [lia | exact Ht]).
Qed.

(** X24. A valid configuration in the file is taken as it is:
    [LoadConfig] returns what the YAML library made of the defaults and
    the file, and writes nothing. *)
Theorem LoadConfig_keeps_valid
  (env : ConfigEnv) (home data : string) :
  UserHomeDir env = Some home ->
  ReadFile env
    (filepath.Join [filepath.Join [home; ".config"; "sidegit"];
                    "config.yaml"]) = Some data ->
  validConfig (Unmarshal env data DefaultConfig) ->
  LoadConfig env = (Unmarshal env data DefaultConfig, []).
Proof.
  intros Hhome Hfile (Hpos & Hdepth & Htheme).
  unfold LoadConfig. rewrite Hhome, Hfile.
  destruct (Unmarshal env data DefaultConfig) as [pos depth theme].
  cbn [DiffPosition ScanDepth Config_Theme] in *.
  rewrite (ConfigFacts.applyThemeDefaults_keep theme Htheme).
  assert (Hkeep : negb (String.eqb pos "right")
                  && negb (String.eqb pos "bottom") = false)
    by (by destruct Hpos as [->| ->]).
  rewrite Hkeep. cbn [ScanDepth].
  by destruct (Z.ltb_spec depth 1); [lia|].
Qed.

Lemma LoadConfig_keeps_valid_witness :
  LoadConfig bottomEnv = (mkConfig "bottom" 1 DefaultTheme, []).
Proof.
  apply (LoadConfig_keeps_valid bottomEnv "/home/u" "diff_position: bottom").
  - reflexivity.
  - reflexivity.
  - split; [by right|]. split; [done|]. by repeat split.
Defined.

(** ** What the tree shows *)

Module FileFacts.

(** *** Relative directories *)

Lemma Split_relDir (d : string) :
  relDir d ->
  exists c p rest,
    strings.Split d filepath.slash = String c p :: rest
    /\ c <> filepath.slash.
Proof.
  intros [Hne Hroot]. destruct d as [|c d]; [done|].
  cbn in Hroot. cbn [strings.Split]. rewrite Hroot.
  apply Ascii.eqb_neq in Hroot.
  destruct (strings.Split d filepath.slash) as [|h t]; by eauto.
Qed.

Lemma Join_relDir (c : ascii) (p : string) (rest : list string) :
  c <> filepath.slash -> relDir (strings.Join (String c p :: rest) "/").
Proof.
  intros Hc. apply Ascii.eqb_neq in Hc.
  destruct rest as [|y t]; (split; [done|]); cbn; exact Hc.
Qed.

(** A leading part of a relative directory is a relative directory. *)
Lemma take_relDir (d : string) (k : nat) :
  relDir d -> (1 <= k)%nat ->
  relDir (strings.Join (take k (strings.Split d filepath.slash)) "/").
Proof.
  intros (c & p & rest & -> & Hc)%Split_relDir Hk.
  destruct k as [|k]; [lia|]. cbn [take]. by apply Join_relDir.
Qed.

Lemma rooted_upToLastSep (p : string) :
  filepath.rooted p = false ->
  filepath.rooted (filepath.upToLastSep p) = false.
Proof.
  destruct p as [|c p]; [done|]. cbn.
  intros Hc. rewrite Hc, orb_false_r.
  by destruct (negb (String.eqb (filepath.upToLastSep p) "")); cbn.
Qed.

Lemma removelast_Forall {A} (P : A -> Prop) (l : list A) :
  Forall P l -> Forall P (removelast l).
Proof.
  induction 1 as [|x l Hx Hl IH]; [constructor|]. cbn.
  destruct l; [constructor | by constructor].
Qed.

(** [Clean] writes only elements that are not empty. *)
Lemma cleanStep_elements (b : bool) (out : list string) (elem : string) :
  element elem ->
  Forall (fun e => e <> "" /\ element e) out ->
  Forall (fun e => e <> "" /\ element e) (filepath.cleanStep b out elem).
Proof.
  intros Helem Hout. unfold filepath.cleanStep.
  assert (Hdots : Forall (fun e => e <> "" /\ element e) [".."]).
  { repeat constructor; discriminate. }
  destruct (String.eqb_spec elem "") as [->|Hne]; [done|].
  destruct (String.eqb elem "."); [done|]. cbn [orb].
  destruct (String.eqb elem "..").
  - destruct (last out) as [e|].
    + destruct (String.eqb e "..");
        [by apply Forall_app | by apply removelast_Forall].
    + destruct b; [done | by apply Forall_app].
  - apply Forall_app. split; [done|]. by repeat constructor.
Qed.

Lemma clean_elements (b : bool) (parts : list string) :
  Forall element parts ->
  forall out,
    Forall (fun e => e <> "" /\ element e) out ->
    Forall (fun e => e <> "" /\ element e)
           (foldl (filepath.cleanStep b) out parts).
Proof.
  induction 1 as [|e parts He _ IH]; intros out Hout; [done|].
  cbn [foldl]. by apply IH, cleanStep_elements.
Qed.

Lemma Clean_relative (q : string) :
  filepath.rooted q = false ->
  filepath.Clean q = "." \/ relDir (filepath.Clean q).
Proof.
  intros Hq. unfold filepath.Clean.
  destruct (String.eqb q ""); [by left|]. rewrite Hq.
  pose proof (clean_elements false _ (SplitFacts.Split_elements q) []
                ltac:(constructor)) as Hout.
  destruct (foldl _ _ _) as [|e out]; [by left|]. right.
  apply Forall_cons in Hout as [[Hne He] _].
  destruct e as [|c p]; [done|]. apply Forall_cons in He as [Hc _].
  pose proof (Join_relDir c p out Hc) as Hrel.
  destruct (String.eqb_spec (strings.Join (String c p :: out) "/") "")
    as [Hempty|_]; [by destruct Hrel|done].
Qed.

Lemma fileDir_relative (f : FileStatus) :
  filepath.rooted (Path f) = false -> fileDir f = "" \/ relDir (fileDir f).
Proof.
  intros Hf. unfold fileDir, filepath.Dir.
  destruct (Clean_relative _ (rooted_upToLastSep _ Hf)) as [->|Hrel];
    [by left|].
  destruct (String.eqb _ "."); [by left | by right].
Qed.

Lemma Join_Split (s : string) :
  strings.Join (strings.Split s filepath.slash) "/" = s.
Proof.
  induction s as [|c s IH]; [reflexivity|]. cbn [strings.Split].
  pose proof (SplitFacts.Split_nonempty s filepath.slash) as Hne.
  destruct (Ascii.eqb_spec c filepath.slash) as [->|_].
  - destruct (strings.Split s filepath.slash) as [|h t]; [done|].
    rewrite SplitFacts.Join_cons, IH. reflexivity.
  - destruct (strings.Split s filepath.slash) as [|h [|y t]]; [done|..].
    + cbn in IH |- *. by rewrite IH.
    + rewrite SplitFacts.Join_cons in IH |- *. by rewrite <- IH.
Qed.

(** *** The keys and the values of a map *)

Lemma keys_lookup {A} (m : gmap string A) (d : string) :
  d ∈ (map_to_list m).*1 <-> is_Some (m !! d).
Proof.
  rewrite list_elem_of_fmap. split.
  - intros ([k v] & -> & Hin%elem_of_map_to_list). by exists v.
  - intros [v Hv]. exists (d, v). split; [done|].
    by apply elem_of_map_to_list.
Qed.

Lemma filesIn_ext (m1 m2 : gmap string (list nat)) (L : list string) :
  (forall d, d ∈ L -> m1 !! d = m2 !! d) -> filesIn m1 L = filesIn m2 L.
Proof.
  unfold filesIn. induction L as [|d L IH]; intros H; [done|].
  rewrite !bind_cons, (H d) by (by left).
  rewrite IH; [done|]. intros; apply H; by right.
Qed.

Lemma filesIn_keys (m : gmap string (list nat)) :
  filesIn m (map_to_list m).*1 = map_to_list m ≫= snd.
Proof.
  unfold filesIn.
  assert (Hgen : forall l : list (string * list nat),
             (forall kv, kv ∈ l -> m !! kv.1 = Some kv.2) ->
             l.*1 ≫= (fun d => default [] (m !! d)) = l ≫= snd).
  { induction l as [|kv l IH]; intros H; [done|].
    rewrite fmap_cons, !bind_cons, (H kv) by (by left).
    rewrite IH; [done|]. intros; apply H; by right. }
  apply Hgen. intros [k v] Hin. by apply elem_of_map_to_list.
Qed.

(** The pointers of a list of directories that names every key once. *)
Lemma filesIn_cover (m : gmap string (list nat)) :
  forall L,
    NoDup L -> (forall d, is_Some (m !! d) -> d ∈ L) ->
    filesIn m L ≡ₚ map_to_list m ≫= snd.
Proof.
  induction m as [|k v m Hk IH] using map_ind; intros L Hnodup Hcover.
  - rewrite map_to_list_empty. cbn.
    unfold filesIn. clear. induction L as [|d L IH]; [done|].
    by rewrite bind_cons, lookup_empty, IH.
  - assert (Hin : k ∈ L) by (apply Hcover; by rewrite lookup_insert_eq).
    apply elem_of_Permutation in Hin as [L' HL].
    rewrite HL in Hnodup. apply NoDup_cons in Hnodup as [Hnotin Hnodup].
    rewrite map_to_list_insert by done. rewrite bind_cons. cbn [snd].
    unfold filesIn at 1. rewrite HL. rewrite bind_cons.
    rewrite lookup_insert_eq. cbn [default].
    apply Permutation_app_head.
    change (L' ≫= _) with (filesIn (<[k:=v]> m) L').
    rewrite (filesIn_ext (<[k:=v]> m) m).
    + apply IH; [done|]. intros d Hd.
      assert (Hne : d <> k) by (intros ->; rewrite Hk in Hd; by destruct Hd).
      assert (Hd' : d ∈ L).
      { apply Hcover. by rewrite lookup_insert_ne. }
      rewrite HL in Hd'. by apply elem_of_cons in Hd' as [?|?].
    + intros d Hd. apply lookup_insert_ne. by intros <-.
Qed.

(** *** The grouping of the files by directory *)

Lemma group_step_values (m : gmap string (list nat)) (d : string) (j : nat) :
  map_to_list (<[d := default [] (m !! d) ++ [j]]> m) ≫= snd
  ≡ₚ j :: (map_to_list m ≫= snd).
Proof.
  destruct (m !! d) as [old|] eqn:Hd; cbn [default].
  - rewrite <- insert_delete_eq.
    rewrite map_to_list_insert by apply lookup_delete_eq.
    rewrite <- (map_to_list_delete m d old Hd), !bind_cons. cbn [snd].
    rewrite <- app_assoc. symmetry. apply Permutation_middle.
  - rewrite map_to_list_insert by done. by rewrite bind_cons.
Qed.

Lemma group_values (l : list (nat * FileStatus)) :
  forall m0 : gmap string (list nat),
    map_to_list
      (foldl (fun (dirFiles : gmap string (list nat)) jf =>
                let dir := fileDir (snd jf) in
                <[dir := default [] (dirFiles !! dir) ++ [fst jf]]> dirFiles)
             m0 l) ≫= snd
    ≡ₚ (map_to_list m0 ≫= snd) ++ l.*1.
Proof.
  induction l as [|jf l IH]; intros m0; cbn [foldl].
  - by rewrite app_nil_r.
  - rewrite IH. cbn zeta. rewrite group_step_values. cbn.
    apply Permutation_middle.
Qed.

Lemma groupFiles_values (files : list FileStatus) :
  map_to_list (groupFiles files) ≫= snd ≡ₚ seq 0 (length files).
Proof.
  unfold groupFiles. rewrite group_values, map_to_list_empty. cbn.
  rewrite fmap_imap.
  rewrite (imap_ext _ (fun j _ => id j)) by done.
  by rewrite imap_seq_0, list_fmap_id.
Qed.

Lemma group_keys (l : list (nat * FileStatus)) :
  forall (m0 : gmap string (list nat)) d,
    is_Some
      (foldl (fun (dirFiles : gmap string (list nat)) jf =>
                let dir := fileDir (snd jf) in
                <[dir := default [] (dirFiles !! dir) ++ [fst jf]]> dirFiles)
             m0 l !! d) ->
    is_Some (m0 !! d) \/ exists jf, jf ∈ l /\ d = fileDir (snd jf).
Proof.
  induction l as [|jf l IH]; intros m0 d H; cbn [foldl] in H; [by left|].
  apply IH in H as [H|(jf' & Hin & ->)].
  - cbn zeta in H. apply lookup_insert_is_Some in H as [<-|[_ H]].
    + right. exists jf. split; [by left | done].
    + by left.
  - right. exists jf'. split; [by right | done].
Qed.

Lemma groupFiles_keys (files : list FileStatus) (d : string) :
  is_Some (groupFiles files !! d) ->
  exists f, f ∈ files /\ d = fileDir f.
Proof.
  intros H. apply group_keys in H as [H|([j f] & Hin & ->)].
  - rewrite lookup_empty in H. by destruct H.
  - exists f. split; [|done].
    apply elem_of_lookup_imap in Hin as (k & x & [= -> ->] & Hx).
    by eapply list_elem_of_lookup_2.
Qed.

(** *** The file nodes *)

Lemma shownFiles_app (a b : list TreeNode) :
  shownFiles (a ++ b) = shownFiles a ++ shownFiles b.
Proof. apply omap_app. Qed.

Lemma shownFiles_files (i : nat) (depth parentIdx : Z) (files : list nat) :
  shownFiles (map (fileNode i depth parentIdx) files) = pair i <$> files.
Proof.
  induction files as [|f files IH]; [done|].
  cbn [map]. change (shownFiles (?n :: ?l))
    with (match Kind n, File n with
          | NodeFile, Some f => (RepoRef n, f) :: shownFiles l
          | _, _ => shownFiles l
          end).
  cbn [Kind File RepoRef fileNode]. by rewrite IH.
Qed.

Section AddDir.
Variables (i : nat) (repoIdx : Z) (dirFiles : gmap string (list nat)).

Lemma addDir_known (fuel : nat) (dir : string) (st : builder) (v : Z) :
  dirNodeIdx st !! dir = Some v ->
  addDir fuel i repoIdx dirFiles dir st = Returns st.
Proof. intros H. destruct fuel; cbn [addDir]; by rewrite H. Qed.

Lemma addDir_flat (fuel : nat) (dir segment : string) (st : builder) :
  dirNodeIdx st !! dir = None ->
  strings.Split dir filepath.slash = [segment] ->
  addDir fuel i repoIdx dirFiles dir st
  = Returns (mkBuilder
               (b_nodes st
                ++ dirNode i segment 1 repoIdx
                   :: map (fileNode i 2 (len (b_nodes st)))
                          (default [] (dirFiles !! dir)))
               (<[dir := len (b_nodes st)]> (dirNodeIdx st))).
Proof.
  intros Hdir Hparts.
  destruct fuel; cbn [addDir]; rewrite Hdir, Hparts.
  all: change (len [segment]) with 1; change (1 <? 1) with false.
  all: cbn [bind fst snd].
  all: change (index [segment] (1 - 1)) with (Returns segment).
  all: cbn [bind]; by rewrite <- app_assoc.
Qed.

Lemma addDir_deep (fuel : nat) (dir segment : string) (st st1 : builder) :
  let parts := strings.Split dir filepath.slash in
  let parentDir :=
    strings.Join (take (Z.to_nat (len parts - 1)) parts) "/" in
  dirNodeIdx st !! dir = None ->
  1 < len parts ->
  last parts = Some segment ->
  addDir fuel i repoIdx dirFiles parentDir st = Returns st1 ->
  addDir (S fuel) i repoIdx dirFiles dir st
  = Returns (mkBuilder
               (b_nodes st1
                ++ dirNode i segment (len parts)
                     (default 0 (dirNodeIdx st1 !! parentDir))
                   :: map (fileNode i (len parts + 1) (len (b_nodes st1)))
                          (default [] (dirFiles !! dir)))
               (<[dir := len (b_nodes st1)]> (dirNodeIdx st1))).
Proof.
  intros parts parentDir Hdir Hdeep Hlast Hparent.
  cbn [addDir]. rewrite Hdir. fold parts.
  destruct (Z.ltb_spec 1 (len parts)); [|lia].
  fold parentDir. rewrite Hparent. cbn [bind fst snd].
  rewrite (index_last _ _ Hlast). cbn [bind].
  by rewrite <- app_assoc.
Qed.

Lemma entered_known (dir : string) (st : builder) (v : Z) :
  dirNodeIdx st !! dir = Some v -> binv repoIdx st ->
  entered i repoIdx dirFiles dir st st.
Proof.
  intros Hdir Hinv. exists [], [].
  split; [by rewrite app_nil_r|]. split; [done|]. split; [done|].
  split; [done|]. split; [constructor|]. split; [constructor|].
  apply keys_lookup. by exists v.
Qed.

Lemma entered_flat (dir segment : string) (st : builder) :
  dirNodeIdx st !! dir = None ->
  binv repoIdx
    (mkBuilder
       (b_nodes st
        ++ dirNode i segment 1 repoIdx
           :: map (fileNode i 2 (len (b_nodes st)))
                  (default [] (dirFiles !! dir)))
       (<[dir := len (b_nodes st)]> (dirNodeIdx st))) ->
  relDir dir ->
  entered i repoIdx dirFiles dir st
    (mkBuilder
       (b_nodes st
        ++ dirNode i segment 1 repoIdx
           :: map (fileNode i 2 (len (b_nodes st)))
                  (default [] (dirFiles !! dir)))
       (<[dir := len (b_nodes st)]> (dirNodeIdx st))).
Proof.
  intros Hdir Hinv Hrel. eexists _, [dir]. cbn [b_nodes dirNodeIdx].
  split; [reflexivity|]. split; [done|].
  split; [by rewrite map_to_list_insert|].
  split.
  { change (shownFiles (dirNode ?a ?b ?c ?d :: ?l)) with (shownFiles l).
    rewrite shownFiles_files. unfold filesIn.
    by rewrite bind_cons, app_nil_r. }
  split; [constructor; [done | constructor]|].
  split; [constructor; [lia | constructor]|].
  rewrite map_to_list_insert by done. by left.
Qed.

(** The file nodes that [addDir] appends are the files of the
    directories that it enters into [dirNodeIdx]. *)
Lemma addDir_files (fuel : nat) :
  forall dir st,
    (length (strings.Split dir filepath.slash) <= S fuel)%nat ->
    binv repoIdx st ->
    relDir dir ->
    exists st',
      addDir fuel i repoIdx dirFiles dir st = Returns st'
      /\ entered i repoIdx dirFiles dir st st'.
Proof.
  induction fuel as [|fuel IH]; intros dir st Hlen Hinv Hrel.
  all: destruct (BuildFacts.addDir_spec i repoIdx dirFiles _ dir st Hlen Hinv)
    as (ext0 & idx0 & Hrun0 & _ & Hinv0).
  all: destruct (dirNodeIdx st !! dir) as [v|] eqn:Hdir;
    [ exists st; split;
      [by apply (addDir_known _ dir st v) | by apply (entered_known dir st v)]
    |].
  all: destruct (Split_relDir dir Hrel) as (c & p & rest & Hparts & Hc).
  all: destruct rest as [|y rest];
    [ rewrite (addDir_flat _ dir _ st Hdir Hparts) in Hrun0 |- *;
      injection Hrun0 as Hnodes Hidx;
      eexists; split; [reflexivity|];
      apply entered_flat; [done | by rewrite Hnodes, Hidx | done]
    |].
  { rewrite Hparts in Hlen. cbn [length] in Hlen. lia. }
  set (parts := strings.Split dir filepath.slash) in *.
  assert (Hdeep : 1 < len parts)
    by (unfold len; rewrite Hparts; cbn [length]; lia).
  set (parentDir :=
         strings.Join (take (Z.to_nat (len parts - 1)) parts) "/").
  assert (Hplen : length (strings.Split parentDir filepath.slash)
                  = Nat.pred (length parts))
    by apply (SplitFacts.parent_parts dir Hdeep).
  destruct (IH parentDir st)
    as (st1 & Hrun1 & ext1 & keys1 & Hnodes1 & Hinv1 & Hkeys1 & Hfiles1
        & Hrel1 & Hshort1 & _).
  { rewrite Hplen. lia. }
  { done. }
  { apply take_relDir; [done|]. unfold len in *. lia. }
  destruct (last parts) as [segment|] eqn:Hlast.
  2: { apply last_None in Hlast. by rewrite Hparts in Hlast. }
  pose proof (addDir_deep fuel dir segment st st1 Hdir Hdeep Hlast Hrun1)
    as Hrun.
  rewrite Hrun in Hrun0 |- *. injection Hrun0 as Hnodes Hidx.
  assert (Hfresh : dirNodeIdx st1 !! dir = None).
  { destruct (dirNodeIdx st1 !! dir) as [v|] eqn:Hv; [|done].
    assert (Hin : dir ∈ (map_to_list (dirNodeIdx st1)).*1)
      by (apply keys_lookup; by exists v).
    rewrite Hkeys1 in Hin. apply elem_of_app in Hin as [Hin|Hin].
    - rewrite Forall_forall in Hshort1. apply Hshort1 in Hin.
      fold parts in Hin. rewrite Hplen in Hin. unfold len in Hdeep. lia.
    - apply keys_lookup in Hin. rewrite Hdir in Hin. by destruct Hin. }
  eexists. split; [reflexivity|].
  exists (ext1 ++ dirNode i segment (len parts)
                    (default 0 (dirNodeIdx st1 !! parentDir))
                  :: map (fileNode i (len parts + 1) (len (b_nodes st1)))
                         (default [] (dirFiles !! dir))),
         (keys1 ++ [dir]).
  cbn [b_nodes dirNodeIdx].
  split; [by rewrite Hnodes1, <- app_assoc|].
  split; [by rewrite Hnodes, Hidx|].
  split.
  { rewrite map_to_list_insert by done. rewrite fmap_cons. cbn [fst].
    rewrite Hkeys1, <- app_assoc. cbn [app].
    apply Permutation_middle. }
  split.
  { rewrite shownFiles_app, Hfiles1.
    change (shownFiles (dirNode ?a ?b ?c ?d :: ?l)) with (shownFiles l).
    rewrite shownFiles_files. unfold filesIn.
    by rewrite bind_app, bind_cons, app_nil_r, fmap_app. }
  split; [apply Forall_app; split; [done|]; constructor; [done | constructor]|].
  split.
  { apply Forall_app. split; [|constructor; [lia | constructor]].
    eapply Forall_impl; [exact Hshort1|]. cbn. intros d Hd.
    fold parts. rewrite Hplen in Hd. lia. }
  rewrite map_to_list_insert by done. by left.
Qed.

(** The loop of [addRepo] over the sorted directories. *)
Lemma loop_files (acc1 : list TreeNode) (dirs : list string) :
  Forall relDir dirs ->
  forall st ext,
    binv repoIdx st ->
    b_nodes st = acc1 ++ ext ->
    shownFiles ext
    ≡ₚ pair i <$> filesIn dirFiles (map_to_list (dirNodeIdx st)).*1 ->
    Forall relDir (map_to_list (dirNodeIdx st)).*1 ->
    exists st' ext',
      forEach (fun st dir =>
                 addDir (String.length dir) i repoIdx dirFiles dir st)
              dirs st = Returns st'
      /\ b_nodes st' = acc1 ++ ext'
      /\ shownFiles ext'
         ≡ₚ pair i <$> filesIn dirFiles (map_to_list (dirNodeIdx st')).*1
      /\ Forall relDir (map_to_list (dirNodeIdx st')).*1
      /\ (forall d,
            d ∈ dirs \/ d ∈ (map_to_list (dirNodeIdx st)).*1 ->
            d ∈ (map_to_list (dirNodeIdx st')).*1).
Proof.
  induction 1 as [|dir dirs Hdir _ IH];
    intros st ext Hinv Hnodes Hfiles Hrel.
  - exists st, ext. split; [done|]. split; [done|]. split; [done|].
    split; [done|]. intros d [Hd|Hd]; [by apply elem_of_nil in Hd | done].
  - cbn [forEach].
    destruct (addDir_files (String.length dir) dir st)
      as (st1 & -> & ext1 & keys1 & Hnodes1 & Hinv1 & Hkeys1 & Hfiles1
          & Hrel1 & _ & Hin1);
      [apply SplitFacts.Split_length | done | done |].
    cbn [bind].
    destruct (IH st1 (ext ++ ext1))
      as (st' & ext' & Hrun & Hnodes' & Hfiles' & Hrel' & Hmono).
    + done.
    + by rewrite Hnodes1, Hnodes, app_assoc.
    + rewrite shownFiles_app, Hfiles1, Hfiles, <- fmap_app.
      apply fmap_Permutation. unfold filesIn.
      rewrite Hkeys1, bind_app. apply Permutation_app_comm.
    + eapply DiscoveryFacts.Forall_perm; [symmetry; exact Hkeys1|].
      by apply Forall_app.
    + exists st', ext'. split; [done|]. split; [done|]. split; [done|].
      split; [done|]. intros d [Hd|Hd]; apply Hmono.
      * apply elem_of_cons in Hd as [->|Hd]; [by right | by left].
      * right. rewrite Hkeys1. apply elem_of_app. by right.
Qed.

End AddDir.

Lemma elem_of_dirSet (l : list string) :
  forall (s : gset string) z,
    z ∈ foldl addPrefixes s l
    <-> z ∈ s \/ exists key, key ∈ l /\ z ∈ addPrefixes ∅ key.
Proof.
  induction l as [|a l IH]; intros s z; cbn [foldl].
  - split; [by left|].
    intros [?|(? & Hin & _)]; [done | by apply elem_of_nil in Hin].
  - rewrite IH, OrderIndependence.elem_of_addPrefixes. split.
    + intros [[?|?]|(key & ? & ?)]; [by left|right..].
      * exists a. split; [by left | done].
      * exists key. split; [by right | done].
    + intros [?|(key & Hin & ?)]; [by left; left|].
      apply elem_of_cons in Hin as [->|Hin]; [by left; right|].
      right. by exists key.
Qed.

Lemma prefixes_relDir (key z : string) :
  relDir key -> z ∈ addPrefixes ∅ key -> relDir z.
Proof.
  intros Hkey. unfold addPrefixes.
  destruct (String.eqb key ""); [by intros ?%elem_of_empty|].
  rewrite OrderIndependence.elem_of_prefix_loop.
  intros [?%elem_of_empty|(k & Hk & ->)]; [done|].
  apply elem_of_seq in Hk. apply take_relDir; [done | lia].
Qed.

Lemma prefixes_self (key : string) : key <> "" -> key ∈ addPrefixes ∅ key.
Proof.
  intros Hkey. unfold addPrefixes.
  destruct (String.eqb_spec key "") as [?|_]; [done|].
  rewrite OrderIndependence.elem_of_prefix_loop. right.
  pose proof (SplitFacts.Split_nonempty key filepath.slash) as Hne.
  exists (length (strings.Split key filepath.slash)). split.
  - apply elem_of_seq.
    destruct (strings.Split key filepath.slash); [done | cbn; lia].
  - by rewrite take_ge, Join_Split.
Qed.

(** One repository: behind its node, each of its files once. *)
Lemma addRepo_files (o : MapOrder) (acc : list TreeNode) (i : nat)
  (r : Repo) :
  fair o -> relativePaths r ->
  exists ext,
    addRepo o acc (i, r) = Returns (acc ++ repoNode i :: ext)
    /\ shownFiles ext ≡ₚ pair i <$> seq 0 (length (Files r)).
Proof.
  intros Hfair Hrel. unfold addRepo. cbn [fst snd].
  set (dirFiles := groupFiles (Files r)).
  set (dirSet := foldl addPrefixes ∅ (o i false (map_to_list dirFiles).*1)).
  set (allDirs := sort.Strings (o i true (elements dirSet))).
  assert (HinAll : forall d, d ∈ allDirs <-> d ∈ dirSet).
  { intros d. unfold allDirs, sort.Strings.
    rewrite (OrderFacts.Slice_Permutation String.ltb _).
    rewrite (Hfair i true _). apply elem_of_elements. }
  assert (HdirSet : forall d,
             d ∈ dirSet
             <-> exists key, is_Some (dirFiles !! key)
                             /\ d ∈ addPrefixes ∅ key).
  { intros d. unfold dirSet. rewrite elem_of_dirSet. split.
    - intros [?%elem_of_empty|(key & Hkey & Hd)]; [done|].
      exists key. split; [|done].
      rewrite (Hfair i false _) in Hkey. by apply keys_lookup.
    - intros (key & Hkey & Hd). right. exists key. split; [|done].
      rewrite (Hfair i false _). by apply keys_lookup. }
  assert (Hkeyrel : forall key,
             is_Some (dirFiles !! key) -> key = "" \/ relDir key).
  { intros key (f & Hf & ->)%groupFiles_keys.
    apply fileDir_relative.
    unfold relativePaths in Hrel. rewrite Forall_forall in Hrel.
    by apply Hrel. }
  assert (HallRel : Forall relDir allDirs).
  { apply Forall_forall. intros d (key & Hkey & Hd)%HinAll%HdirSet.
    destruct (Hkeyrel key Hkey) as [->|Hkeyr].
    - by apply elem_of_empty in Hd.
    - by eapply prefixes_relDir. }
  destruct (loop_files i (len acc) dirFiles (acc ++ [repoNode i]) allDirs
              HallRel (mkBuilder (acc ++ [repoNode i]) ∅) [])
    as (st' & ext' & Hrun & Hnodes & Hfiles & Hrels & Hmono).
  { split; cbn [b_nodes dirNodeIdx]; [lens|].
    intros d v Hd. by rewrite lookup_empty in Hd. }
  { cbn. by rewrite app_nil_r. }
  { cbn [dirNodeIdx]. by rewrite map_to_list_empty. }
  { cbn [dirNodeIdx]. rewrite map_to_list_empty. constructor. }
  rewrite Hrun. cbn [bind]. rewrite Hnodes.
  exists (ext' ++ map (fileNode i 1 (len acc)) (default [] (dirFiles !! ""))).
  split.
  { rewrite <- !app_assoc. reflexivity. }
  rewrite shownFiles_app, shownFiles_files, Hfiles, <- fmap_app.
  apply fmap_Permutation.
  rewrite <- groupFiles_values. fold dirFiles.
  rewrite <- (filesIn_cover dirFiles
                ((map_to_list (dirNodeIdx st')).*1 ++ [""])).
  - unfold filesIn. by rewrite bind_app, bind_cons, app_nil_r.
  - apply NoDup_app. split; [apply NoDup_fst_map_to_list|].
    split; [|apply NoDup_singleton].
    intros x Hx ->%list_elem_of_singleton.
    rewrite Forall_forall in Hrels. by destruct (Hrels _ Hx).
  - intros d Hd. apply elem_of_app.
    destruct (decide (d = "")) as [->|Hne]; [right; by left|].
    left. apply Hmono. left. apply HinAll, HdirSet.
    exists d. split; [done|]. by apply prefixes_self.
Qed.

Lemma forEach_app {A S} (body : S -> A -> outcome S) (l1 l2 : list A) :
  forall s,
    forEach body (l1 ++ l2) s
    = do s' <- forEach body l1 s; forEach body l2 s'.
Proof.
  induction l1 as [|a l1 IH]; intros s; [done|]. cbn [app forEach].
  destruct (body s a); cbn [bind]; [apply IH | done | done].
Qed.

(** The node array of [NewTreeModel]: each file of each repository
    once. *)
Lemma build_files (o : MapOrder) (rs : list Repo) :
  fair o -> Forall relativePaths rs ->
  exists ns,
    forEach (addRepo o) (imap pair rs) [] = Returns ns
    /\ shownFiles ns ≡ₚ changedFiles rs.
Proof.
  intros Hfair. induction rs as [|r rs IH] using rev_ind; intros Hrel.
  - by exists [].
  - apply Forall_app in Hrel as [Hrs Hr].
    apply Forall_cons in Hr as [Hr _].
    destruct (IH Hrs) as (ns & Hrun & Hns).
    rewrite imap_app, forEach_app, Hrun. cbn [bind imap forEach].
    rewrite Nat.add_0_r.
    destruct (addRepo_files o ns (length rs) r Hfair Hr) as (ext & -> & Hext).
    cbn [bind]. eexists. split; [reflexivity|].
    rewrite shownFiles_app.
    change (shownFiles (repoNode (length rs) :: ext)) with (shownFiles ext).
    unfold changedFiles. rewrite imap_app, concat_app. cbn [imap concat].
    rewrite app_nil_r, Nat.add_0_r.
    by rewrite Hns, Hext.
Qed.

End FileFacts.

(** X25. The tree shows every changed file once: for a fair iteration
    order of the maps and relative file paths, the file nodes of the
    tree that [NewTreeModel] builds are, up to their order, the files of
    the repositories, each under the number of its repository. *)
Theorem NewTreeModel_shows_every_file (o : MapOrder) (rs : list Repo) :
  fair o -> Forall relativePaths rs ->
  exists tm,
    NewTreeModel o rs = Returns tm
    /\ shownFiles (nodes tm) ≡ₚ changedFiles rs.
Proof.
  intros Hfair Hrel.
  destruct (FileFacts.build_files o rs Hfair Hrel) as (ns & Hrun & Hns).
  destruct (BuildFacts.build_nodes o rs) as (ns' & Hrun' & Hwf & _).
  rewrite Hrun in Hrun'. injection Hrun' as <-.
  unfold NewTreeModel. rewrite Hrun. cbn [bind].
  destruct (NavFacts.rebuildVisible_consistent ns [] 0 Hwf)
    as (vis & -> & _); [lia|].
  eexists. split; [reflexivity|]. exact Hns.
Qed.

Lemma NewTreeModel_shows_every_file_witness :
  exists tm,
    NewTreeModel idOrder [projRepo; srcOnly] = Returns tm
    /\ shownFiles (nodes tm) ≡ₚ changedFiles [projRepo; srcOnly].
Proof.
  apply (NewTreeModel_shows_every_file idOrder [projRepo; srcOnly]).
  - exact idOrder_fair.
  - repeat constructor.
Defined.

(** ** The rows on the screen *)

Module RenderFacts.

Section Rows.
Variables (p : Painter) (tm : TreeModel) (width height : Z).
Hypothesis Hrange : forall z, z ∈ visible tm -> 0 <= z < len (nodes tm).

(** The row loop draws the rows from [i] on until the panel is full or
    the rows end. *)
Lemma renderRows_spec (fuel : nat) :
  forall i lines,
    0 <= i -> len (visible tm) - i <= Z.of_nat fuel ->
    exists out,
      renderRows p fuel tm width height i lines = Returns (lines ++ out)
      /\ len out
         = Z.max 0 (Z.min (height - len lines) (len (visible tm) - i))
      /\ forall k v n,
           (k < length out)%nat ->
           visible tm !! (Z.to_nat i + k)%nat = Some v ->
           nodes tm !! Z.to_nat v = Some n ->
           out !! k
           = Some (padRight p
                     (renderNode p n (i + Z.of_nat k =? cursor tm) width)
                     width (i + Z.of_nat k =? cursor tm)).
Proof.
  induction fuel as [|fuel IH]; intros i lines Hi Hfuel.
  all: cbn [renderRows].
  all: destruct (Z.ltb_spec i (len (visible tm))) as [Hrow|Hend];
    [destruct (Z.ltb_spec (len lines) height) as [Hroom|Hfull]|];
    cbn [andb].
  all: try (exists []; rewrite app_nil_r; split; [done|];
            split; [unfold len in *; cbn [length]; lia|];
            intros k v n Hk; cbn [length] in Hk; lia).
  { lia. }
  destruct (visible tm !! Z.to_nat i) as [v|] eqn:Hv.
  2: { apply lookup_ge_None in Hv. unfold len in Hrow. lia. }
  rewrite (proj2 (index_Returns (visible tm) i v)) by done. cbn [bind].
  assert (Hin : 0 <= v < len (nodes tm))
    by (apply Hrange; by eapply list_elem_of_lookup_2).
  destruct (nodes tm !! Z.to_nat v) as [n|] eqn:Hn.
  2: { apply lookup_ge_None in Hn. unfold len in Hin. lia. }
  rewrite (proj2 (index_Returns (nodes tm) v n)) by (split; [lia | done]).
  cbn [bind].
  set (line := padRight p (renderNode p n (i =? cursor tm) width) width
                 (i =? cursor tm)).
  destruct (IH (i + 1) (lines ++ [line])) as (out & -> & Hlen & Hrows);
    [lia | lia |].
  exists (line :: out). split; [by rewrite <- app_assoc|]. split.
  - unfold len in *. rewrite length_app in Hlen. cbn [length] in *. lia.
  - intros k v' n' Hk Hv' Hn'. destruct k as [|k].
    + rewrite Nat.add_0_r in Hv'. rewrite Hv in Hv'. injection Hv' as <-.
      rewrite Hn in Hn'. injection Hn' as <-.
      by rewrite Z.add_0_r.
    + cbn [lookup list_lookup]. cbn [length] in Hk.
      replace (i + Z.of_nat (S k)) with (i + 1 + Z.of_nat k) by lia.
      apply (Hrows k v' n'); [lia| |done].
      by replace (Z.to_nat (i + 1) + k)%nat with (Z.to_nat i + S k)%nat
        by lia.
Qed.

(** The blank rows fill the panel. *)
Lemma padRows_spec (fuel : nat) :
  0 <= width ->
  forall lines,
    height - len lines <= Z.of_nat fuel ->
    exists out,
      padRows fuel width height lines = Returns (lines ++ out)
      /\ len (lines ++ out) = Z.max (len lines) height.
Proof.
  intros Hwidth. induction fuel as [|fuel IH]; intros lines Hfuel.
  all: cbn [padRows].
  all: destruct (Z.ltb_spec (len lines) height) as [Hroom|Hfull].
  all: try (exists []; rewrite app_nil_r; split; [done | lia]).
  { lia. }
  unfold Repeat. destruct (Z.ltb_spec width 0) as [?|_]; [lia|].
  cbn [bind].
  destruct (IH (lines ++ [String.concat "" (repeat " " (Z.to_nat width))]))
    as (out & -> & Hlen).
  { unfold len in *. rewrite length_app. cbn [length]. lia. }
  eexists (_ :: out). split; [by rewrite <- app_assoc|].
  rewrite <- app_assoc in Hlen. cbn [app] in Hlen. rewrite Hlen.
  unfold len in *. rewrite length_app. cbn [length]. lia.
Qed.

End Rows.
End RenderFacts.

(** X26. [Render] keeps the cursor on the screen.  For a tree that the
    program reaches and that is not empty, a panel of at least one row
    and a width that is not negative, the rows that it joins are drawn
    without a panic, there are exactly [height] of them, and the row of the
    selected node is among them, drawn as selected: it is row [cursor]
    while the cursor is above the last row of the panel, and the last
    row from then on. *)
Theorem Render_shows_cursor
  (o : MapOrder) (p : Painter) (tm : TreeModel) (width height i : Z)
  (n : TreeNode) :
  reachable o tm ->
  SelectedNode tm = Returns (Some i) ->
  nodes tm !! Z.to_nat i = Some n ->
  1 <= height -> 0 <= width ->
  exists lines,
    renderLines p tm width height = Returns lines
    /\ len lines = height
    /\ lines !! Z.to_nat (Z.min (cursor tm) (height - 1))
       = Some (padRight p (renderNode p n true width) width true).
Proof.
  intros Hreach Hsel Hn Hheight Hwidth.
  destruct (NavFacts.reachable_inv o tm Hreach)
    as (Hwf & (Hmem & Hrange & Hsorted) & Hcur & Hrow).
  assert (Hne : visible tm <> []).
  { intros Hempty. unfold SelectedNode in Hsel. by rewrite Hempty in Hsel. }
  destruct Hrow as [Hrow|[? _]]; [|done].
  destruct (NavFacts.selected_in_range tm (NavFacts.reachable_inv o tm Hreach)
              Hne) as (i' & n' & Hvis & _ & _ & Hsel').
  rewrite Hsel in Hsel'. injection Hsel' as <-.
  unfold renderLines.
  assert (Hstart : 0 <= startIdx tm height <= cursor tm
                   /\ cursor tm - startIdx tm height
                      = Z.min (cursor tm) (height - 1)).
  { unfold startIdx. destruct (Z.leb_spec height (cursor tm)); lia. }
  destruct (RenderFacts.renderRows_spec p tm width height Hrange
              (length (visible tm)) (startIdx tm height) [])
    as (out & -> & Hlen & Hrows); [lia | unfold len; lia |].
  cbn [bind app].
  destruct (RenderFacts.padRows_spec width height (Z.to_nat height) Hwidth out)
    as (pad & -> & Hpad); [unfold len; lia|].
  change (len []) with 0 in Hlen.
  exists (out ++ pad). split; [done|]. split; [lia|].
  assert (Hk : (Z.to_nat (Z.min (cursor tm) (height - 1)) < length out)%nat)
    by (unfold len in *; lia).
  rewrite lookup_app_l by done.
  rewrite (Hrows _ i n Hk).
  - replace (startIdx tm height
             + Z.of_nat (Z.to_nat (Z.min (cursor tm) (height - 1))))
      with (cursor tm) by lia.
    by rewrite Z.eqb_refl.
  - replace (Z.to_nat (startIdx tm height)
             + Z.to_nat (Z.min (cursor tm) (height - 1)))%nat
      with (Z.to_nat (cursor tm)) by lia.
    exact Hvis.
  - exact Hn.
Qed.

Lemma Render_shows_cursor_witness :
  exists lines,
    renderLines plainPainter (MoveDown projTree) 40 1 = Returns lines
    /\ len lines = 1
    /\ lines !! Z.to_nat (Z.min (cursor (MoveDown projTree)) (1 - 1))
       = Some (padRight plainPainter
                 (renderNode plainPainter (dirNode 0 "src" 1 0) true 40)
                 40 true).
Proof.
  apply (Render_shows_cursor idOrder plainPainter (MoveDown projTree) 40 1 1
           (dirNode 0 "src" 1 0) projTree_reachable eq_refl).
  - reflexivity.
  - lia.
  - lia.
Defined.

(** ** Where the tree puts a file *)

Module PlaceFacts.

Lemma group_members (l : list (nat * FileStatus)) :
  forall (m0 : gmap string (list nat)) d f,
    f ∈ default []
          (foldl (fun (dirFiles : gmap string (list nat)) jf =>
                    let dir := fileDir (snd jf) in
                    <[dir := default [] (dirFiles !! dir) ++ [fst jf]]>
                      dirFiles)
                 m0 l !! d) ->
    f ∈ default [] (m0 !! d)
    \/ exists jf, jf ∈ l /\ fst jf = f /\ fileDir (snd jf) = d.
Proof.
  induction l as [|jf l IH]; intros m0 d f H; cbn [foldl] in H; [by left|].
  apply IH in H as [H|(jf' & Hin & ? & ?)].
  - cbn zeta in H. destruct (decide (fileDir (snd jf) = d)) as [<-|Hne].
    + rewrite lookup_insert_eq in H. cbn [default] in H.
      apply elem_of_app in H as [H|H]; [by left|].
      apply list_elem_of_singleton in H as ->.
      right. exists jf. split; [by left | done].
    + rewrite lookup_insert_ne in H by done. by left.
  - right. exists jf'. split; [by right | done].
Qed.

(** A pointer that [groupFiles] files under [d] is a file of
    directory [d]. *)
Lemma groupFiles_members (files : list FileStatus) (d : string) (f : nat) :
  f ∈ default [] (groupFiles files !! d) ->
  exists file, files !! f = Some file /\ fileDir file = d.
Proof.
  intros H. apply group_members in H as [H|([j file] & Hin & <- & <-)].
  - rewrite lookup_empty in H. by apply elem_of_nil in H.
  - exists file. split; [|done].
    by apply elem_of_lookup_imap in Hin as (k & x & [= -> ->] & Hx).
Qed.

Lemma under_app (ns ext : list TreeNode) (repoIdx : Z)
  (segsRev : list string) :
  forall v,
    under ns repoIdx segsRev v -> under (ns ++ ext) repoIdx segsRev v.
Proof.
  induction segsRev as [|seg above IH]; intros v; [done|].
  cbn [under]. intros (n & Hv & Hn & Hkind & Hseg & Hdepth & Habove).
  exists n. split; [done|]. split; [by apply lookup_app_l_Some|].
  split; [done|]. split; [done|]. split; [done|]. by apply IH.
Qed.

Lemma placedFile_app (ns ext : list TreeNode) (repoIdx : Z) (r : Repo)
  (n : TreeNode) (f : nat) :
  placedFile ns repoIdx r n f -> placedFile (ns ++ ext) repoIdx r n f.
Proof.
  intros (file & Hfile & Hunder & Hdepth). exists file.
  split; [done|]. split; [by apply under_app | done].
Qed.

Section Place.
Variables (i : nat) (repoIdx : Z) (dirFiles : gmap string (list nat)).

(** A directory node behind the node array, with its files. *)
Lemma placed_dir (ns : list TreeNode) (idx : gmap string Z)
  (dir seg : string) (above : list string) (pv : Z) :
  placed i repoIdx dirFiles ns idx ->
  dir <> "" ->
  strings.Split dir filepath.slash = above ++ [seg] ->
  under ns repoIdx (rev above) pv ->
  placed i repoIdx dirFiles
    (ns ++ dirNode i seg (len (above ++ [seg])) pv
        :: map (fileNode i (len (above ++ [seg]) + 1) (len ns))
               (default [] (dirFiles !! dir)))
    (<[dir := len ns]> idx).
Proof.
  intros [HK HF] Hne Hparts Habove.
  assert (Hnew :
    under (ns ++ dirNode i seg (len (above ++ [seg])) pv
              :: map (fileNode i (len (above ++ [seg]) + 1) (len ns))
                     (default [] (dirFiles !! dir)))
          repoIdx (rev (strings.Split dir filepath.slash)) (len ns)).
  { rewrite Hparts, rev_unit. cbn [under].
    exists (dirNode i seg (len (above ++ [seg])) pv).
    split; [unfold len; lia|]. split.
    { replace (Z.to_nat (len ns)) with (length ns) by (unfold len; lia).
      by apply list_lookup_middle. }
    split; [done|]. split; [done|]. split.
    { cbn [Depth dirNode]. unfold len. cbn [length].
      rewrite length_app, length_rev. cbn [length]. lia. }
    cbn [ParentDir dirNode]. by apply under_app. }
  split.
  - intros d v Hd. apply lookup_insert_Some in Hd as [[<- <-]|[_ Hd]];
      [exact Hnew | by apply under_app, HK].
  - intros k n Hk Hrepo Hfile.
    apply lookup_app_Some in Hk as [Hk|[Hlen Hk]].
    + destruct (HF k n Hk Hrepo Hfile) as (Hi & f & d & Hf & Hin & Hu & Hd).
      split; [done|]. exists f, d.
      split; [done|]. split; [done|]. split; [by apply under_app | done].
    + apply lookup_cons_Some in Hk as [[_ <-]|[Hpos Hk]]; [done|].
      rewrite BuildFacts.lookup_map in Hk.
      destruct (default [] (dirFiles !! dir) !! _) as [f|] eqn:Hf; [|done].
      injection Hk as <-. split; [done|]. exists f, dir.
      split; [done|]. split; [by eapply list_elem_of_lookup_2|].
      unfold segments.
      destruct (String.eqb_spec dir "") as [?|_]; [done|].
      split; [exact Hnew|]. cbn [Depth fileNode]. by rewrite Hparts.
Qed.

(** [addDir] keeps the placement. *)
Lemma addDir_places (fuel : nat) :
  forall dir st,
    (length (strings.Split dir filepath.slash) <= S fuel)%nat ->
    relDir dir ->
    placed i repoIdx dirFiles (b_nodes st) (dirNodeIdx st) ->
    exists st' ext,
      addDir fuel i repoIdx dirFiles dir st = Returns st'
      /\ b_nodes st' = b_nodes st ++ ext
      /\ placed i repoIdx dirFiles (b_nodes st') (dirNodeIdx st')
      /\ is_Some (dirNodeIdx st' !! dir).
Proof.
  induction fuel as [|fuel IH]; intros dir st Hlen Hrel Hplaced.
  all: destruct (dirNodeIdx st !! dir) as [v|] eqn:Hdir;
    [ exists st, [];
      rewrite (FileFacts.addDir_known i repoIdx dirFiles _ dir st v Hdir),
              app_nil_r;
      split; [done|]; split; [done|]; split; [done|]; by exists v
    |].
  all: destruct (FileFacts.Split_relDir dir Hrel)
    as (c & p & rest & Hparts & Hc).
  all: destruct rest as [|y rest];
    [ rewrite (FileFacts.addDir_flat i repoIdx dirFiles _ dir _ st Hdir
                 Hparts);
      eexists _, _; split; [reflexivity|]; cbn [b_nodes dirNodeIdx];
      split; [reflexivity|]; split; [|by rewrite lookup_insert_eq];
      apply (placed_dir (b_nodes st) (dirNodeIdx st) dir (String c p) []
                        repoIdx Hplaced (proj1 Hrel) Hparts eq_refl)
    |].
  { rewrite Hparts in Hlen. cbn [length] in Hlen. lia. }
  set (parts := strings.Split dir filepath.slash) in *.
  assert (Hdeep : 1 < len parts)
    by (unfold len; rewrite Hparts; cbn [length]; lia).
  destruct (last parts) as [segment|] eqn:Hlast.
  2: { apply last_None in Hlast. by rewrite Hparts in Hlast. }
  destruct (proj1 (last_Some _ _) Hlast) as [above Habove].
  assert (Htake : take (Z.to_nat (len parts - 1)) parts = above).
  { rewrite Habove. apply take_app_length'. unfold len.
    rewrite length_app. cbn [length]. lia. }
  assert (Hne : above <> []).
  { intros ->. rewrite Habove in Hdeep. unfold len in Hdeep.
    cbn in Hdeep. lia. }
  assert (Helems : Forall element above).
  { pose proof (SplitFacts.Split_elements dir) as He. fold parts in He.
    rewrite Habove in He. by apply Forall_app in He as [? _]. }
  set (parentDir :=
         strings.Join (take (Z.to_nat (len parts - 1)) parts) "/").
  assert (Hpparts : strings.Split parentDir filepath.slash = above).
  { unfold parentDir. rewrite Htake. by apply SplitFacts.Split_Join. }
  destruct (IH parentDir st)
    as (st1 & ext1 & Hrun1 & Hnodes1 & Hplaced1 & [pv Hpv]).
  { rewrite Hpparts. rewrite Habove, length_app in Hlen.
    cbn [length] in Hlen. lia. }
  { apply FileFacts.take_relDir; [done|]. unfold len in *. lia. }
  { done. }
  rewrite (FileFacts.addDir_deep i repoIdx dirFiles fuel dir segment st st1
             Hdir Hdeep Hlast Hrun1).
  fold parts. fold parentDir. rewrite Hpv. cbn [default].
  eexists _, (ext1 ++ _ :: _). split; [reflexivity|].
  cbn [b_nodes dirNodeIdx].
  split; [by rewrite Hnodes1, <- app_assoc|].
  split; [|by rewrite lookup_insert_eq].
  rewrite Habove.
  apply (placed_dir (b_nodes st1) (dirNodeIdx st1) dir segment above pv
           Hplaced1 (proj1 Hrel) Habove).
  destruct Hplaced1 as [HK _]. rewrite <- Hpparts. by apply HK.
Qed.

End Place.

(** The directories that [addRepo] walks are relative. *)
Lemma allDirs_relative (o : MapOrder) (i : nat) (r : Repo) :
  fair o -> relativePaths r ->
  Forall relDir
    (sort.Strings
       (o i true
          (elements
             (foldl addPrefixes ∅
                (o i false (map_to_list (groupFiles (Files r))).*1))))).
Proof.
  intros Hfair Hrel. apply Forall_forall. intros d Hd.
  unfold sort.Strings in Hd.
  rewrite (OrderFacts.Slice_Permutation String.ltb _) in Hd.
  rewrite (Hfair i true _) in Hd. apply elem_of_elements in Hd.
  apply FileFacts.elem_of_dirSet in Hd
    as [?%elem_of_empty|(key & Hkey & Hd)]; [done|].
  rewrite (Hfair i false _) in Hkey.
  apply FileFacts.keys_lookup, FileFacts.groupFiles_keys in Hkey
    as (f & Hf & ->).
  unfold relativePaths in Hrel. rewrite Forall_forall in Hrel.
  destruct (FileFacts.fileDir_relative f (Hrel f Hf)) as [Hroot|Hkeyr].
  - rewrite Hroot in Hd. by apply elem_of_empty in Hd.
  - by eapply FileFacts.prefixes_relDir.
Qed.

(** One repository: every file node behind its node hangs under the
    directory of its file. *)
Lemma addRepo_places (o : MapOrder) (acc : list TreeNode) (i : nat)
  (r : Repo) :
  fair o -> relativePaths r ->
  exists ext,
    addRepo o acc (i, r) = Returns (acc ++ repoNode i :: ext)
    /\ forall k n,
         (acc ++ repoNode i :: ext) !! k = Some n ->
         (length acc < k)%nat -> Kind n = NodeFile ->
         RepoRef n = i
         /\ exists f,
              File n = Some f
              /\ placedFile (acc ++ repoNode i :: ext) (len acc) r n f.
Proof.
  intros Hfair Hrel. unfold addRepo. cbn [fst snd].
  pose proof (allDirs_relative o i r Hfair Hrel) as HallRel.
  set (dirFiles := groupFiles (Files r)) in *.
  set (allDirs := sort.Strings _) in *.
  destruct (BuildFacts.forEach_inv
              (fun st => (exists ext, b_nodes st = (acc ++ [repoNode i]) ++ ext)
                         /\ placed i (len acc) dirFiles (b_nodes st)
                                   (dirNodeIdx st))
              (fun st dir =>
                 addDir (String.length dir) i (len acc) dirFiles dir st)
              allDirs) with (s := mkBuilder (acc ++ [repoNode i]) ∅)
    as (st & -> & (ext & Hnodes) & [HK HF]).
  { intros st dir [[ext Hext] Hplaced] Hdir.
    rewrite Forall_forall in HallRel.
    destruct (addDir_places i (len acc) dirFiles (String.length dir) dir st)
      as (st' & ext' & -> & Hnodes' & Hplaced' & _);
      [apply SplitFacts.Split_length | by apply HallRel | done |].
    exists st'. split; [done|]. split; [|done].
    exists (ext ++ ext'). by rewrite Hnodes', Hext, app_assoc. }
  { cbn [b_nodes dirNodeIdx]. split; [exists []; by rewrite app_nil_r|].
    split.
    - intros d v Hd. by rewrite lookup_empty in Hd.
    - intros k n Hk Hrepo. apply lookup_lt_Some in Hk.
      rewrite length_app in Hk. cbn [length] in Hk. unfold len in Hrepo.
      lia. }
  cbn [bind]. rewrite Hnodes, <- !app_assoc. cbn [app].
  eexists. split; [reflexivity|].
  intros k n Hk Hrepo Hfile.
  change (acc ++ repoNode i :: ext ++ ?l)
    with (acc ++ [repoNode i] ++ ext ++ l) in Hk |- *.
  rewrite !app_assoc in Hk |- *. rewrite <- Hnodes in Hk |- *.
  apply lookup_app_Some in Hk as [Hk|[Hlen Hk]].
  - destruct (HF k n Hk ltac:(unfold len; lia) Hfile)
      as (Hi & f & d & Hf & Hin & Hu & Hd).
    split; [done|]. exists f. split; [done|].
    destruct (groupFiles_members _ _ _ Hin) as (file & Hfile' & <-).
    apply placedFile_app. by exists file.
  - rewrite BuildFacts.lookup_map in Hk.
    destruct (default [] (dirFiles !! "") !! _) as [f|] eqn:Hf; [|done].
    injection Hk as <-. split; [done|]. exists f. split; [done|].
    apply list_elem_of_lookup_2 in Hf.
    destruct (groupFiles_members _ _ _ Hf) as (file & Hfile' & Hroot).
    exists file. split; [done|]. rewrite Hroot. by split.
Qed.

(** The node array of [NewTreeModel]: every file node hangs under the
    directory of its file, in the repository of its file. *)
Lemma build_places (o : MapOrder) (rs : list Repo) :
  fair o -> Forall relativePaths rs ->
  exists ns,
    forEach (addRepo o) (imap pair rs) [] = Returns ns
    /\ forall k n,
         ns !! k = Some n -> Kind n = NodeFile ->
         exists f r repoIdx p,
           File n = Some f
           /\ rs !! RepoRef n = Some r
           /\ 0 <= repoIdx
           /\ ns !! Z.to_nat repoIdx = Some p
           /\ Kind p = NodeRepo /\ RepoRef p = RepoRef n
           /\ placedFile ns repoIdx r n f.
Proof.
  intros Hfair. induction rs as [|r rs IH] using rev_ind; intros Hrel.
  - exists []. split; [done|]. intros k n Hk. by rewrite lookup_nil in Hk.
  - apply Forall_app in Hrel as [Hrs Hr].
    apply Forall_cons in Hr as [Hr _].
    destruct (IH Hrs) as (ns & Hrun & Hns).
    rewrite imap_app, FileFacts.forEach_app, Hrun.
    cbn [bind imap forEach]. rewrite Nat.add_0_r.
    destruct (addRepo_places o ns (length rs) r Hfair Hr)
      as (ext & -> & Hext).
    cbn [bind]. eexists. split; [reflexivity|].
    intros k n Hk Hfile.
    destruct (lt_eq_lt_dec k (length ns)) as [[Hlt| ->]|Hgt].
    + rewrite lookup_app_l in Hk by done.
      destruct (Hns k n Hk Hfile)
        as (f & r' & repoIdx & p & Hf & Hr' & Hpos & Hp & Hkind & Href & Hpl).
      exists f, r', repoIdx, p. split; [done|].
      split; [by apply lookup_app_l_Some|]. split; [done|].
      split; [by apply lookup_app_l_Some|]. split; [done|].
      split; [done|]. by apply placedFile_app.
    + rewrite list_lookup_middle in Hk by done. by injection Hk as <-.
    + destruct (Hext k n Hk Hgt Hfile) as (Hi & f & Hf & Hpl).
      exists f, r, (len ns), (repoNode (length rs)).
      split; [done|]. split; [by rewrite Hi, list_lookup_middle|].
      split; [unfold len; lia|]. split.
      { replace (Z.to_nat (len ns)) with (length ns) by (unfold len; lia).
        by apply list_lookup_middle. }
      split; [done|]. split; [by rewrite Hi | done].
Qed.

End PlaceFacts.

(** X27. The tree puts every file where its path says.  For a fair
    iteration order of the maps and relative file paths, each file node
    of the tree that [NewTreeModel] builds points to a file of the
    repository it is numbered with, and hangs under that repository's
    node along the directories of the file: directly under the
    repository node for a file at the top, and otherwise under a chain
    of directory nodes that carry the segments of the file's directory,
    each at a depth one more than the node above it. *)
Theorem NewTreeModel_places_files (o : MapOrder) (rs : list Repo) :
  fair o -> Forall relativePaths rs ->
  exists tm,
    NewTreeModel o rs = Returns tm
    /\ forall k n,
         nodes tm !! k = Some n -> Kind n = NodeFile ->
         exists f r repoIdx p,
           File n = Some f
           /\ rs !! RepoRef n = Some r
           /\ 0 <= repoIdx
           /\ nodes tm !! Z.to_nat repoIdx = Some p
           /\ Kind p = NodeRepo /\ RepoRef p = RepoRef n
           /\ placedFile (nodes tm) repoIdx r n f.
Proof.
  intros Hfair Hrel.
  destruct (PlaceFacts.build_places o rs Hfair Hrel) as (ns & Hrun & Hns).
  destruct (BuildFacts.build_nodes o rs) as (ns' & Hrun' & Hwf & _).
  rewrite Hrun in Hrun'. injection Hrun' as <-.
  unfold NewTreeModel. rewrite Hrun. cbn [bind].
  destruct (NavFacts.rebuildVisible_consistent ns [] 0 Hwf)
    as (vis & -> & _); [lia|].
  eexists. split; [reflexivity|]. exact Hns.
Qed.

Lemma NewTreeModel_places_files_witness :
  exists tm,
    NewTreeModel idOrder [projRepo; srcOnly] = Returns tm
    /\ forall k n,
         nodes tm !! k = Some n -> Kind n = NodeFile ->
         exists f r repoIdx p,
           File n = Some f
           /\ [projRepo; srcOnly] !! RepoRef n = Some r
           /\ 0 <= repoIdx
           /\ nodes tm !! Z.to_nat repoIdx = Some p
           /\ Kind p = NodeRepo /\ RepoRef p = RepoRef n
           /\ placedFile (nodes tm) repoIdx r n f.
Proof.
  apply (NewTreeModel_places_files idOrder [projRepo; srcOnly]).
  - exact idOrder_fair.
  - repeat constructor.
Defined.

(** ** The pointers of the nodes *)

Module RefFacts.

Section Nodes.
Variables (i : nat) (repoIdx : Z) (dirFiles : gmap string (list nat)).

(** The nodes that [addDir] appends belong to repository [i], and their
    files are pointers of [dirFiles]. *)
Lemma new_nodes_refs (segment dir : string) (depth parentIdx depth' base : Z) :
  Forall (fun n =>
            RepoRef n = i
            /\ (Kind n = NodeFile ->
                exists f d, File n = Some f
                            /\ f ∈ default [] (dirFiles !! d)))
         (dirNode i segment depth parentIdx
          :: map (fileNode i depth' base) (default [] (dirFiles !! dir))).
Proof.
  constructor; [by split|].
  apply Forall_lookup. intros k n Hk.
  rewrite BuildFacts.lookup_map in Hk.
  destruct (default [] (dirFiles !! dir) !! k) as [f|] eqn:Hf; [|done].
  injection Hk as <-. split; [done|]. intros _. exists f, dir.
  split; [done|]. by eapply list_elem_of_lookup_2.
Qed.

Lemma addDir_refs (fuel : nat) :
  forall dir st,
    (length (strings.Split dir filepath.slash) <= S fuel)%nat ->
    exists st' ext,
      addDir fuel i repoIdx dirFiles dir st = Returns st'
      /\ b_nodes st' = b_nodes st ++ ext
      /\ Forall (fun n =>
                   RepoRef n = i
                   /\ (Kind n = NodeFile ->
                       exists f d, File n = Some f
                                   /\ f ∈ default [] (dirFiles !! d)))
                ext.
Proof.
  induction fuel as [|fuel IH]; intros dir st Hlen.
  all: destruct (dirNodeIdx st !! dir) as [v|] eqn:Hdir;
    [ exists st, [];
      rewrite (FileFacts.addDir_known i repoIdx dirFiles _ dir st v Hdir),
              app_nil_r;
      split; [done|]; split; [done | constructor]
    |].
  all: destruct (strings.Split dir filepath.slash) as [|seg [|y rest]]
         eqn:Hparts;
    [ by apply SplitFacts.Split_nonempty in Hparts
    | rewrite (FileFacts.addDir_flat i repoIdx dirFiles _ dir seg st Hdir
                 Hparts);
      eexists _, _; split; [reflexivity|]; cbn [b_nodes];
      split; [reflexivity | apply new_nodes_refs]
    |].
  { cbn [length] in Hlen. lia. }
  assert (Hdeep : 1 < len (strings.Split dir filepath.slash))
    by (unfold len; rewrite Hparts; cbn [length]; lia).
  destruct (last (strings.Split dir filepath.slash)) as [segment|] eqn:Hlast.
  2: { apply last_None in Hlast. by rewrite Hparts in Hlast. }
  destruct (IH (strings.Join
                  (take (Z.to_nat (len (strings.Split dir filepath.slash) - 1))
                        (strings.Split dir filepath.slash)) "/") st)
    as (st1 & ext1 & Hrun1 & Hnodes1 & Hext1).
  { rewrite (SplitFacts.parent_parts dir Hdeep), Hparts.
    cbn [length] in *. lia. }
  rewrite (FileFacts.addDir_deep i repoIdx dirFiles fuel dir segment st st1
             Hdir Hdeep Hlast Hrun1).
  eexists _, (ext1 ++ _ :: _). split; [reflexivity|]. cbn [b_nodes].
  split; [by rewrite Hnodes1, <- app_assoc|].
  apply Forall_app. split; [done | apply new_nodes_refs].
Qed.

End Nodes.

Lemma addRepo_refs (o : MapOrder) (acc : list TreeNode) (i : nat)
  (r : Repo) :
  exists ext,
    addRepo o acc (i, r) = Returns (acc ++ repoNode i :: ext)
    /\ Forall (fun n =>
                 RepoRef n = i
                 /\ (Kind n = NodeFile ->
                     exists f file,
                       File n = Some f /\ Files r !! f = Some file))
              ext.
Proof.
  unfold addRepo. cbn [fst snd].
  set (dirFiles := groupFiles (Files r)).
  set (allDirs := sort.Strings _).
  destruct (BuildFacts.forEach_inv
              (fun st =>
                 exists ext,
                   b_nodes st = (acc ++ [repoNode i]) ++ ext
                   /\ Forall (fun n =>
                                RepoRef n = i
                                /\ (Kind n = NodeFile ->
                                    exists f d,
                                      File n = Some f
                                      /\ f ∈ default [] (dirFiles !! d)))
                             ext)
              (fun st dir =>
                 addDir (String.length dir) i (len acc) dirFiles dir st)
              allDirs) with (s := mkBuilder (acc ++ [repoNode i]) ∅)
    as (st & -> & ext & Hnodes & Hext).
  { intros st dir (ext & Hnodes & Hext) _.
    destruct (addDir_refs i (len acc) dirFiles (String.length dir) dir st)
      as (st' & ext' & -> & Hnodes' & Hext');
      [apply SplitFacts.Split_length|].
    exists st'. split; [done|]. exists (ext ++ ext').
    split; [by rewrite Hnodes', Hnodes, app_assoc | by apply Forall_app]. }
  { exists []. cbn [b_nodes]. by rewrite app_nil_r. }
  cbn [bind]. rewrite Hnodes, <- !app_assoc. cbn [app].
  eexists. split; [reflexivity|].
  apply Forall_app. split.
  - eapply Forall_impl; [exact Hext|]. cbn.
    intros n [Hi Hfile]. split; [done|].
    intros (f & d & Hf & Hin)%Hfile.
    destruct (PlaceFacts.groupFiles_members _ _ _ Hin) as (file & ? & _).
    by exists f, file.
  - apply Forall_lookup. intros k n Hk.
    rewrite BuildFacts.lookup_map in Hk.
    destruct (default [] (dirFiles !! "") !! k) as [f|] eqn:Hf; [|done].
    injection Hk as <-. split; [done|]. intros _.
    apply list_elem_of_lookup_2 in Hf.
    destruct (PlaceFacts.groupFiles_members _ _ _ Hf) as (file & ? & _).
    by exists f, file.
Qed.

Lemma refsOk_more (rs more : list Repo) (ns : list TreeNode) :
  refsOk rs ns -> refsOk (rs ++ more) ns.
Proof.
  intros H. eapply Forall_impl; [exact H|]. cbn.
  intros n (r & Hr & Hfile). exists r.
  split; [by apply lookup_app_l_Some | done].
Qed.

(** The node array of [NewTreeModel] refers to the repositories it was
    built from. *)
Lemma build_refs (o : MapOrder) (rs : list Repo) :
  exists ns,
    forEach (addRepo o) (imap pair rs) [] = Returns ns /\ refsOk rs ns.
Proof.
  induction rs as [|r rs IH] using rev_ind.
  - exists []. split; [done | constructor].
  - destruct IH as (ns & Hrun & Hns).
    rewrite imap_app, FileFacts.forEach_app, Hrun.
    cbn [bind imap forEach]. rewrite Nat.add_0_r.
    destruct (addRepo_refs o ns (length rs) r) as (ext & -> & Hext).
    cbn [bind]. eexists. split; [reflexivity|].
    apply Forall_app. split; [by apply refsOk_more|].
    assert (Hr : (rs ++ [r]) !! length rs = Some r)
      by (by apply list_lookup_middle).
    constructor.
    + exists r. by split.
    + eapply Forall_impl; [exact Hext|]. cbn.
      intros n [-> Hfile]. by exists r.
Qed.

Lemma NewTreeModel_refs (o : MapOrder) (rs : list Repo) (tm : TreeModel) :
  NewTreeModel o rs = Returns tm -> refsOk rs (nodes tm).
Proof.
  unfold NewTreeModel.
  destruct (build_refs o rs) as (ns & -> & Hns). cbn [bind].
  destruct (BuildFacts.build_nodes o rs) as (ns' & Hrun' & Hwf & _).
  intros H. unfold rebuildVisible in H.
  apply bind_Returns in H as (vis & _ & [= <-]). exact Hns.
Qed.



End RefFacts.

(** ** The keys *)

Module KeyFacts.


End KeyFacts.

(** X28. Every node of the tree that [NewTreeModel] builds names one of
    the repositories it was built from, and every file node one of the
    files of that repository, whatever the repositories and the map
    iteration order: no pointer that the keys follow is nil. *)
Theorem NewTreeModel_pointers (o : MapOrder) (rs : list Repo) :
  exists tm, NewTreeModel o rs = Returns tm /\ refsOk rs (nodes tm).
Proof.
  destruct (NewTreeModel_returns o rs) as (tm & Hrun & _).
  exists tm. split; [done|]. by eapply RefFacts.NewTreeModel_refs.
Qed.



